(** * mjpeg-proxy: chunk parser, broker and stream responder

    A shallow embedding of [src/mjpeg-proxy.go] (the chunk parser:
    [chunker], [readChunkHeader], [readChunkData]) and of [src/pubsub.go]
    (the broker's event handlers and the per-client responder loop),
    together with the properties the specification states about them. *)

From Stdlib Require Import ZArith List Ascii String Lia Bool Floats.
From Stdlib Require Import DecimalString DecimalNat.
From stdpp Require Import base tactics option list gmap.
Import ListNotations.

Set Default Proof Using "Type".

(** ** Go values: bytes, errors, panics *)

Module Go.

(** A Go [[]byte] and a Go [string] are both byte sequences. *)
Abbreviation byte := ascii (only parsing).
Abbreviation bytes := (list ascii) (only parsing).

Definition B (s : string) : bytes := list_ascii_of_string s.

Definition LF : byte := "010"%char.
Definition CR : byte := "013"%char.
Definition CRLF : bytes := [CR; LF].

(** The [error] values the modelled code can produce. *)
Inductive error : Type :=
| EOF                 (* io.EOF *)
| ErrBufferFull       (* bufio.ErrBufferFull *)
| ErrSyntax           (* strconv.ErrSyntax, wrapped in a NumError *)
| ErrRange            (* strconv.ErrRange, wrapped in a NumError *)
| ErrNoContentLength  (* errors.New("Content-Length chunk header not found") *)
| ErrFinalChunk.      (* errors.New("received final chunk") *)

(** Run-time panics of the modelled code. *)
Inductive panic : Type :=
| IndexOutOfRange (index len : nat)   (* parts[i] with i >= len(parts) *)
| MakeSliceLenOutOfRange              (* make([]byte, n) with n < 0 *)
| CloseOfClosedChannel                (* close(c) on a closed channel *)
| SendOnClosedChannel.                (* c <- v on a closed channel *)

(** The result of running a piece of Go code: it returns, it panics, or
    the bound given to a loop of the model was too small (the theorems
    below show that the bounds chosen are never exhausted). *)
Inductive outcome (A : Type) : Type :=
| Ret (a : A)
| Panic (p : panic)
| OutOfFuel.
Arguments Ret {A} a.
Arguments Panic {A} p.
Arguments OutOfFuel {A}.

#[export] Instance outcome_ret : MRet outcome := @Ret.
#[export] Instance outcome_bind : MBind outcome := fun A B f m =>
  match m with
  | Ret a => f a
  | Panic p => Panic p
  | OutOfFuel => OutOfFuel
  end.

(** [xs[i]] on a slice: a panic when the index is out of range. *)
Definition index {A} (xs : list A) (i : nat) : outcome A :=
  match xs !! i with
  | Some x => Ret x
  | None => Panic (IndexOutOfRange i (length xs))
  end.

(** *** package strings *)

Definition in_cutset (cutset : bytes) (c : byte) : bool :=
  existsb (Ascii.eqb c) cutset.

(** [strings.TrimRight(s, cutset)]: [s] without its trailing bytes that
    are in [cutset]. *)
Fixpoint TrimRight (s cutset : bytes) : bytes :=
  match s with
  | [] => []
  | c :: s' =>
      match TrimRight s' cutset with
      | [] => if in_cutset cutset c then [] else [c]
      | t => c :: t
      end
  end.

Fixpoint HasPrefix (s prefix : bytes) {struct prefix} : bool :=
  match prefix, s with
  | [], _ => true
  | p :: prefix', c :: s' => Ascii.eqb c p && HasPrefix s' prefix'
  | _ :: _, [] => false
  end.

(** [strings.Index(s, sep)]: the index of the first instance of [sep] in
    [s]; [None] stands for Go's -1. *)
Fixpoint Index (s sep : bytes) : option nat :=
  if HasPrefix s sep then Some 0
  else match s with
       | [] => None
       | _ :: s' => S <$> Index s' sep
       end.

(** [strings.SplitN(s, sep, 2)] for a non-empty [sep]: at most two
    substrings, the second one the unsplit remainder. *)
Definition SplitN2 (s sep : bytes) : list bytes :=
  match Index s sep with
  | Some m => [take m s; drop (m + length sep) s]
  | None => [s]
  end.

Definition is_upper (c : byte) : bool :=
  (65 <=? nat_of_ascii c) && (nat_of_ascii c <=? 90).

Definition to_lower (c : byte) : byte :=
  if is_upper c then ascii_of_nat (nat_of_ascii c + 32) else c.

(** [strings.EqualFold(s, t)] for a [t] made of ASCII letters other than
    k and s and of other ASCII bytes: equality of the bytes up to the case
    of ASCII letters. (Under Unicode simple case folding only k and s have
    a partner outside ASCII, so for such a [t] no multi-byte rune of [s]
    can match.) The parser's only call has [t = "Content-Length"]. *)
Fixpoint EqualFold (s t : bytes) : bool :=
  match s, t with
  | [], [] => true
  | c :: s', d :: t' => Ascii.eqb (to_lower c) (to_lower d) && EqualFold s' t'
  | _, _ => false
  end.

(** *** package strconv *)

Definition is_digit (c : byte) : bool :=
  (48 <=? nat_of_ascii c) && (nat_of_ascii c <=? 57).

Definition digit_val (c : byte) : Z := Z.of_nat (nat_of_ascii c - 48).

(** The digit loop of [strconv.ParseUint(s, 10, 64)]: the first byte that
    is not a digit is a syntax error, the first step past 2^64 - 1 a range
    error. *)
Fixpoint parse_digits (s : bytes) (n : Z) : Z * option error :=
  match s with
  | [] => (n, None)
  | c :: s' =>
      if is_digit c then
        let n1 := (n * 10 + digit_val c)%Z in
        if (2 ^ 64 <=? n1)%Z then ((2 ^ 64 - 1)%Z, Some ErrRange)
        else parse_digits s' n1
      else (0%Z, Some ErrSyntax)
  end.

Definition ParseUint (s : bytes) : Z * option error :=
  match s with
  | [] => (0%Z, Some ErrSyntax)
  | _ => parse_digits s 0
  end.

(** [strconv.Atoi(s)] on a 64-bit platform: an optional sign, decimal
    digits, and the result within the range of [int]. (Atoi's fast path
    for short strings computes the same result.) *)
Definition Atoi (s : bytes) : Z * option error :=
  match s with
  | [] => (0%Z, Some ErrSyntax)
  | c :: s' =>
      let neg := Ascii.eqb c "-" in
      let digits := if neg || Ascii.eqb c "+" then s' else s in
      match ParseUint digits with
      | (un, Some ErrRange) =>
          (if neg then (- 2 ^ 63)%Z else (2 ^ 63 - 1)%Z, Some ErrRange)
      | (_, Some e) => (0%Z, Some e)
      | (un, None) =>
          if negb neg && (2 ^ 63 <=? un)%Z then ((2 ^ 63 - 1)%Z, Some ErrRange)
          else if neg && (2 ^ 63 <? un)%Z then ((- 2 ^ 63)%Z, Some ErrRange)
          else (if neg then (- un)%Z else un, None)
      end
  end.

End Go.

(** ** package bufio: a buffered reader over the response body *)

Module Bufio.
Import Go.

(** [bufio.NewReader] allocates a buffer of [defaultBufSize] bytes. *)
Definition defaultBufSize : nat := 4096.

(** What one [Read] of the underlying body can hand over: at least one byte
    (an [io.Reader] does not return a zero count with a nil error). *)
Definition packet : Type := byte * list byte.

Definition pkt_bytes (p : packet) : bytes := p.1 :: p.2.

(** The body behind the reader (an [io.Reader]): [packets] is what its
    successive reads will deliver. An [io.Reader] may return the last bytes
    of its stream either with a nil error, the next read returning
    [0, io.EOF], or together with [io.EOF]; [eof_with_last] says which of
    the two this body does. Once the packets are used up every read returns
    [0, io.EOF]. *)
Record Body : Type := mkBody {
  packets : list packet;
  eof_with_last : bool
}.

(** The reader [b]: [buf] is the unread part [b.buf[b.r:b.w]] of its buffer,
    [rd] the body it reads from, [err] the pending error [b.err]. *)
Record Reader : Type := mkReader {
  buf : bytes;
  rd : Body;
  err : option error
}.

Definition NewReader (body : Body) : Reader :=
  {| buf := []; rd := body; err := None |}.

(** All the bytes still to be read through [b]. *)
Definition content (b : Reader) : bytes :=
  buf b ++ concat (pkt_bytes <$> packets (rd b)).

(** [body.Read(p)] with [len(p) = k]: at most [k] bytes of the next packet;
    what does not fit stays for the next read. The read that hands over the
    end of the last packet returns [io.EOF] with the bytes when the body is
    one that does so. *)
Definition body_Read (k : nat) (src : Body)
  : (bytes * option error) * Body :=
  match packets src with
  | [] => (([], Some EOF), src)
  | p :: rest =>
      match drop k (pkt_bytes p) with
      | [] =>
          ((take k (pkt_bytes p),
            match rest with
            | [] => if eof_with_last src then Some EOF else None
            | _ :: _ => None
            end),
           {| packets := rest; eof_with_last := eof_with_last src |})
      | c :: cs =>
          ((take k (pkt_bytes p), None),
           {| packets := (c, cs) :: rest;
              eof_with_last := eof_with_last src |})
      end
  end.

(** [b.fill()]: one read of the body into the free part of the buffer (the
    unread bytes are first moved to its start). A read that delivers at
    least one byte or an error ends fill's retry loop at once; the bytes
    that came with an error are buffered and the error is left pending. *)
Definition fill (b : Reader) : Reader :=
  let '((bs, e), src) := body_Read (defaultBufSize - length (buf b)) (rd b) in
  {| buf := buf b ++ bs; rd := src; err := e |}.

(** [b.readErr()]: the pending error, which is cleared. *)
Definition readErr (b : Reader) : option error * Reader :=
  (err b, {| buf := buf b; rd := rd b; err := None |}).

(** [bytes.IndexByte]. *)
Fixpoint IndexByte (s : bytes) (c : byte) : option nat :=
  match s with
  | [] => None
  | d :: s' => if Ascii.eqb d c then Some 0 else S <$> IndexByte s' c
  end.

(** The loop of [b.ReadSlice(delim)]: search the buffer; a pending error
    ends the search with what is buffered; so does a full buffer; otherwise
    fill and search again. *)
Fixpoint ReadSlice_loop (fuel : nat) (b : Reader) (delim : byte)
  : outcome ((bytes * option error) * Reader) :=
  match fuel with
  | 0 => OutOfFuel
  | S fuel' =>
      match IndexByte (buf b) delim with
      | Some i =>
          Ret ((take (S i) (buf b), None),
               {| buf := drop (S i) (buf b); rd := rd b; err := err b |})
      | None =>
          match err b with
          | Some e =>
              Ret ((buf b, Some e), {| buf := []; rd := rd b; err := None |})
          | None =>
              if decide (defaultBufSize <= length (buf b)) then
                Ret ((buf b, Some ErrBufferFull),
                     {| buf := []; rd := rd b; err := None |})
              else ReadSlice_loop fuel' (fill b) delim
          end
      end
  end.

(** Every fill but the last adds a byte to a buffer of [defaultBufSize]
    bytes, so [defaultBufSize + 2] rounds are enough. *)
Definition ReadSlice (b : Reader) (delim : byte)
  : outcome ((bytes * option error) * Reader) :=
  ReadSlice_loop (defaultBufSize + 2) b delim.

(** [b.Read(p)] with [len(p) = k]: the bytes copied into [p] (their number
    is the [n] that Go returns), the error, and the reader afterwards. *)
Definition Read (b : Reader) (k : nat) : (bytes * option error) * Reader :=
  if decide (k = 0) then
    if decide (0 < length (buf b)) then (([], None), b)
    else let '(e, b') := readErr b in (([], e), b')
  else
    match buf b with
    | [] =>
        match err b with
        | Some e => (([], Some e), {| buf := []; rd := rd b; err := None |})
        | None =>
            if decide (defaultBufSize <= k) then
              (* large read, empty buffer: read directly into p *)
              let '((bs, e), src) := body_Read k (rd b) in
              ((bs, e), {| buf := []; rd := src; err := None |})
            else
              (* one read into the buffer, then copy *)
              let '((bs, e), src) := body_Read defaultBufSize (rd b) in
              match bs with
              | [] => (([], e), {| buf := []; rd := src; err := None |})
              | _ => ((take k bs, None),
                      {| buf := drop k bs; rd := src; err := e |})
              end
        end
    | _ => ((take k (buf b), None),
            {| buf := drop k (buf b); rd := rd b; err := err b |})
    end.

End Bufio.

(** ** The chunk parser of mjpeg-proxy.go *)

Module Parser.
Import Go Bufio.

(** The runtime's [maxAlloc], the largest allocation it accepts: [1 << 48]
    bytes where [int] has 64 bits and the heap 48 address bits (linux/amd64
    and the like), the platform on which [Atoi] is modelled above. *)
Definition maxAlloc : Z := 2 ^ 48.

(** [make([]byte, size)]: [runtime.makeslice] panics with "makeslice: len
    out of range" for a negative length and for one above [maxAlloc]. (A
    length it accepts for which the memory cannot be had ends the process
    with a fatal error; that is outside this model.) *)
Definition make_bytes (size : Z) : outcome bytes :=
  if (size <? 0)%Z || (maxAlloc <? size)%Z then Panic MakeSliceLenOutOfRange
  else Ret (replicate (Z.to_nat size) Ascii.zero).

(** The bytes [bs] stored into [buf[pos:]]. *)
Definition store (buf : bytes) (pos : nat) (bs : bytes) : bytes :=
  take pos buf ++ bs ++ drop (pos + length bs) buf.

(** The loop [for pos < size] of [readChunkData]. Every read that returns
    without an error delivers a byte, so [size] rounds are enough. *)
Fixpoint readChunkData_loop (fuel : nat) (reader : Reader) (size : Z)
    (buf : bytes) (pos : Z) : outcome ((bytes * option error) * Reader) :=
  if (pos <? size)%Z then
    match fuel with
    | 0 => OutOfFuel
    | S fuel' =>
        let '((bs, e), reader') := Read reader (Z.to_nat (size - pos)) in
        let buf' := store buf (Z.to_nat pos) bs in
        match e with
        | Some _ => Ret ((buf', e), reader')
        | None =>
            readChunkData_loop fuel' reader' size buf'
              (pos + Z.of_nat (length bs))
        end
    end
  else Ret ((buf, None), reader).

Definition readChunkData (reader : Reader) (size : Z)
  : outcome ((bytes * option error) * Reader) :=
  buf ← make_bytes size;
  readChunkData_loop (Z.to_nat size) reader size buf 0.

(** The body of the header loop after the blank-line test: split the line
    at the first ": " and, if the key is Content-Length, parse the value.
    Returns the new [size] and [err]. *)
Definition header_line (lineStr : bytes) (size : Z)
  : outcome (Z * option error) :=
  let parts := SplitN2 lineStr (B ": ") in
  key ← index parts 0;
  if EqualFold key (B "Content-Length") then
    val ← index parts 1;
    let '(n, e) := Atoi val in
    match e with
    | Some _ => Ret (size, e)
    | None => Ret (n, None)
    end
  else Ret (size, None).

(** The loop "read header" of [readChunkHeader], and what follows it. Every
    round consumes a line of the input. *)
Fixpoint readChunkHeader_loop (fuel : nat) (reader : Reader) (head : bytes)
    (size : Z) : outcome ((bytes * Z * option error) * Reader) :=
  match fuel with
  | 0 => OutOfFuel
  | S fuel' =>
      '((line, e), reader) ← ReadSlice reader LF;
      match e with
      | Some _ => Ret ((head, size, e), reader)
      | None =>
          let head := head ++ line in
          let lineStr := TrimRight line CRLF in
          if decide (length lineStr = 0) then
            (* empty line marks end of header *)
            if (size =? -1)%Z
            then Ret ((head, size, Some ErrNoContentLength), reader)
            else Ret ((head, size, None), reader)
          else
            '(size', e) ← header_line lineStr size;
            match e with
            | Some _ => Ret ((head, size, e), reader)
            | None => readChunkHeader_loop fuel' reader head size'
            end
      end
  end.

Definition readChunkHeader (reader : Reader)
  : outcome ((bytes * Z * option error) * Reader) :=
  (* read boundary *)
  '((line, e), reader) ← ReadSlice reader LF;
  match e with
  | Some _ => Ret (([], (-1)%Z, e), reader)
  | None =>
      readChunkHeader_loop (S (length (content reader))) reader
        ([] ++ line) (-1)
  end.

(** The [select] of the run loop: the environment decides whether the stop
    signal is received or the consumer takes the frame. *)
Inductive selected : Type :=
| RecvStop    (* case <-stopChan *)
| SendFrame.  (* case pubChan <- append(head, data...) *)

(** How a run of [chunker] ends. [Stopped] is the end with [failure == nil]. *)
Inductive ending : Type :=
| Stopped
| Failed (e : error)
| Crashed (p : panic)
| Unfinished.

(** A run of [chunker]: the frames sent on [pubChan], in order, and the
    way the run ended. *)
Record run : Type := mkRun {
  emitted : list bytes;
  ended : ending
}.

Definition emit (frame : bytes) (r : run) : run :=
  {| emitted := frame :: emitted r; ended := ended r |}.

Definition halt (e : ending) : run := {| emitted := []; ended := e |}.

(** [ChunkLoop]. The [i]-th [select] takes the branch [sel i]. *)
Fixpoint chunker_loop (fuel : nat) (sel : nat -> selected) (i : nat)
    (reader : Reader) : run :=
  match fuel with
  | 0 => halt Unfinished
  | S fuel' =>
      match readChunkHeader reader with
      | OutOfFuel => halt Unfinished
      | Panic p => halt (Crashed p)
      | Ret ((_, _, Some e), _) => halt (Failed e)
      | Ret ((head, size, None), reader) =>
          match readChunkData reader size with
          | OutOfFuel => halt Unfinished
          | Panic p => halt (Crashed p)
          | Ret ((_, Some e), _) => halt (Failed e)
          | Ret ((data, None), reader) =>
              match sel i with
              | RecvStop => halt Stopped
              | SendFrame =>
                  if (size =? 0)%Z
                  then emit (head ++ data) (halt (Failed ErrFinalChunk))
                  else emit (head ++ data)
                         (chunker_loop fuel' sel (S i) reader)
              end
          end
      end
  end.

(** [chunker(body, pubChan, stopChan)]: every round of the loop consumes at
    least the boundary line, so one round per byte of the body is enough. *)
Definition chunker (body : Body) (sel : nat -> selected) : run :=
  chunker_loop (S (length (content (NewReader body)))) sel 0 (NewReader body).

End Parser.

(** ** The broker of pubsub.go *)

Module Broker.
Import Go.

(** A [*Subscriber] is a pointer: subscribers are told apart by identity. *)
Abbreviation subscriber := positive (only parsing).

(** The broker [pubSub] together with the channels of the subscribers it
    has met.
    - [subscribers]: the key set of [map[*Subscriber]struct{}];
    - [pubChan]: [None] is nil, [Some n] the channel made by the [n]-th
      successful start;
    - [stopTimer]: whether the timer is armed, that is, whether a value is
      still to be received from [stopTimer.C];
    - [closed]: the subscribers whose [ChunkChannel] has been closed;
    - [inbox]: per subscriber, the frames its [ChunkChannel] has handed
      over, oldest first;
    - [started]: how many channels [startChunker] has made;
    - [stops]: how many times [chunker.Stop()] has been called. *)
Record PubSub : Type := mkPubSub {
  subscribers : gset positive;
  pubChan : option nat;
  stopTimer : bool;
  closed : gset positive;
  inbox : gmap positive (list bytes);
  started : nat;
  stops : nat
}.

(** [NewPubSub]: the timer is created with delay 0 and its value received
    at once, so it is not armed. *)
Definition NewPubSub : PubSub :=
  {| subscribers := ∅; pubChan := None; stopTimer := false;
     closed := ∅; inbox := ∅; started := 0; stops := 0 |}.

Definition frames_of (p : PubSub) (s : subscriber) : list bytes :=
  default [] (inbox p !! s).

(** One round of the loop of [doPublish]:
    [select { case s.ChunkChannel <- data: default: }].
    The channel has no buffer: the send goes through exactly when the
    subscriber's responder is waiting to receive ([ready s]). A send on a
    closed channel panics. *)
Definition try_send (ready : subscriber -> bool) (data : bytes)
    (p : PubSub) (s : subscriber) : outcome PubSub :=
  if decide (s ∈ closed p) then Panic SendOnClosedChannel
  else if ready s then
    Ret {| subscribers := subscribers p; pubChan := pubChan p;
           stopTimer := stopTimer p; closed := closed p;
           inbox := <[s := frames_of p s ++ [data]]> (inbox p);
           started := started p; stops := stops p |}
  else Ret p.

(** [for s := range pubSub.subscribers], the keys visited in the order
    [order] that the run time picks. A key removed before it is reached is
    not visited. *)
Fixpoint range (order : list subscriber)
    (body : PubSub -> subscriber -> outcome PubSub) (p : PubSub)
  : outcome PubSub :=
  match order with
  | [] => Ret p
  | s :: order' =>
      if decide (s ∈ subscribers p)
      then p' ← body p s; range order' body p'
      else range order' body p
  end.

Definition doPublish (order : list subscriber) (ready : subscriber -> bool)
    (data : bytes) (p : PubSub) : outcome PubSub :=
  range order (try_send ready data) p.

(** [doUnsubscribe]: an absent subscriber is left alone; when the last one
    goes the timer is stopped, drained and reset to [stopDelay]. *)
Definition doUnsubscribe (p : PubSub) (s : subscriber) : PubSub :=
  if decide (s ∈ subscribers p) then
    let subs := subscribers p ∖ {[s]} in
    {| subscribers := subs; pubChan := pubChan p;
       stopTimer := if decide (size subs = 0) then true else stopTimer p;
       closed := closed p; inbox := inbox p;
       started := started p; stops := stops p |}
  else p.

(** [close(s.ChunkChannel)]. *)
Definition close_chan (p : PubSub) (s : subscriber) : outcome PubSub :=
  if decide (s ∈ closed p) then Panic CloseOfClosedChannel
  else Ret {| subscribers := subscribers p; pubChan := pubChan p;
              stopTimer := stopTimer p; closed := {[s]} ∪ closed p;
              inbox := inbox p; started := started p; stops := stops p |}.

Definition stopSubscribers (order : list subscriber) (p : PubSub)
  : outcome PubSub :=
  range order (fun p s => p' ← close_chan p s; Ret (doUnsubscribe p' s)) p.

(** [startChunker]. The type [Chunker] is not part of the sources at hand:
    the results of [chunker.Started()] and of [chunker.Connect()] are taken
    from the environment ([is_started], and [connect_err] for a failed
    connect). Returns whether an error is returned. *)
Definition startChunker (is_started connect_err : bool) (p : PubSub)
  : bool * PubSub :=
  if is_started then (false, p)
  else if connect_err then (true, p)
  else (false,
        {| subscribers := subscribers p; pubChan := Some (started p);
           stopTimer := stopTimer p; closed := closed p; inbox := inbox p;
           started := S (started p); stops := stops p |}).

Definition stopChunker (p : PubSub) : PubSub :=
  {| subscribers := subscribers p; pubChan := None;
     stopTimer := stopTimer p; closed := closed p; inbox := inbox p;
     started := started p;
     stops := match pubChan p with
              | Some _ => S (stops p)
              | None => stops p
              end |}.

(** [doSubscribe]; [order] is the order of the range loop of
    [stopSubscribers], should it run. *)
Definition doSubscribe (is_started connect_err : bool)
    (order : list subscriber) (p : PubSub) (s : subscriber)
  : outcome PubSub :=
  let p := {| subscribers := {[s]} ∪ subscribers p; pubChan := pubChan p;
              stopTimer := stopTimer p; closed := closed p;
              inbox := inbox p; started := started p; stops := stops p |} in
  match pubChan p with
  | None =>
      let '(failed, p) := startChunker is_started connect_err p in
      if failed then stopSubscribers order p else Ret p
  | Some _ => Ret p
  end.

(** What the [select] of [loop] can receive. *)
Inductive event : Type :=
| Publish (data : bytes) (ready : subscriber -> bool)
    (order : list subscriber)           (* data, true := <-pubChan *)
| ProducerEnded (order : list subscriber)  (* _, false := <-pubChan *)
| Subscribe (s : subscriber) (is_started connect_err : bool)
    (order : list subscriber)           (* s := <-subChan *)
| Unsubscribe (s : subscriber)          (* s := <-unsubChan *)
| TimerFired.                           (* <-stopTimer.C *)

(** One round of [loop]. *)
Definition handle (p : PubSub) (ev : event) : outcome PubSub :=
  match ev with
  | Publish data ready order => doPublish order ready data p
  | ProducerEnded order => stopSubscribers order (stopChunker p)
  | Subscribe s is_started connect_err order =>
      doSubscribe is_started connect_err order p s
  | Unsubscribe s => Ret (doUnsubscribe p s)
  | TimerFired =>
      let p := {| subscribers := subscribers p; pubChan := pubChan p;
                  stopTimer := false; closed := closed p; inbox := inbox p;
                  started := started p; stops := stops p |} in
      if decide (size (subscribers p) = 0) then Ret (stopChunker p)
      else Ret p
  end.

(** An order in which a range loop can visit the key set [X]. *)
Definition visits (order : list subscriber) (X : gset positive) : Prop :=
  NoDup order /\ forall s, s ∈ order <-> s ∈ X.

(** When the [select] can receive [ev]: a nil [pubChan] delivers nothing,
    the timer's channel delivers only if the timer is armed, and a
    subscriber that subscribes is a new one ([NewSubscriber] in
    [ServeHTTP]), with an open channel. *)
Definition enabled (p : PubSub) (ev : event) : Prop :=
  match ev with
  | Publish _ _ order => pubChan p <> None /\ visits order (subscribers p)
  | ProducerEnded order => pubChan p <> None /\ visits order (subscribers p)
  | Subscribe s _ _ order =>
      (s ∉ subscribers p) /\ (s ∉ closed p) /\
      visits order ({[s]} ∪ subscribers p)
  | Unsubscribe _ => True
  | TimerFired => stopTimer p = true
  end.

(** The states the loop can be in between two rounds. *)
Inductive reachable : PubSub -> Prop :=
| reachable_new : reachable NewPubSub
| reachable_round p ev p' :
    reachable p -> enabled p ev -> handle p ev = Ret p' -> reachable p'.

(** In the words of the specification. *)
Definition parser_live (p : PubSub) : Prop := pubChan p <> None.
Definition has_subscribers (p : PubSub) : Prop := subscribers p <> ∅.
Definition in_grace_window (p : PubSub) : Prop := stopTimer p = true.

End Broker.

(** ** The stream responder of pubsub.go *)

Module Responder.
Import Go.

(** *** Durations *)

(** A [time.Duration] is an [int64] count of nanoseconds. *)
Definition wrap64 (z : Z) : Z := ((z + 2 ^ 63) mod 2 ^ 64 - 2 ^ 63)%Z.

Definition Millisecond : Z := 1000000.

(** The integer part of a finite [float64]. *)
Definition float_trunc (f : float) : option Z :=
  match Prim2SF f with
  | S754_zero _ => Some 0%Z
  | S754_finite s m e =>
      let v := if (0 <=? e)%Z then (Z.pos m * 2 ^ e)%Z
               else (Z.pos m / 2 ^ (- e))%Z in
      Some (if s then (- v)%Z else v)
  | S754_infinity _ => None
  | S754_nan => None
  end.

Section WithPlatform.

(** [strconv.ParseFloat(s, 64)], [None] being a returned error. *)
Variable ParseFloat : string -> option float.

(** The conversion of a [float64] that has no [int64] value (infinities,
    NaN, an integer part out of range) is left to the platform by the
    language. *)
Variable unrepresentable : float -> Z.

(** [int64(f)] (also [time.Duration(f)]): the fraction is discarded. *)
Definition int64_of_float (f : float) : Z :=
  match float_trunc f with
  | Some z =>
      if ((- 2 ^ 63 <=? z) && (z <? 2 ^ 63))%Z then z else unrepresentable f
  | None => unrepresentable f
  end.

Definition parseSendInterval (fps : string) : Z :=
  match ParseFloat fps with
  | None => 0%Z
  | Some f =>
      wrap64 (int64_of_float (PrimFloat.div 1000%float f) * Millisecond)
  end.

(** *** The receive loop of [ServeHTTP] *)

(** What the [select] of one round receives. *)
Inductive received : Type :=
| Chunk (data : bytes)   (* data, true := <-sub.ChunkChannel *)
| ChanClosed             (* nil, false := <-sub.ChunkChannel *)
| CtxDone.               (* <-r.Context().Done() *)

(** One round as the environment shapes it: what is received, the three
    readings of [time.Now()] (for the test against [endTime], for the
    throttle test and for [lastSendTime]), in nanoseconds, and whether
    [mw.CreatePart] and [part.Write] return an error. *)
Record round : Type := mkRound {
  recv : received;
  now_limit : Z;
  now_throttle : Z;
  now_send : Z;
  create_err : bool;
  write_err : bool
}.

(** The local variables of [ServeHTTP] and the parts written so far. *)
Record locals : Type := mkLocals {
  data : bytes;
  chunkOk : bool;
  headersSent : bool;
  lastSendTime : Z;
  parts : list bytes
}.

Definition locals0 : locals :=
  {| data := []; chunkOk := false; headersSent := false;
     lastSendTime := 0; parts := [] |}.

(** How the handler goes on after the rounds it was given. *)
Inductive finish : Type :=
| ServiceUnavailable  (* http.Error(w, "Stream failed", 503) *)
| WriterClosed        (* mw.Close() *)
| Returned            (* return after a failed CreatePart or Write *)
| Waiting.            (* blocked in the select *)

(** What one round does to the loop. *)
Inductive control : Type :=
| Break
| Continue
| Return.

Definition loop_body (sendInterval endTime : Z) (l : locals) (r : round)
  : control * locals :=
  match recv r with
  | ChanClosed =>
      (Break, {| data := []; chunkOk := false; headersSent := headersSent l;
                 lastSendTime := lastSendTime l; parts := parts l |})
  | CtxDone => (Break, l)
  | Chunk d =>
      let l := {| data := d; chunkOk := true; headersSent := headersSent l;
                  lastSendTime := lastSendTime l; parts := parts l |} in
      if (endTime <? now_limit r)%Z then (Break, l)
      else if headersSent l && (0 <? sendInterval)%Z &&
              (now_throttle r - lastSendTime l <? sendInterval)%Z
      then (Continue, l)   (* skip this chunk *)
      else
        let l := {| data := data l; chunkOk := chunkOk l; headersSent := true;
                    lastSendTime := now_send r; parts := parts l |} in
        if create_err r then (Return, l)
        else if write_err r then (Return, l)
        else (Continue,
              {| data := data l; chunkOk := chunkOk l;
                 headersSent := headersSent l;
                 lastSendTime := lastSendTime l;
                 parts := parts l ++ [data l] |})
  end.

(** After the loop. *)
Definition after_loop (l : locals) : finish :=
  if negb (headersSent l) && negb (chunkOk l) then ServiceUnavailable
  else WriterClosed.

Fixpoint serve_loop (sendInterval endTime : Z) (l : locals)
    (rounds : list round) : finish * locals :=
  match rounds with
  | [] => (Waiting, l)
  | r :: rounds' =>
      match loop_body sendInterval endTime l r with
      | (Break, l') => (after_loop l', l')
      | (Return, l') => (Returned, l')
      | (Continue, l') => serve_loop sendInterval endTime l' rounds'
      end
  end.

(** *** The handler *)

Record request : Type := mkRequest {
  Method : string;
  form_err : bool;   (* r.ParseForm() returns an error *)
  fps : string;      (* r.FormValue("fps"), empty when absent *)
  flushable : bool   (* w is an http.Flusher *)
}.

Inductive response : Type :=
| MethodNotAllowed                       (* 405 *)
| BadRequest                             (* 400 *)
| NotFlushable                           (* return, nothing written *)
| Streamed (f : finish) (l : locals).

(** [ServeHTTP]; [endTime] is the time limit computed before the loop. *)
Definition ServeHTTP (r : request) (endTime : Z) (rounds : list round)
  : response :=
  if negb (String.eqb (Method r) "GET") && negb (String.eqb (Method r) "HEAD")
  then MethodNotAllowed
  else if form_err r then BadRequest
  else
    let sendInterval := parseSendInterval (fps r) in
    if negb (flushable r) then NotFlushable
    else
      let '(f, l) := serve_loop sendInterval endTime locals0 rounds in
      Streamed f l.

End WithPlatform.

End Responder.

(** ** The upstream connection of mjpeg-proxy.go, and the client address *)

Module Upstream.
Import Go.

(** [strings.Split(s, sep)] for a separator of one byte: the pieces of [s]
    between the separators, at least one piece. *)
Fixpoint Split (s : bytes) (sep : byte) : list bytes :=
  match s with
  | [] => [[]]
  | c :: s' =>
      if Ascii.eqb c sep then [] :: Split s' sep
      else match Split s' sep with
           | p :: ps => (c :: p) :: ps
           | [] => [[c]]
           end
  end.

(** [strings.Join(parts, sep)]. *)
Fixpoint Join (parts : list bytes) (sep : bytes) : bytes :=
  match parts with
  | [] => []
  | [p] => p
  | p :: ps => p ++ sep ++ Join ps sep
  end.

(** [strings.TrimPrefix(s, prefix)]. *)
Definition TrimPrefix (s prefix : bytes) : bytes :=
  if HasPrefix s prefix then drop (length prefix) s else s.

(** The error of [getBoundary]:
    [errors.New(fmt.Sprintf("Content-Type is invalid (%s)", shown))]. *)
Inductive boundary_error : Type :=
| InvalidContentType (shown : bytes).

(** [getBoundary(resp)], as a function of
    [resp.Header.Get("Content-Type")]. *)
Definition getBoundary (contentType : bytes) : bytes + boundary_error :=
  let ct := Split contentType ";" in
  let fixedPrefix := B "multipart/x-mixed-replace;boundary=" in
  match ct with
  | ct0 :: ct1 :: _ =>
      if negb (HasPrefix ct0 (B "multipart/x-mixed-replace"))
         || negb (HasPrefix (TrimPrefix ct1 (B " ")) (B "boundary="))
      then inr (InvalidContentType (Join ct (B ";")))
      else
        (* build normalized Content-Type string *)
        let fixedCt := ct0 ++ B ";" ++ TrimPrefix ct1 (B " ") in
        inl (B "--" ++ TrimPrefix fixedCt fixedPrefix)
  | _ => inr (InvalidContentType (Join ct (B ";")))
  end.

(** [clientAddress(r)] of pubsub.go. The global [clientHeader] (set from
    the configuration, which is not part of the sources at hand) is a
    parameter; [header] is [r.Header.Get], which yields the empty string
    for an absent header. *)
Definition clientAddress (clientHeader : bytes) (RemoteAddr : bytes)
    (header : bytes -> bytes) : outcome bytes :=
  match clientHeader with
  | [] => Ret RemoteAddr
  | _ =>
      let hosts := Split (header clientHeader) "," in
      host ← index hosts 0;
      match host with
      | [] => Ret RemoteAddr
      | _ => Ret host
      end
  end.

End Upstream.

(** * Properties *)

(** ** The string functions *)

Module GoFacts.
Import Go.

(** Equality up to the case of ASCII letters. *)
Definition eq_fold (s t : bytes) : Prop := to_lower <$> s = to_lower <$> t.

Lemma EqualFold_spec s t : EqualFold s t = true <-> eq_fold s t.
Proof.
  unfold eq_fold. revert t.
  induction s as [|c s IH]; intros [|d t]; cbn [EqualFold];
    rewrite ?fmap_cons, ?fmap_nil; try (split; intros; congruence).
  rewrite andb_true_iff, IH. split.
  - intros [Hc ->]. apply Ascii.eqb_eq in Hc. by rewrite Hc.
  - intros [= Hc Hs]. rewrite Hc, Ascii.eqb_refl. done.
Qed.

Lemma eq_fold_length s t : eq_fold s t -> length s = length t.
Proof.
  unfold eq_fold. intros H.
  by rewrite <- (length_fmap to_lower s), H, length_fmap.
Qed.

(** A byte that folding leaves alone and that is absent from the folded
    [t] is absent from every [s] that equals [t] up to case. *)
Lemma eq_fold_absent c s t :
  to_lower c = c -> c ∉ (to_lower <$> t) -> eq_fold s t -> c ∉ s.
Proof.
  unfold eq_fold. intros Hc Hnot Heq Hin. apply Hnot. rewrite <- Heq, <- Hc.
  by apply list_elem_of_fmap_2.
Qed.

Lemma content_length_no_colon s :
  eq_fold s (B "Content-Length") -> ":"%char ∉ s.
Proof.
  apply eq_fold_absent; [done|]. vm_compute. intros H.
  repeat (apply elem_of_cons in H as [H|H]; [discriminate|]).
  by apply elem_of_nil in H.
Qed.

Lemma content_length_no_LF s :
  eq_fold s (B "Content-Length") -> LF ∉ s.
Proof.
  apply eq_fold_absent; [done|]. vm_compute. intros H.
  repeat (apply elem_of_cons in H as [H|H]; [discriminate|]).
  by apply elem_of_nil in H.
Qed.

(** *** TrimRight *)

Lemma TrimRight_snoc_cut s c cutset :
  in_cutset cutset c = true -> TrimRight (s ++ [c]) cutset = TrimRight s cutset.
Proof.
  intros Hc. induction s as [|d s IH]; simpl.
  - by rewrite Hc.
  - by rewrite IH.
Qed.

Lemma TrimRight_CRLF t : TrimRight (t ++ CRLF) CRLF = TrimRight t CRLF.
Proof.
  unfold CRLF. change [CR; LF] with ([CR] ++ [LF]) at 1.
  rewrite app_assoc, !TrimRight_snoc_cut; done.
Qed.

Lemma TrimRight_keep s c cutset :
  in_cutset cutset c = false -> TrimRight (s ++ [c]) cutset = s ++ [c].
Proof.
  intros Hc. induction s as [|d s IH]; simpl.
  - by rewrite Hc.
  - rewrite IH. by destruct s.
Qed.

(** A text that does not end in CR or LF is what [TrimRight] leaves of its
    line. *)
Lemma TrimRight_line t :
  LF ∉ t -> last t <> Some CR -> TrimRight (t ++ CRLF) CRLF = t.
Proof.
  intros HLF HCR. rewrite TrimRight_CRLF.
  destruct (decide (t = [])) as [->|Hne]; [done|].
  destruct (exists_last Hne) as (s & c & ->).
  apply TrimRight_keep. unfold in_cutset. simpl.
  rewrite last_snoc in HCR.
  destruct (Ascii.eqb_spec c CR) as [->|_]; [done|].
  destruct (Ascii.eqb_spec c LF) as [->|_]; [|done].
  exfalso. apply HLF. set_solver.
Qed.

(** *** Index and SplitN *)

Lemma HasPrefix_spec s p : HasPrefix s p = true <-> exists r, s = p ++ r.
Proof.
  revert s. induction p as [|c p IH]; intros s; simpl.
  - split; [eauto|done].
  - destruct s as [|d s].
    + split; [done|]. intros [r Hr]. discriminate.
    + rewrite andb_true_iff, IH. split.
      * intros [Hd [r ->]]. apply Ascii.eqb_eq in Hd as ->. eauto.
      * intros [r [= -> ->]]. rewrite Ascii.eqb_refl. eauto.
Qed.

(** Where [Index] finds the separator, the string splits around it. *)
Lemma Index_Some s sep m :
  Index s sep = Some m -> s = take m s ++ sep ++ drop (m + length sep) s.
Proof.
  revert m. induction s as [|c s IH]; intros m; simpl.
  - destruct (HasPrefix [] sep) eqn:Hp; [|done].
    intros [= <-]. apply HasPrefix_spec in Hp as [r Hr].
    destruct sep; [reflexivity|discriminate].
  - destruct (HasPrefix (c :: s) sep) eqn:Hp.
    + intros [= <-]. apply HasPrefix_spec in Hp as [r Hr]. simpl.
      rewrite Hr at 2. rewrite drop_app_length. done.
    + destruct (Index s sep) as [m'|] eqn:Hi; [|done].
      intros [= <-]. simpl. f_equal. by apply IH.
Qed.

(** A separator that starts with a byte absent from [k] is found right
    after [k]. *)
Lemma Index_after k c sep v :
  c ∉ k -> Index (k ++ c :: sep ++ v) (c :: sep) = Some (length k).
Proof.
  intros Hk. induction k as [|d k IH].
  - simpl. rewrite Ascii.eqb_refl. simpl.
    assert (HasPrefix (sep ++ v) sep = true) as ->; [|done].
    apply HasPrefix_spec. eauto.
  - cbn [app Index HasPrefix].
    destruct (Ascii.eqb_spec d c) as [->|_]; [set_solver|].
    cbn [andb]. rewrite IH by set_solver. done.
Qed.

Lemma Index_None_absent c sep s :
  c ∉ s -> Index s (c :: sep) = None.
Proof.
  intros Hs. induction s as [|d s IH]; [done|].
  cbn [Index HasPrefix].
  destruct (Ascii.eqb_spec d c) as [->|_]; [set_solver|].
  cbn [andb]. rewrite IH by set_solver. done.
Qed.

Lemma SplitN2_after k c sep v :
  c ∉ k -> SplitN2 (k ++ c :: sep ++ v) (c :: sep) = [k; v].
Proof.
  intros Hk. unfold SplitN2. rewrite Index_after by done.
  rewrite take_app_length. do 2 f_equal.
  change (c :: sep ++ v) with ((c :: sep) ++ v).
  rewrite (app_assoc k), <- length_app, drop_app_length. done.
Qed.

(** [SplitN2] yields the string itself, or its two sides around a
    separator. *)
Lemma SplitN2_cases s sep :
  SplitN2 s sep = [s] \/
  exists k v, SplitN2 s sep = [k; v] /\ s = k ++ sep ++ v.
Proof.
  unfold SplitN2. destruct (Index s sep) as [m|] eqn:Hi; [right|by left].
  eexists _, _. split; [done|]. by apply Index_Some.
Qed.

End GoFacts.

(** ** Decimal numbers and Atoi *)

Module AtoiFacts.
Import Go.

(** The decimal numeral of [n], as [fmt] and HTTP write it. *)
Definition decimal (n : nat) : bytes :=
  B (NilEmpty.string_of_uint (Nat.to_uint n)).

Lemma of_uint_acc_ge d : forall acc, acc <= Nat.of_uint_acc d acc.
Proof.
  induction d; intros acc; cbn [Nat.of_uint_acc]; [lia|..];
    rewrite Nat.tail_mul_spec;
    (etransitivity; [|apply IHd]); lia.
Qed.

Ltac eval_digit :=
  repeat match goal with
    | |- context [is_digit ?c] =>
        let v := eval vm_compute in (is_digit c) in
        change (is_digit c) with v
    | |- context [digit_val ?c] =>
        let v := eval vm_compute in (digit_val c) in
        change (digit_val c) with v
    end.

Lemma parse_digits_uint d : forall acc,
  (Z.of_nat (Nat.of_uint_acc d acc) < 2 ^ 64)%Z ->
  parse_digits (B (NilEmpty.string_of_uint d)) (Z.of_nat acc)
  = (Z.of_nat (Nat.of_uint_acc d acc), None).
Proof.
  unfold B.
  induction d; intros acc Hlt;
    cbn [NilEmpty.string_of_uint list_ascii_of_string parse_digits
         Nat.of_uint_acc] in *; [done|..];
    rewrite Nat.tail_mul_spec in *; eval_digit; cbv iota;
    match goal with
    | H : (Z.of_nat (Nat.of_uint_acc _ ?a) < _)%Z |- _ =>
        pose proof (of_uint_acc_ge d a) as Hge;
        rewrite <- (IHd a H)
    end;
    match goal with
    | |- context [(?a <=? ?b)%Z] =>
        destruct (Z.leb_spec a b); [lia|]
    end;
    f_equal; lia.
Qed.

Lemma decimal_digit n : exists c s, decimal n = c :: s /\ is_digit c = true.
Proof.
  unfold decimal.
  destruct (Nat.to_uint n) as [| d | d | d | d | d | d | d | d | d | d] eqn:Hn;
    [|unfold B; cbn [NilEmpty.string_of_uint list_ascii_of_string];
      eexists _, _; (split; [reflexivity|reflexivity])..].
  exfalso. pose proof (DecimalNat.Unsigned.of_to n) as Hof.
  rewrite Hn in Hof. cbn in Hof. subst n. discriminate.
Qed.

(** [Atoi] reads a decimal numeral back, within the range of [int]. *)
Lemma Atoi_decimal n :
  (Z.of_nat n < 2 ^ 63)%Z -> Atoi (decimal n) = (Z.of_nat n, None).
Proof.
  intros Hn.
  destruct (decimal_digit n) as (c & s & Hd & Hc).
  assert (ParseUint (decimal n) = (Z.of_nat n, None)) as HP.
  { unfold ParseUint. rewrite Hd, <- Hd. unfold decimal.
    rewrite (parse_digits_uint _ 0).
    - change (Nat.of_uint_acc ?d 0) with (Nat.of_uint d).
      by rewrite DecimalNat.Unsigned.of_to.
    - change (Nat.of_uint_acc ?d 0) with (Nat.of_uint d).
      rewrite DecimalNat.Unsigned.of_to. lia. }
  unfold Atoi. rewrite Hd.
  assert (Ascii.eqb c "-" = false) as ->.
  { destruct (Ascii.eqb_spec c "-") as [->|]; [discriminate|done]. }
  assert (Ascii.eqb c "+" = false) as ->.
  { destruct (Ascii.eqb_spec c "+") as [->|]; [discriminate|done]. }
  cbn [orb negb andb]. rewrite <- Hd, HP.
  destruct (Z.leb_spec (2 ^ 63) (Z.of_nat n)); [lia|done].
Qed.

End AtoiFacts.

(** ** The buffered reader *)

Module BufioFacts.
Import Go Bufio.

(** Between two calls the buffer holds at most [defaultBufSize] bytes; an
    error is pending only when the body handed over its last bytes together
    with [io.EOF], and then nothing is left of the body. *)
Definition Reader_ok (b : Reader) : Prop :=
  length (buf b) <= defaultBufSize /\
  (err b = None \/
   (err b = Some EOF /\ packets (rd b) = [] /\ eof_with_last (rd b) = true)).

Lemma NewReader_ok body : Reader_ok (NewReader body).
Proof. split; [simpl; lia|by left]. Qed.

Lemma content_NewReader body :
  content (NewReader body) = concat (pkt_bytes <$> packets body).
Proof. done. Qed.

Lemma pkt_bytes_nonempty p : pkt_bytes p <> [].
Proof. done. Qed.

Lemma body_Read_spec k src bs e src' :
  body_Read k src = ((bs, e), src') ->
  concat (pkt_bytes <$> packets src)
  = bs ++ concat (pkt_bytes <$> packets src') /\
  length bs <= k /\
  eof_with_last src' = eof_with_last src /\
  match e with
  | None => packets src <> [] /\ (0 < k -> bs <> [])
  | Some e' => e' = EOF /\ packets src' = [] /\
               (bs = [] -> packets src = []) /\
               (bs <> [] -> eof_with_last src = true)
  end.
Proof.
  unfold body_Read. destruct (packets src) as [|p rest] eqn:Hp.
  { intros [= <- <- <-]. rewrite Hp. split; [done|]. split; [cbn; lia|].
    done. }
  destruct (drop k (pkt_bytes p)) as [|c cs] eqn:Hd.
  - intros [= <- <- <-]. cbn [packets eof_with_last].
    assert (take k (pkt_bytes p) = pkt_bytes p) as Ht.
    { rewrite <- (take_drop k (pkt_bytes p)) at 2.
      by rewrite Hd, app_nil_r. }
    split; [by rewrite fmap_cons, Ht|].
    split; [rewrite length_take; lia|]. split; [done|].
    rewrite Ht. destruct rest as [|q rest].
    + destruct (eof_with_last src) eqn:Hf.
      * split; [done|]. split; [done|]. split; [|done].
        intros Hn. by apply pkt_bytes_nonempty in Hn.
      * split; [done|]. intros _. apply pkt_bytes_nonempty.
    + split; [done|]. intros _. apply pkt_bytes_nonempty.
  - intros [= <- <- <-]. cbn [packets eof_with_last]. split.
    { rewrite !fmap_cons. cbn [concat].
      rewrite <- (take_drop k (pkt_bytes p)) at 1. rewrite Hd.
      by rewrite <- app_assoc. }
    split; [rewrite length_take; lia|]. split; [done|]. split; [done|].
    intros Hk. destruct k; [lia|]. done.
Qed.

Lemma IndexByte_None s c : IndexByte s c = None <-> c ∉ s.
Proof.
  induction s as [|d s IH]; cbn [IndexByte].
  { split; [intros _; apply not_elem_of_nil|done]. }
  destruct (Ascii.eqb_spec d c) as [->|Hne].
  - split; [done|]. set_solver.
  - destruct (IndexByte s c); cbn [fmap option_fmap option_map].
    + split; [done|]. intros Hn. assert (c ∉ s) as Hs by set_solver.
      apply IH in Hs. discriminate.
    + split; [|done]. intros _. apply not_elem_of_cons. split; [done|].
      by apply IH.
Qed.

Lemma IndexByte_Some s c i :
  IndexByte s c = Some i ->
  exists l, take (S i) s = l ++ [c] /\ (c ∉ l).
Proof.
  revert i. induction s as [|d s IH]; intros i; cbn [IndexByte]; [done|].
  destruct (Ascii.eqb_spec d c) as [->|Hne].
  - intros [= <-]. exists []. split; [done|]. set_solver.
  - destruct (IndexByte s c) as [j|]; cbn [fmap option_fmap option_map];
      [|done].
    intros [= <-]. destruct (IH j eq_refl) as (l & Hl & Hc).
    exists (d :: l). cbn [take]. rewrite Hl. split; [done|]. set_solver.
Qed.

(** The first occurrence of a byte splits a sequence in one way only. *)
Lemma first_occurrence (d : byte) l1 r1 l2 r2 :
  d ∉ l1 -> d ∉ l2 -> l1 ++ d :: r1 = l2 ++ d :: r2 -> l1 = l2 /\ r1 = r2.
Proof.
  revert l2. induction l1 as [|c l1 IH]; intros [|c2 l2] H1 H2 Heq;
    cbn [app] in Heq.
  - by simplify_eq.
  - simplify_eq. set_solver.
  - simplify_eq. set_solver.
  - injection Heq as -> Heq. destruct (IH l2) as [-> ->]; [set_solver..|done|done].
Qed.

Lemma elem_of_long_prefix (d : byte) line x l rest :
  line ++ x = l ++ d :: rest -> length l < length line -> d ∈ line.
Proof.
  intros Heq Hlen. apply list_elem_of_lookup. exists (length l).
  rewrite <- (lookup_app_l line x) by done. rewrite Heq.
  by rewrite list_lookup_middle.
Qed.

Lemma content_fill b : content (fill b) = content b.
Proof.
  unfold fill, content.
  destruct (body_Read _ (rd b)) as [[bs e] src] eqn:Hr.
  apply body_Read_spec in Hr as [Hc _]. cbn [buf rd].
  by rewrite Hc, app_assoc.
Qed.

(** The body stays of the same kind through every read. *)
Lemma fill_eof_with_last b :
  eof_with_last (rd (fill b)) = eof_with_last (rd b).
Proof.
  unfold fill. destruct (body_Read _ (rd b)) as [[bs e] src] eqn:Hr.
  apply body_Read_spec in Hr as (_ & _ & Hf & _). done.
Qed.

Lemma ReadSlice_loop_eof_with_last d fuel : forall b r b',
  ReadSlice_loop fuel b d = Ret (r, b') ->
  eof_with_last (rd b') = eof_with_last (rd b).
Proof.
  induction fuel as [|fuel IH]; intros b r b'; [done|].
  cbn [ReadSlice_loop].
  destruct (IndexByte (buf b) d); [by intros [= <- <-]|].
  destruct (err b); [by intros [= <- <-]|].
  destruct (decide _); [by intros [= <- <-]|].
  intros Hr. apply IH in Hr. by rewrite fill_eof_with_last in Hr.
Qed.

Lemma ReadSlice_eof_with_last d b r b' :
  ReadSlice b d = Ret (r, b') ->
  eof_with_last (rd b') = eof_with_last (rd b).
Proof. apply ReadSlice_loop_eof_with_last. Qed.

Lemma Read_eof_with_last b k r b' :
  Read b k = (r, b') -> eof_with_last (rd b') = eof_with_last (rd b).
Proof.
  unfold Read, readErr. destruct (decide (k = 0)).
  { destruct (decide _); by intros [= <- <-]. }
  destruct (buf b); [|by intros [= <- <-]].
  destruct (err b); [by intros [= <- <-]|].
  destruct (decide _).
  - destruct (body_Read k (rd b)) as [[bs e] src] eqn:Hr.
    apply body_Read_spec in Hr as (_ & _ & Hf & _). by intros [= <- <-].
  - destruct (body_Read _ (rd b)) as [[bs e] src] eqn:Hr.
    apply body_Read_spec in Hr as (_ & _ & Hf & _).
    destruct bs; by intros [= <- <-].
Qed.

(** What holds of the reader at the head of each round of the loop of
    [ReadSlice]: an error is pending only at the end of the body, either
    with the last bytes (which may hold the delimiter) or after a read that
    added nothing to a buffer that was not full. *)
Definition loop_inv (d : byte) (b : Reader) : Prop :=
  length (buf b) <= defaultBufSize /\
  (err b = None \/
   (err b = Some EOF /\ packets (rd b) = [] /\
    (eof_with_last (rd b) = true \/
     ((d ∉ buf b) /\ length (buf b) < defaultBufSize)))).

Lemma Reader_ok_loop_inv d b : Reader_ok b -> loop_inv d b.
Proof.
  intros [? [?|(? & ? & ?)]]; (split; [done|]); [by left|].
  right. split; [done|]. split; [done|]. by left.
Qed.

Lemma loop_inv_fill d b :
  loop_inv d b -> err b = None -> d ∉ buf b ->
  length (buf b) < defaultBufSize ->
  loop_inv d (fill b) /\
  defaultBufSize - length (buf (fill b)) + (if err (fill b) is Some _ then 0 else 1)
  < defaultBufSize - length (buf b) + 1.
Proof.
  intros [Hlen _] Herr Hd Hfull. unfold fill, loop_inv.
  destruct (body_Read _ (rd b)) as [[bs e] src] eqn:Hr.
  apply body_Read_spec in Hr as (_ & Hk & Hf & He). cbn [buf rd err].
  rewrite length_app. destruct e as [e|].
  - destruct He as (-> & Hsrc & Hnil & Hflag).
    split; [split; [lia|right]|lia].
    split; [done|]. split; [done|].
    destruct bs as [|c bs].
    + right. rewrite app_nil_r. split; [done|]. cbn [length]. lia.
    + left. rewrite Hf. by apply Hflag.
  - destruct He as [_ Hne]. split; [split; [lia|by left]|].
    assert (bs <> []) by (apply Hne; lia).
    destruct bs; [done|]. cbn [length]. lia.
Qed.

(** What [ReadSlice] returns: a prefix of the content that fits the buffer.
    It ends at the first delimiter when there is no error; [ErrBufferFull]
    comes with a full buffer; [io.EOF] comes with all that was left of the
    body, and with a full buffer only from a body that hands over its last
    bytes together with [io.EOF]. *)
Definition ReadSlice_post (d : byte) (b : Reader) (line : bytes)
    (e : option error) (b' : Reader) : Prop :=
  content b = line ++ content b' /\ Reader_ok b' /\
  length line <= defaultBufSize /\
  match e with
  | None => exists l, line = l ++ [d] /\ (d ∉ l)
  | Some e' =>
      (d ∉ line) /\
      ((e' = ErrBufferFull /\ defaultBufSize <= length line) \/
       (e' = EOF /\ content b' = [] /\
        (length line < defaultBufSize \/ eof_with_last (rd b) = true)))
  end.

Lemma ReadSlice_loop_spec d fuel : forall b line e b',
  loop_inv d b ->
  ReadSlice_loop fuel b d = Ret ((line, e), b') ->
  ReadSlice_post d b line e b'.
Proof.
  unfold ReadSlice_post.
  induction fuel as [|fuel IH]; intros b line e b' Hinv; [done|].
  cbn [ReadSlice_loop].
  destruct (IndexByte (buf b) d) as [i|] eqn:Hi.
  - intros [= <- <- <-]. destruct Hinv as [Hlen Herr].
    split; [|split; [|split]].
    + unfold content. cbn [buf rd]. by rewrite app_assoc, take_drop.
    + split; cbn [buf err rd]; [rewrite length_drop; lia|].
      destruct Herr as [?|(? & ? & [?|[Hn _]])]; [by left|by right|].
      apply IndexByte_None in Hn. congruence.
    + rewrite length_take. lia.
    + by apply IndexByte_Some.
  - apply IndexByte_None in Hi.
    destruct (err b) as [e0|] eqn:Herr.
    + intros [= <- <- <-]. destruct Hinv as [Hlen [?|(He & Hrd & Hor)]];
        [congruence|]. simplify_eq.
      unfold content. cbn [buf rd]. rewrite Hrd.
      split; [done|]. split; [split; [cbn; lia|by left]|].
      split; [done|]. split; [done|]. right. split; [done|].
      split; [done|]. destruct Hor as [?|[_ ?]]; [by right|by left].
    + destruct (decide (defaultBufSize <= length (buf b))) as [Hfull|Hfull].
      * intros [= <- <- <-]. unfold content. cbn [buf rd].
        split; [done|]. split; [split; [cbn; lia|by left]|].
        destruct Hinv as [Hlen _]. split; [done|]. split; [done|].
        by left.
      * intros Hrec. rewrite <- content_fill.
        rewrite <- (fill_eof_with_last b).
        apply (IH (fill b)); [|done].
        apply loop_inv_fill; [done..|lia].
Qed.

(** The loop of [ReadSlice] returns within [defaultBufSize + 2] rounds. *)
Lemma ReadSlice_loop_total d fuel : forall b,
  loop_inv d b ->
  defaultBufSize - length (buf b) + (if err b is Some _ then 0 else 1) < fuel ->
  exists r, ReadSlice_loop fuel b d = Ret r.
Proof.
  induction fuel as [|fuel IH]; intros b Hinv Hfuel; [lia|].
  cbn [ReadSlice_loop].
  destruct (IndexByte (buf b) d) as [i|] eqn:Hi; [eauto|].
  apply IndexByte_None in Hi.
  destruct (err b) as [e0|] eqn:Herr; [eauto|].
  destruct (decide (defaultBufSize <= length (buf b))) as [Hfull|Hfull];
    [eauto|].
  destruct (loop_inv_fill d b) as [Hinv' Hm]; [done..|lia|].
  apply IH; [done|lia].
Qed.

Lemma ReadSlice_spec d b :
  Reader_ok b ->
  exists line e b',
    ReadSlice b d = Ret ((line, e), b') /\ ReadSlice_post d b line e b'.
Proof.
  intros Hok. unfold ReadSlice.
  destruct (ReadSlice_loop_total d (defaultBufSize + 2) b)
    as [[[line e] b'] Hr].
  - by apply Reader_ok_loop_inv.
  - destruct (err b); lia.
  - exists line, e, b'. split; [done|].
    eapply ReadSlice_loop_spec; [|done]. by apply Reader_ok_loop_inv.
Qed.

(** A line that fits the buffer is read whole, whatever the packets and
    whenever the body reports its end. *)
Lemma ReadSlice_line d b l rest :
  Reader_ok b -> content b = l ++ d :: rest -> d ∉ l ->
  length l < defaultBufSize ->
  exists b', ReadSlice b d = Ret ((l ++ [d], None), b') /\
             content b' = rest /\ Reader_ok b'.
Proof.
  intros Hok Hc Hl Hlen.
  destruct (ReadSlice_spec d b Hok)
    as (line & e & b' & Hr & Hc' & Hok' & _ & He).
  rewrite Hc in Hc'. destruct e as [e|].
  - exfalso. destruct He as [Hn [[_ He]|(_ & He & _)]]; apply Hn.
    + eapply elem_of_long_prefix; [done|lia].
    + rewrite He, app_nil_r in Hc'. rewrite <- Hc'. set_solver.
  - destruct He as (l' & -> & Hl'). rewrite <- app_assoc in Hc'.
    cbn [app] in Hc'. apply first_occurrence in Hc' as [-> ->]; [|done..].
    eauto.
Qed.

(** What [Read] returns for a request of [k > 0] bytes: a prefix of the
    content, not empty when there is no error. The error [io.EOF] comes
    with the end of the body, and with bytes only when the body hands over
    its last bytes together with it and the read goes past the buffer,
    which is for a request of [defaultBufSize] bytes or more. *)
Lemma Read_spec b k bs e b' :
  Reader_ok b -> 0 < k -> Read b k = ((bs, e), b') ->
  content b = bs ++ content b' /\ Reader_ok b' /\ length bs <= k /\
  match e with
  | None => bs <> []
  | Some e' => e' = EOF /\ content b' = [] /\
               (bs <> [] ->
                eof_with_last (rd b) = true /\ defaultBufSize <= k)
  end.
Proof.
  intros [Hlen Herr] Hk. unfold Read.
  destruct (decide (k = 0)); [lia|].
  destruct (buf b) as [|c cs] eqn:Hbuf.
  - unfold content. rewrite Hbuf.
    destruct Herr as [Herr|(Herr & Hrd & Hflag)]; rewrite Herr.
    2:{ intros [= <- <- <-]. cbn [buf rd app]. rewrite Hrd.
        split; [done|]. split; [split; [cbn; lia|by left]|].
        split; [cbn; lia|]. done. }
    destruct (decide (defaultBufSize <= k)).
    + destruct (body_Read k (rd b)) as [[bs1 e1] src] eqn:Hr.
      intros [= <- <- <-]. apply body_Read_spec in Hr as (Hc & Hb & Hf & He).
      cbn [buf rd app]. split; [done|].
      split; [split; [cbn; lia|by left]|].
      split; [done|]. destruct e1.
      * destruct He as (-> & -> & _ & He). split; [done|]. split; [done|].
        intros Hbs. split; [by apply He|done].
      * destruct He as [_ He]. by apply He.
    + destruct (body_Read defaultBufSize (rd b)) as [[bs1 e1] src] eqn:Hr.
      apply body_Read_spec in Hr as (Hc & Hb & Hf & He).
      destruct bs1 as [|c1 bs1].
      * intros [= <- <- <-]. cbn [buf rd app]. split; [done|].
        split; [split; [cbn; lia|by left]|]. split; [cbn; lia|].
        destruct e1.
        -- destruct He as (-> & -> & _). done.
        -- destruct He as [_ He]. exfalso. apply He; [|done].
           unfold defaultBufSize. lia.
      * intros [= <- <- <-]. cbn [buf rd app].
        split; [by rewrite Hc, app_assoc, take_drop|].
        split.
        { split; [cbn [buf]; rewrite length_drop; lia|]. cbn [err rd].
          destruct e1; [|by left]. destruct He as (-> & ? & _ & He).
          right. split; [done|]. split; [done|]. rewrite Hf. by apply He. }
        split; [rewrite length_take; lia|]. destruct k; [lia|done].
  - intros [= <- <- <-]. unfold content. cbn [buf rd]. rewrite Hbuf.
    split; [by rewrite app_assoc, take_drop|].
    split; [split; [cbn [buf]; rewrite length_drop; lia|done]|].
    split; [rewrite length_take; lia|]. destruct k; [lia|done].
Qed.

End BufioFacts.

(** ** Reading the body of a chunk *)

Module DataFacts.
Import Go Bufio Parser BufioFacts.

Lemma store_fill acc bs n :
  length bs <= n ->
  store (acc ++ replicate n Ascii.zero) (length acc) bs
  = (acc ++ bs) ++ replicate (n - length bs) Ascii.zero.
Proof.
  intros Hn. unfold store.
  rewrite take_app_length, drop_app_add, drop_replicate.
  by rewrite <- app_assoc.
Qed.

Lemma prefix_split (bs x todo rest : bytes) :
  bs ++ x = todo ++ rest -> length bs <= length todo ->
  exists todo', todo = bs ++ todo' /\ x = todo' ++ rest.
Proof.
  revert todo. induction bs as [|c bs IH]; intros todo Heq Hlen.
  - exists todo. done.
  - destruct todo as [|d todo]; [cbn in Hlen; lia|].
    cbn [app] in Heq. injection Heq as -> Heq.
    destruct (IH todo Heq) as (todo' & -> & ->); [cbn in Hlen; lia|].
    by exists todo'.
Qed.

(** With the bytes [todo] of the body still to come, the loop reads
    exactly them, in as many reads as the packets need, unless they are
    [defaultBufSize] bytes or more at the end of a body that hands over its
    last bytes together with [io.EOF]. *)
Lemma readChunkData_loop_spec fuel : forall b acc todo rest,
  Reader_ok b -> content b = todo ++ rest -> length todo <= fuel ->
  length todo < defaultBufSize \/ rest <> [] \/
  eof_with_last (rd b) = false ->
  exists b',
    readChunkData_loop fuel b (Z.of_nat (length acc + length todo))
      (acc ++ replicate (length todo) Ascii.zero) (Z.of_nat (length acc))
    = Ret ((acc ++ todo, None), b') /\
    content b' = rest /\ Reader_ok b'.
Proof.
  induction fuel as [|fuel IH]; intros b acc todo rest Hok Hc Hfuel Hend.
  - destruct todo; [|cbn in Hfuel; lia]. cbn [readChunkData_loop].
    destruct (Z.ltb_spec (Z.of_nat (length acc))
                (Z.of_nat (length acc + length (@nil ascii))));
      [cbn [length] in *; lia|].
    exists b. cbn [length replicate]. by rewrite app_nil_r.
  - cbn [readChunkData_loop].
    destruct (Z.ltb_spec (Z.of_nat (length acc))
                (Z.of_nat (length acc + length todo))) as [Hlt|Hge].
    + replace (Z.to_nat (Z.of_nat (length acc + length todo)
                         - Z.of_nat (length acc))) with (length todo) by lia.
      destruct (Read b (length todo)) as [[bs e] b1] eqn:Hr.
      pose proof (Read_eof_with_last _ _ _ _ Hr) as Hf.
      apply Read_spec in Hr as (Hc1 & Hok1 & Hlen & He); [|done|lia].
      rewrite Nat2Z.id.
      rewrite Hc in Hc1. symmetry in Hc1.
      apply prefix_split in Hc1 as (todo' & -> & Hc1); [|done].
      destruct e as [e|].
      { exfalso. destruct He as (_ & He & Hflag). rewrite He in Hc1.
        symmetry in Hc1. apply app_eq_nil in Hc1 as [-> ->].
        rewrite app_nil_r in *.
        destruct Hflag as [Hflag Hbig].
        { intros ->. cbn [length] in Hlt. lia. }
        destruct Hend as [?|[?|Hfalse]]; [lia|done|congruence]. }
      rewrite store_fill by done.
      rewrite length_app in *.
      replace (length bs + length todo' - length bs) with (length todo')
        by lia.
      destruct (IH b1 (acc ++ bs) todo' rest) as (b' & Hrun & Hc' & Hok');
        [done|done|destruct bs; [done|cbn [length] in Hfuel; lia]| |].
      { rewrite Hf.
        destruct Hend as [?|[?|?]]; [left; lia|by right; left|by right; right]. }
      exists b'. split; [|done].
      rewrite (app_assoc acc bs todo'), <- Hrun, length_app.
      f_equal; lia.
    + destruct todo; [|cbn [length] in Hge; lia].
      exists b. cbn [length replicate]. by rewrite app_nil_r.
Qed.

(** [readChunkData] returns the next [size] bytes when they are there,
    [make] accepts the size, and the bytes are not [defaultBufSize] bytes
    or more at the end of a body that hands over its last bytes together
    with [io.EOF]. *)
Lemma readChunkData_body b body rest :
  Reader_ok b -> content b = body ++ rest ->
  (Z.of_nat (length body) <= maxAlloc)%Z ->
  length body < defaultBufSize \/ rest <> [] \/
  eof_with_last (rd b) = false ->
  exists b',
    readChunkData b (Z.of_nat (length body)) = Ret ((body, None), b') /\
    content b' = rest /\ Reader_ok b'.
Proof.
  intros Hok Hc Hmax Hend. unfold readChunkData, make_bytes.
  destruct (Z.ltb_spec (Z.of_nat (length body)) 0); [lia|].
  destruct (Z.ltb_spec maxAlloc (Z.of_nat (length body))); [lia|].
  cbn [orb mbind outcome_bind]. rewrite Nat2Z.id.
  destruct (readChunkData_loop_spec (length body) b [] body rest)
    as (b' & Hrun & Hc' & Hok'); [done..|].
  exists b'. done.
Qed.

(** The loop of [readChunkData] returns within [size - pos] rounds, and
    leaves no more to read than there was. *)
Lemma readChunkData_loop_total fuel : forall b size buf pos,
  Reader_ok b -> Z.to_nat (size - pos) <= fuel ->
  exists data e b',
    readChunkData_loop fuel b size buf pos = Ret ((data, e), b') /\
    Reader_ok b' /\ length (content b') <= length (content b).
Proof.
  induction fuel as [|fuel IH]; intros b size buf pos Hok Hfuel;
    cbn [readChunkData_loop];
    destruct (Z.ltb_spec pos size) as [Hlt|Hge]; try lia;
    try (by exists buf, None, b).
  destruct (Read b (Z.to_nat (size - pos))) as [[bs e] b1] eqn:Hr.
  apply Read_spec in Hr as (Hc1 & Hok1 & Hlen & He); [|done|lia].
  assert (length (content b1) <= length (content b)) as Hle.
  { rewrite Hc1, length_app. lia. }
  destruct e as [e|]; [by eexists _, _, b1|].
  destruct (IH b1 size (store buf (Z.to_nat pos) bs)
              (pos + Z.of_nat (length bs))%Z)
    as (data & e & b' & Hrun & Hok' & Hle'); [done| |].
  - destruct bs; [done|]. cbn [length]. lia.
  - exists data, e, b'. split; [done|]. split; [done|lia].
Qed.

Lemma readChunkData_loop_eof_with_last fuel : forall b size buf pos r b',
  readChunkData_loop fuel b size buf pos = Ret (r, b') ->
  eof_with_last (rd b') = eof_with_last (rd b).
Proof.
  induction fuel as [|fuel IH]; intros b size buf pos r b';
    cbn [readChunkData_loop]; destruct (pos <? size)%Z;
    try done; try (by intros [= <- <-]).
  destruct (Read b (Z.to_nat (size - pos))) as [[bs e] b1] eqn:Hr.
  apply Read_eof_with_last in Hr.
  destruct e; [by intros [= <- <-]|]. intros H%IH. congruence.
Qed.

Lemma readChunkData_eof_with_last b size r b' :
  readChunkData b size = Ret (r, b') ->
  eof_with_last (rd b') = eof_with_last (rd b).
Proof.
  unfold readChunkData. destruct (make_bytes size); cbn [mbind outcome_bind];
    [|done..].
  apply readChunkData_loop_eof_with_last.
Qed.

Lemma readChunkData_total b size :
  Reader_ok b ->
  match readChunkData b size with
  | Ret ((_, _), b') =>
      (0 <= size)%Z /\ Reader_ok b' /\
      length (content b') <= length (content b)
  | Panic p =>
      ((size < 0)%Z \/ (maxAlloc < size)%Z) /\ p = MakeSliceLenOutOfRange
  | OutOfFuel => False
  end.
Proof.
  intros Hok. unfold readChunkData, make_bytes.
  destruct (Z.ltb_spec size 0) as [Hneg|Hpos];
    cbn [orb mbind outcome_bind]; [by split; [left|]|].
  destruct (Z.ltb_spec maxAlloc size) as [Hbig|Hfit];
    cbn [mbind outcome_bind]; [by split; [right|]|].
  destruct (readChunkData_loop_total (Z.to_nat size) b size
              (replicate (Z.to_nat size) Ascii.zero) 0%Z)
    as (data & e & b' & -> & Hok' & Hle); [done|lia|done].
Qed.

End DataFacts.

(** ** Reading the head of a chunk *)

Module HeaderFacts.
Import Go Bufio Parser GoFacts AtoiFacts BufioFacts.

(** *** The upstream wire format, in the words of the specification *)

(** The key of a header field is Content-Length, whatever its case. *)
Definition is_content_length (k : bytes) : Prop :=
  eq_fold k (B "Content-Length").

(** A header line whose key is Content-Length: the key alone or the key,
    ": " and a value. *)
Definition content_length_field (t : bytes) : Prop :=
  is_content_length t \/
  exists k v, t = k ++ B ": " ++ v /\ is_content_length k.

(** The text of a header line, before its CR LF: not empty, on one line,
    and short enough for the reader's buffer. *)
Definition header_text (t : bytes) : Prop :=
  t <> [] /\ (LF ∉ t) /\ last t <> Some CR /\
  length t + 2 <= defaultBufSize.

(** The text of a boundary line: anything on one line. *)
Definition boundary_text (t : bytes) : Prop :=
  (LF ∉ t) /\ length t + 2 <= defaultBufSize.

Definition line (t : bytes) : bytes := t ++ CRLF.

Definition lines (ts : list bytes) : bytes := concat (line <$> ts).

(** A header line that is not about Content-Length. *)
Definition other_header (t : bytes) : Prop :=
  header_text t /\ ~ content_length_field t.

(** *** One header line *)

Lemma header_line_other t size :
  ~ content_length_field t -> header_line t size = Ret (size, None).
Proof.
  intros Hn. unfold header_line.
  destruct (SplitN2_cases t (B ": ")) as [->|(k & v & -> & Ht)];
    cbn [index lookup list_lookup mbind outcome_bind].
  - destruct (EqualFold t (B "Content-Length")) eqn:He; [|done].
    exfalso. apply Hn. left. by apply EqualFold_spec.
  - destruct (EqualFold k (B "Content-Length")) eqn:He; [|done].
    exfalso. apply Hn. right. exists k, v. split; [done|].
    by apply EqualFold_spec.
Qed.

Lemma header_line_content_length k n size :
  is_content_length k -> (Z.of_nat n < 2 ^ 63)%Z ->
  header_line (k ++ B ": " ++ decimal n) size = Ret (Z.of_nat n, None).
Proof.
  intros Hk Hn. unfold header_line.
  change (B ": ") with (":"%char :: [" "%char]).
  change ((":"%char :: [" "%char]) ++ decimal n)
    with (":"%char :: [" "%char] ++ decimal n).
  rewrite SplitN2_after by by apply content_length_no_colon.
  cbn [index lookup list_lookup mbind outcome_bind].
  apply EqualFold_spec in Hk as ->. by rewrite Atoi_decimal.
Qed.

(** The only header line that makes [header_line] panic is the bare key. *)
Lemma header_line_panic t size :
  (exists p, header_line t size = Panic p) <->
  is_content_length t /\ ~ (exists k v, t = k ++ B ": " ++ v).
Proof.
  unfold header_line. split.
  - intros [p Hp].
    destruct (SplitN2_cases t (B ": ")) as [Hs|(k & v & Hs & Ht)];
      rewrite Hs in Hp; cbn [index lookup list_lookup mbind outcome_bind] in Hp.
    + destruct (EqualFold t (B "Content-Length")) eqn:He; [|done].
      apply EqualFold_spec in He. split; [done|].
      intros (k & v & ->). apply content_length_no_colon in He.
      apply He. change (B ": ") with [":"%char; " "%char]. set_solver.
    + destruct (EqualFold k (B "Content-Length")); [|done].
      by destruct (Atoi v) as [n [e|]].
  - intros [Hk Hn]. exists (IndexOutOfRange 1 1).
    destruct (SplitN2_cases t (B ": ")) as [->|(k & v & _ & Ht)].
    + cbn [index lookup list_lookup mbind outcome_bind].
      apply EqualFold_spec in Hk as ->. done.
    + exfalso. apply Hn. eauto.
Qed.

Lemma header_line_returns t size : header_line t size <> OutOfFuel.
Proof.
  unfold header_line, index.
  destruct (SplitN2 t (B ": ") !! 0) as [k|]; cbn [mbind outcome_bind];
    [|done].
  destruct (EqualFold k (B "Content-Length")); [|done].
  destruct (SplitN2 t (B ": ") !! 1) as [v|]; cbn [mbind outcome_bind];
    [|done].
  by destruct (Atoi v) as [? [?|]].
Qed.

(** *** The header loop *)

Lemma line_split t rest :
  line t ++ rest = (t ++ [CR]) ++ LF :: rest.
Proof. unfold line, CRLF. by rewrite <- !app_assoc. Qed.

Lemma line_length t : length (line t) = length t + 2.
Proof. unfold line. rewrite length_app. done. Qed.

Lemma ReadSlice_text b t rest :
  Reader_ok b -> content b = line t ++ rest -> (LF ∉ t) ->
  length t + 2 <= defaultBufSize ->
  exists b', ReadSlice b LF = Ret ((line t, None), b') /\
             content b' = rest /\ Reader_ok b'.
Proof.
  intros Hok Hc Ht Hlen. rewrite line_split in Hc.
  destruct (ReadSlice_line LF b (t ++ [CR]) rest) as (b' & Hr & Hc' & Hok');
    [done|done| |rewrite length_app; cbn [length]; lia|].
  - intros [?|Hin%list_elem_of_singleton]%elem_of_app; done.
  - exists b'. rewrite Hr. unfold line, CRLF. by rewrite <- app_assoc.
Qed.

(** One round of the header loop on a header line. *)
Lemma header_loop_step fuel b t rest head size size' :
  Reader_ok b -> content b = line t ++ rest -> header_text t ->
  header_line t size = Ret (size', None) ->
  length (content b) < S fuel ->
  exists b',
    readChunkHeader_loop (S fuel) b head size
    = readChunkHeader_loop fuel b' (head ++ line t) size' /\
    content b' = rest /\ Reader_ok b' /\ length (content b') < fuel.
Proof.
  intros Hok Hc (Hne & HLF & HCR & Hlen) Hline Hfuel.
  destruct (ReadSlice_text b t rest) as (b' & Hr & Hc' & Hok'); [done..|].
  exists b'. cbn [readChunkHeader_loop]. rewrite Hr.
  cbn [mbind outcome_bind].
  pose proof (TrimRight_line t HLF HCR) as Htrim.
  change (t ++ CRLF) with (line t) in Htrim. rewrite Htrim.
  destruct (decide (length t = 0)) as [H0|_].
  { destruct t; [done|discriminate]. }
  rewrite Hline. cbn [mbind outcome_bind].
  split; [done|]. split; [done|]. split; [done|].
  rewrite Hc'. rewrite Hc, length_app, line_length in Hfuel. lia.
Qed.

(** The round of the header loop on the blank line. *)
Lemma header_loop_blank fuel b rest head size :
  Reader_ok b -> content b = CRLF ++ rest ->
  exists b',
    readChunkHeader_loop (S fuel) b head size
    = Ret ((head ++ CRLF, size,
            if (size =? -1)%Z then Some ErrNoContentLength else None), b') /\
    content b' = rest /\ Reader_ok b'.
Proof.
  intros Hok Hc.
  destruct (ReadSlice_text b [] rest) as (b' & Hr & Hc' & Hok');
    [done|done|apply not_elem_of_nil|unfold defaultBufSize; cbn; lia|].
  exists b'. cbn [readChunkHeader_loop]. rewrite Hr.
  cbn [mbind outcome_bind]. change (line []) with CRLF.
  change (TrimRight CRLF CRLF) with (@nil ascii). cbn [length].
  destruct (decide (0 = 0)); [|done].
  by destruct (size =? -1)%Z.
Qed.

(** The rounds of the header loop on header lines that are not about
    Content-Length: they are added to the head, the size stays. *)
Lemma header_loop_others ts : forall fuel b rest head size,
  Forall other_header ts ->
  Reader_ok b -> content b = lines ts ++ rest ->
  length (content b) < fuel ->
  exists b' fuel',
    readChunkHeader_loop fuel b head size
    = readChunkHeader_loop fuel' b' (head ++ lines ts) size /\
    content b' = rest /\ Reader_ok b' /\ length (content b') < fuel'.
Proof.
  induction ts as [|t ts IH]; intros fuel b rest head size Hts Hok Hc Hfuel.
  - exists b, fuel. unfold lines. cbn. by rewrite app_nil_r.
  - apply Forall_cons in Hts as [[Ht Hn] Hts].
    destruct fuel as [|fuel]; [lia|].
    unfold lines in Hc. rewrite fmap_cons in Hc. cbn [concat] in Hc.
    rewrite <- app_assoc in Hc.
    destruct (header_loop_step fuel b t (lines ts ++ rest) head size size)
      as (b1 & Hrun & Hc1 & Hok1 & Hfuel1);
      [done|done|done|by apply header_line_other|done|].
    destruct (IH fuel b1 rest (head ++ line t) size)
      as (b' & fuel' & Hrun' & Hc' & Hok' & Hfuel'); [done..|].
    exists b', fuel'. rewrite Hrun, Hrun'.
    unfold lines. rewrite fmap_cons. cbn [concat].
    by rewrite <- !app_assoc.
Qed.

(** *** readChunkHeader on a head without Content-Length *)

(** A head as the wire format has it, with no Content-Length among its
    header lines. *)
Definition head_without_length (boundary : bytes) (ts : list bytes) : bytes :=
  line boundary ++ lines ts ++ CRLF.

Lemma readChunkHeader_without_length b boundary ts rest :
  Reader_ok b -> boundary_text boundary -> Forall other_header ts ->
  content b = head_without_length boundary ts ++ rest ->
  exists b',
    readChunkHeader b
    = Ret ((head_without_length boundary ts, (-1)%Z,
            Some ErrNoContentLength), b') /\
    content b' = rest /\ Reader_ok b'.
Proof.
  intros Hok [HLF Hlen] Hts Hc. unfold head_without_length in *.
  rewrite <- !app_assoc in Hc.
  destruct (ReadSlice_text b boundary (lines ts ++ CRLF ++ rest))
    as (b1 & Hr & Hc1 & Hok1); [done..|].
  unfold readChunkHeader. rewrite Hr. cbn [mbind outcome_bind app].
  destruct (header_loop_others ts (S (length (content b1))) b1
              (CRLF ++ rest) (line boundary) (-1)%Z)
    as (b2 & fuel2 & Hrun & Hc2 & Hok2 & Hfuel2); [done|done|done|lia|].
  rewrite Hrun. destruct fuel2 as [|fuel2]; [lia|].
  destruct (header_loop_blank fuel2 b2 rest (line boundary ++ lines ts)
              (-1)%Z) as (b' & Hrun' & Hc' & Hok'); [done..|].
  exists b'. rewrite Hrun'. by rewrite <- !app_assoc.
Qed.

(** *** readChunkHeader on a well-formed chunk *)

(** A chunk of the upstream wire format: a boundary line, header lines
    among which exactly one gives the Content-Length, in decimal and equal
    to the length of the payload, a blank line, and the payload. It is
    well formed when its lines fit the reader's buffer and its payload is
    no longer than [make] accepts. *)
Record chunk : Type := mkChunk {
  boundary : bytes;
  before : list bytes;   (* the header lines before Content-Length *)
  key : bytes;           (* how the chunk spells Content-Length *)
  after : list bytes;    (* the header lines after it *)
  payload : bytes
}.

Definition length_field (c : chunk) : bytes :=
  key c ++ B ": " ++ decimal (length (payload c)).

Definition chunk_head (c : chunk) : bytes :=
  line (boundary c) ++ lines (before c) ++ line (length_field c) ++
  lines (after c) ++ CRLF.

Definition chunk_bytes (c : chunk) : bytes := chunk_head c ++ payload c.

Definition well_formed (c : chunk) : Prop :=
  boundary_text (boundary c) /\
  Forall other_header (before c) /\
  is_content_length (key c) /\
  length (length_field c) + 2 <= defaultBufSize /\
  Forall other_header (after c) /\
  (Z.of_nat (length (payload c)) <= maxAlloc)%Z.

Lemma decimal_digits n : Forall (fun c => is_digit c = true) (decimal n).
Proof.
  unfold decimal, B. induction (Nat.to_uint n);
    cbn [NilEmpty.string_of_uint list_ascii_of_string];
    [constructor|constructor; [reflexivity|done]..].
Qed.

Lemma length_field_text c :
  is_content_length (key c) ->
  length (length_field c) + 2 <= defaultBufSize ->
  header_text (length_field c).
Proof.
  intros Hk Hlen. unfold length_field in *.
  pose proof (decimal_digits (length (payload c))) as Hd.
  destruct (decimal_digit (length (payload c))) as (d & s & Hds & _).
  split; [|split; [|split]]; [| | |done].
  - destruct (key c); done.
  - intros [Hin|[Hin|Hin]%elem_of_app]%elem_of_app.
    + by apply content_length_no_LF in Hin.
    + change (B ": ") with [":"%char; " "%char] in Hin. set_solver.
    + rewrite Forall_forall in Hd. by apply Hd in Hin.
  - rewrite !app_assoc, last_app.
    destruct (last (decimal (length (payload c)))) as [x|] eqn:Hl.
    + intros [= ->]. apply last_Some_elem_of in Hl.
      rewrite Forall_forall in Hd. by apply Hd in Hl.
    + apply last_None in Hl. congruence.
Qed.

Lemma readChunkHeader_chunk b c rest :
  Reader_ok b -> well_formed c ->
  content b = chunk_head c ++ rest ->
  exists b',
    readChunkHeader b
    = Ret ((chunk_head c, Z.of_nat (length (payload c)), None), b') /\
    content b' = rest /\ Reader_ok b'.
Proof.
  intros Hok (Hb & Hbefore & Hkey & Hlen & Hafter & Hsize) Hc.
  unfold chunk_head in *. rewrite <- !app_assoc in Hc.
  destruct Hb as [HLF Hblen].
  destruct (ReadSlice_text b (boundary c) _ Hok Hc)
    as (b1 & Hr & Hc1 & Hok1); [done..|].
  unfold readChunkHeader. rewrite Hr. cbn [mbind outcome_bind app].
  destruct (header_loop_others (before c) (S (length (content b1))) b1
              _ (line (boundary c)) (-1)%Z Hbefore Hok1 Hc1)
    as (b2 & fuel2 & -> & Hc2 & Hok2 & Hfuel2); [lia|].
  destruct fuel2 as [|fuel2]; [lia|].
  destruct (header_loop_step fuel2 b2 (length_field c) _
              (line (boundary c) ++ lines (before c)) (-1)%Z
              (Z.of_nat (length (payload c))) Hok2 Hc2)
    as (b3 & -> & Hc3 & Hok3 & Hfuel3);
    [by apply length_field_text
    |apply header_line_content_length; [done|unfold maxAlloc in Hsize; lia]
    |done|].
  destruct (header_loop_others (after c) fuel2 b3 _
              ((line (boundary c) ++ lines (before c)) ++ line (length_field c))
              (Z.of_nat (length (payload c))) Hafter Hok3 Hc3)
    as (b4 & fuel4 & -> & Hc4 & Hok4 & Hfuel4); [done|].
  destruct fuel4 as [|fuel4]; [lia|].
  destruct (header_loop_blank fuel4 b4 rest
              (((line (boundary c) ++ lines (before c))
                ++ line (length_field c)) ++ lines (after c))
              (Z.of_nat (length (payload c))) Hok4 Hc4)
    as (b' & -> & Hc' & Hok').
  exists b'. destruct (Z.eqb_spec (Z.of_nat (length (payload c))) (-1));
    [lia|]. by rewrite <- !app_assoc.
Qed.

(** *** readChunkHeader in general *)

Lemma readChunkHeader_loop_eof_with_last fuel : forall b head size r b',
  readChunkHeader_loop fuel b head size = Ret (r, b') ->
  eof_with_last (rd b') = eof_with_last (rd b).
Proof.
  induction fuel as [|fuel IH]; intros b head size r b'; [done|].
  cbn [readChunkHeader_loop].
  destruct (ReadSlice b LF) as [[[l e] b1]| |] eqn:Hr;
    cbn [mbind outcome_bind]; [|done..].
  apply ReadSlice_eof_with_last in Hr.
  destruct e; [by intros [= <- <-]|].
  destruct (decide _). { destruct (size =? -1)%Z; by intros [= <- <-]. }
  destruct (header_line _ _) as [[size' [e|]]| |]; cbn [mbind outcome_bind];
    [by intros [= <- <-]| |done..].
  intros H%IH. congruence.
Qed.

Lemma readChunkHeader_eof_with_last b r b' :
  readChunkHeader b = Ret (r, b') ->
  eof_with_last (rd b') = eof_with_last (rd b).
Proof.
  unfold readChunkHeader.
  destruct (ReadSlice b LF) as [[[l e] b1]| |] eqn:Hr;
    cbn [mbind outcome_bind]; [|done..].
  apply ReadSlice_eof_with_last in Hr.
  destruct e; [by intros [= <- <-]|].
  intros H%readChunkHeader_loop_eof_with_last. congruence.
Qed.

(** The header loop returns or panics within one round per byte left to
    read, and what it reads it takes from the content. *)
Lemma readChunkHeader_loop_total fuel : forall b head size,
  Reader_ok b -> length (content b) < fuel ->
  match readChunkHeader_loop fuel b head size with
  | Ret ((_, _, e), b') =>
      Reader_ok b' /\ length (content b') <= length (content b)
  | Panic _ => True
  | OutOfFuel => False
  end.
Proof.
  induction fuel as [|fuel IH]; intros b head size Hok Hfuel; [lia|].
  cbn [readChunkHeader_loop].
  destruct (ReadSlice_spec LF b Hok)
    as (l & e & b1 & -> & Hc & Hok1 & _ & He).
  cbn [mbind outcome_bind].
  assert (length (content b1) <= length (content b)) as Hle.
  { rewrite Hc, length_app. lia. }
  destruct e as [e|]; [done|].
  destruct (decide (length (TrimRight l CRLF) = 0)).
  { by destruct (size =? -1)%Z. }
  destruct (header_line (TrimRight l CRLF) size) as [[size' [e|]]| |] eqn:Hl;
    cbn [mbind outcome_bind]; [done| |done|].
  - destruct He as (l' & -> & _).
    assert (length (content b1) < length (content b)) as Hlt.
    { rewrite Hc, !length_app. cbn [length]. lia. }
    specialize (IH b1 (head ++ l' ++ [LF]) size' Hok1).
    destruct (readChunkHeader_loop fuel b1 (head ++ l' ++ [LF]) size')
      as [[[[h s] e] b2]| |]; [|done|apply IH; lia].
    destruct IH as [? ?]; [lia|]. split; [done|lia].
  - by apply header_line_returns in Hl.
Qed.

(** [readChunkHeader] returns or panics, and when it returns without an
    error it has consumed at least the boundary line. *)
Lemma readChunkHeader_total b :
  Reader_ok b ->
  match readChunkHeader b with
  | Ret ((_, _, e), b') =>
      Reader_ok b' /\ length (content b') <= length (content b) /\
      (e = None -> length (content b') < length (content b))
  | Panic _ => True
  | OutOfFuel => False
  end.
Proof.
  intros Hok. unfold readChunkHeader.
  destruct (ReadSlice_spec LF b Hok)
    as (l & e & b1 & -> & Hc & Hok1 & _ & He).
  cbn [mbind outcome_bind].
  assert (length (content b1) <= length (content b)) as Hle.
  { rewrite Hc, length_app. lia. }
  destruct e as [e|]; [done|].
  destruct He as (l' & -> & _).
  assert (length (content b1) < length (content b)) as Hlt.
  { rewrite Hc, !length_app. cbn [length]. lia. }
  pose proof (readChunkHeader_loop_total (S (length (content b1))) b1
                ([] ++ l' ++ [LF]) (-1)%Z Hok1) as Ht.
  destruct (readChunkHeader_loop _ b1 _ _) as [[[[h s] e] b2]| |];
    [|done|apply Ht; lia].
  destruct Ht as [? ?]; [lia|]. split; [done|]. split; lia.
Qed.

(** *** Lines as the reader takes them *)

(** [ReadSlice] ends a line at LF alone, and [TrimRight] removes every CR
    and LF at the end of it: a line is a text followed by any number of CR
    and one LF. CR LF is the ending of the wire format; a bare LF, or more
    than one CR, is taken as well. *)
Definition eol (n : nat) : bytes := replicate n CR ++ [LF].

(** The line with the text [h.1] and [h.2] times CR in its ending. *)
Definition ended_line (h : bytes * nat) : bytes := h.1 ++ eol h.2.

(** A header line, with whatever ending, that is not about
    Content-Length. Its text is not empty (the line would be the blank
    line) and does not end in CR (that CR belongs to the ending); the line
    fits the reader's buffer. *)
Definition plain_header (h : bytes * nat) : Prop :=
  h.1 <> [] /\ (LF ∉ h.1) /\ last h.1 <> Some CR /\
  length (ended_line h) <= defaultBufSize /\
  ~ content_length_field h.1.

(** A head that reaches its blank line with no Content-Length among its
    header lines: the boundary line, which is whatever comes before the
    first LF, the header lines, and a blank line, which is an ending
    alone. *)
Definition head_with_endings (boundary : bytes) (hs : list (bytes * nat))
    (blank : nat) : bytes :=
  (boundary ++ [LF]) ++ concat (ended_line <$> hs) ++ eol blank.

Lemma TrimRight_text t :
  LF ∉ t -> last t <> Some CR -> TrimRight t CRLF = t.
Proof.
  intros HLF HCR. rewrite <- (TrimRight_line t HLF HCR) at 2.
  by rewrite TrimRight_CRLF.
Qed.

Lemma TrimRight_eol t n :
  TrimRight (t ++ eol n) CRLF = TrimRight t CRLF.
Proof.
  unfold eol. rewrite app_assoc, TrimRight_snoc_cut by done.
  induction n as [|n IH]; [by rewrite app_nil_r|].
  rewrite replicate_S_end, app_assoc, TrimRight_snoc_cut by done. done.
Qed.

Lemma eol_length n : length (eol n) = S n.
Proof. unfold eol. rewrite length_app, length_replicate. cbn. lia. Qed.

Lemma ReadSlice_ended b t n rest :
  Reader_ok b -> content b = (t ++ eol n) ++ rest -> (LF ∉ t) ->
  length (t ++ eol n) <= defaultBufSize ->
  exists b', ReadSlice b LF = Ret ((t ++ eol n, None), b') /\
             content b' = rest /\ Reader_ok b'.
Proof.
  intros Hok Hc Ht Hlen. unfold eol in *.
  rewrite !length_app, length_replicate in Hlen. cbn [length] in Hlen.
  rewrite (app_assoc t), <- (app_assoc _ [LF]) in Hc. cbn [app] in Hc.
  destruct (ReadSlice_line LF b (t ++ replicate n CR) rest)
    as (b' & Hr & Hc' & Hok'); [done|done| |rewrite length_app, length_replicate; lia|].
  - intros [?|[Heq _]%elem_of_replicate]%elem_of_app; done.
  - exists b'. by rewrite app_assoc.
Qed.

(** One round of the header loop on such a header line. *)
Lemma header_loop_plain fuel b h rest head size :
  Reader_ok b -> content b = ended_line h ++ rest -> plain_header h ->
  length (content b) < S fuel ->
  exists b',
    readChunkHeader_loop (S fuel) b head size
    = readChunkHeader_loop fuel b' (head ++ ended_line h) size /\
    content b' = rest /\ Reader_ok b' /\ length (content b') < fuel.
Proof.
  intros Hok Hc (Hne & HLF & HCR & Hlen & Hn) Hfuel.
  unfold ended_line in *.
  destruct (ReadSlice_ended b h.1 h.2 rest) as (b' & Hr & Hc' & Hok');
    [done..|].
  exists b'. cbn [readChunkHeader_loop]. rewrite Hr.
  cbn [mbind outcome_bind].
  rewrite TrimRight_eol, TrimRight_text by done.
  destruct (decide (length h.1 = 0)) as [H0|_].
  { destruct h.1; [done|discriminate]. }
  rewrite header_line_other by done. cbn [mbind outcome_bind].
  split; [done|]. split; [done|]. split; [done|].
  rewrite Hc'. rewrite Hc, !length_app, eol_length in Hfuel. lia.
Qed.

Lemma header_loop_plains hs : forall fuel b rest head size,
  Forall plain_header hs ->
  Reader_ok b -> content b = concat (ended_line <$> hs) ++ rest ->
  length (content b) < fuel ->
  exists b' fuel',
    readChunkHeader_loop fuel b head size
    = readChunkHeader_loop fuel' b' (head ++ concat (ended_line <$> hs)) size /\
    content b' = rest /\ Reader_ok b' /\ length (content b') < fuel'.
Proof.
  induction hs as [|h hs IH]; intros fuel b rest head size Hhs Hok Hc Hfuel.
  - exists b, fuel. cbn. by rewrite app_nil_r.
  - apply Forall_cons in Hhs as [Hh Hhs].
    destruct fuel as [|fuel]; [lia|].
    rewrite fmap_cons in Hc. cbn [concat] in Hc.
    rewrite <- app_assoc in Hc.
    destruct (header_loop_plain fuel b h (concat (ended_line <$> hs) ++ rest)
                head size)
      as (b1 & Hrun & Hc1 & Hok1 & Hfuel1); [done..|].
    destruct (IH fuel b1 rest (head ++ ended_line h) size)
      as (b' & fuel' & Hrun' & Hc' & Hok' & Hfuel'); [done..|].
    exists b', fuel'. rewrite Hrun, Hrun'.
    rewrite fmap_cons. cbn [concat]. by rewrite <- !app_assoc.
Qed.

(** The round of the header loop on a blank line. *)
Lemma header_loop_eol fuel b n rest head size :
  Reader_ok b -> content b = eol n ++ rest -> n < defaultBufSize ->
  exists b',
    readChunkHeader_loop (S fuel) b head size
    = Ret ((head ++ eol n, size,
            if (size =? -1)%Z then Some ErrNoContentLength else None), b') /\
    content b' = rest /\ Reader_ok b'.
Proof.
  intros Hok Hc Hn.
  destruct (ReadSlice_ended b [] n rest) as (b' & Hr & Hc' & Hok');
    [done|done|apply not_elem_of_nil|cbn [app]; rewrite eol_length; lia|].
  exists b'. cbn [readChunkHeader_loop]. rewrite Hr.
  cbn [mbind outcome_bind]. rewrite TrimRight_eol. cbn [TrimRight length app].
  destruct (decide (0 = 0)); [|done].
  by destruct (size =? -1)%Z.
Qed.

Lemma readChunkHeader_with_endings b boundary hs blank rest :
  Reader_ok b -> (LF ∉ boundary) -> length boundary < defaultBufSize ->
  Forall plain_header hs -> blank < defaultBufSize ->
  content b = head_with_endings boundary hs blank ++ rest ->
  exists b',
    readChunkHeader b
    = Ret ((head_with_endings boundary hs blank, (-1)%Z,
            Some ErrNoContentLength), b') /\
    content b' = rest /\ Reader_ok b'.
Proof.
  intros Hok HLF Hlen Hhs Hblank Hc. unfold head_with_endings in *.
  rewrite <- !app_assoc in Hc. cbn [app] in Hc.
  destruct (ReadSlice_line LF b boundary _ Hok Hc)
    as (b1 & Hr & Hc1 & Hok1); [done..|].
  unfold readChunkHeader. rewrite Hr. cbn [mbind outcome_bind app].
  destruct (header_loop_plains hs (S (length (content b1))) b1
              (eol blank ++ rest) (boundary ++ [LF]) (-1)%Z)
    as (b2 & fuel2 & Hrun & Hc2 & Hok2 & Hfuel2); [done|done|done|lia|].
  rewrite Hrun. destruct fuel2 as [|fuel2]; [lia|].
  destruct (header_loop_eol fuel2 b2 blank rest
              ((boundary ++ [LF]) ++ concat (ended_line <$> hs)) (-1)%Z)
    as (b' & Hrun' & Hc' & Hok'); [done..|].
  exists b'. rewrite Hrun'. by rewrite <- !app_assoc.
Qed.

End HeaderFacts.

(** ** The run loop of the chunk parser *)

Module ChunkerFacts.
Import Go Bufio Parser GoFacts AtoiFacts BufioFacts DataFacts HeaderFacts.

(** The run of the loop from the reader [b] on, its next [select] being
    the [i]-th. [chunker] is the run from the start of the body. *)
Definition run_from (b : Reader) (sel : nat -> selected) (i : nat) : run :=
  chunker_loop (S (length (content b))) sel i b.

Lemma chunker_run_from body sel :
  chunker body sel = run_from (NewReader body) sel 0.
Proof. unfold chunker, run_from. exact eq_refl. Qed.

(** A boolean test for [content_length_field]. *)
Definition content_length_fieldb (t : bytes) : bool :=
  match SplitN2 t (B ": ") with
  | k :: _ => EqualFold k (B "Content-Length")
  | [] => false
  end.

Lemma content_length_fieldb_spec t :
  content_length_fieldb t = true <-> content_length_field t.
Proof.
  unfold content_length_fieldb, content_length_field, is_content_length.
  split.
  - destruct (SplitN2_cases t (B ": ")) as [->|(k & v & -> & Ht)];
      intros He%EqualFold_spec; [by left|right; eauto].
  - intros [Ht|(k & v & -> & Hk)].
    + unfold SplitN2. change (B ": ") with (":"%char :: [" "%char]).
      rewrite Index_None_absent by by apply content_length_no_colon.
      by apply EqualFold_spec.
    + change (B ": ") with (":"%char :: [" "%char]).
      change ((":"%char :: [" "%char]) ++ v)
        with (":"%char :: [" "%char] ++ v).
      rewrite SplitN2_after by by apply content_length_no_colon.
      by apply EqualFold_spec.
Qed.

Lemma chunk_head_not_nil c : 0 < length (chunk_head c).
Proof.
  unfold chunk_head. rewrite !length_app, line_length. lia.
Qed.

(** The rounds of the loop do not depend on the bound, once it exceeds the
    number of bytes left. *)
Lemma chunker_loop_fuel sel f1 : forall f2 i b,
  Reader_ok b -> length (content b) < f1 -> length (content b) < f2 ->
  chunker_loop f1 sel i b = chunker_loop f2 sel i b.
Proof.
  induction f1 as [|f1 IH]; intros f2 i b Hok H1 H2; [lia|].
  destruct f2 as [|f2]; [lia|]. cbn [chunker_loop].
  pose proof (readChunkHeader_total b Hok) as Hh.
  destruct (readChunkHeader b) as [[[[head size] e] b1]| |]; [|done..].
  destruct e as [e|]; [done|]. destruct Hh as (Hok1 & _ & Hlt).
  specialize (Hlt eq_refl).
  pose proof (readChunkData_total b1 size Hok1) as Hd.
  destruct (readChunkData b1 size) as [[[data e] b2]| |]; [|done..].
  destruct e as [e|]; [done|]. destruct Hd as (_ & Hok2 & Hle).
  destruct (sel i); [done|]. destruct (size =? 0)%Z; [done|].
  f_equal. apply IH; [done|lia..].
Qed.

(** The bound of [chunker] is never exhausted: a run ends by a stop, by an
    error or by a panic. *)
Lemma chunker_loop_ends sel fuel : forall i b,
  Reader_ok b -> length (content b) < fuel ->
  ended (chunker_loop fuel sel i b) <> Unfinished.
Proof.
  induction fuel as [|fuel IH]; intros i b Hok Hfuel; [lia|].
  cbn [chunker_loop].
  pose proof (readChunkHeader_total b Hok) as Hh.
  destruct (readChunkHeader b) as [[[[head size] e] b1]| |]; [|done..].
  destruct e as [e|]; [done|]. destruct Hh as (Hok1 & _ & Hlt).
  specialize (Hlt eq_refl).
  pose proof (readChunkData_total b1 size Hok1) as Hd.
  destruct (readChunkData b1 size) as [[[data e] b2]| |]; [|done..].
  destruct e as [e|]; [done|]. destruct Hd as (_ & Hok2 & Hle).
  destruct (sel i); [done|]. destruct (size =? 0)%Z; [done|].
  cbn [emit ended]. apply IH; [done|lia].
Qed.

Lemma chunker_ends body sel : ended (chunker body sel) <> Unfinished.
Proof.
  apply chunker_loop_ends; [apply NewReader_ok|lia].
Qed.

(** One round of the loop on a well-formed chunk whose payload is not
    [defaultBufSize] bytes or more at the end of a body that hands over its
    last bytes together with [io.EOF]. *)
Lemma run_from_chunk b sel i c rest :
  Reader_ok b -> well_formed c -> content b = chunk_bytes c ++ rest ->
  length (payload c) < defaultBufSize \/ rest <> [] \/
  eof_with_last (rd b) = false ->
  exists b',
    Reader_ok b' /\ content b' = rest /\
    eof_with_last (rd b') = eof_with_last (rd b) /\
    run_from b sel i =
      match sel i with
      | RecvStop => halt Stopped
      | SendFrame =>
          emit (chunk_head c ++ payload c)
            (if decide (payload c = []) then halt (Failed ErrFinalChunk)
             else run_from b' sel (S i))
      end.
Proof.
  intros Hok Hwf Hc Hend. unfold chunk_bytes in Hc.
  rewrite <- app_assoc in Hc.
  destruct (readChunkHeader_chunk b c _ Hok Hwf Hc) as (b1 & Hh & Hc1 & Hok1).
  pose proof (readChunkHeader_eof_with_last _ _ _ Hh) as Hf1.
  destruct (readChunkData_body b1 (payload c) rest Hok1 Hc1)
    as (b' & Hd & Hc' & Hok'); [apply Hwf|by rewrite Hf1|].
  pose proof (readChunkData_eof_with_last _ _ _ _ Hd) as Hf'.
  exists b'. split; [done|]. split; [done|]. split; [congruence|].
  unfold run_from at 1. cbn [chunker_loop]. rewrite Hh, Hd.
  destruct (sel i); [done|].
  destruct (decide (payload c = [])) as [->|Hne]; [done|].
  destruct (Z.eqb_spec (Z.of_nat (length (payload c))) 0) as [H0|_].
  { destruct (payload c); [done|cbn [length] in H0; lia]. }
  f_equal. apply chunker_loop_fuel; [done| |lia].
  pose proof (chunk_head_not_nil c).
  rewrite Hc, Hc', !length_app. lia.
Qed.

(** The frames of a sequence of chunks. *)
Definition frames (cs : list chunk) : list bytes :=
  (fun c => chunk_head c ++ payload c) <$> cs.

Definition stream (cs : list chunk) : bytes := concat (chunk_bytes <$> cs).

(** A run over well-formed chunks with payloads, each of which the
    consumer takes. *)
Lemma run_from_chunks cs : forall b sel i rest,
  Reader_ok b -> Forall well_formed cs ->
  Forall (fun c => payload c <> []) cs ->
  content b = stream cs ++ rest ->
  rest <> [] \/ eof_with_last (rd b) = false ->
  (forall j, j < length cs -> sel (i + j) = SendFrame) ->
  exists b',
    Reader_ok b' /\ content b' = rest /\
    eof_with_last (rd b') = eof_with_last (rd b) /\
    run_from b sel i =
      {| emitted := frames cs ++ emitted (run_from b' sel (i + length cs));
         ended := ended (run_from b' sel (i + length cs)) |}.
Proof.
  induction cs as [|c cs IH]; intros b sel i rest Hok Hwf Hne Hc Hend Hsel.
  - exists b. split; [done|]. split; [done|]. split; [done|].
    cbn [length frames fmap list_fmap app].
    rewrite Nat.add_0_r. by destruct (run_from b sel i).
  - apply Forall_cons in Hwf as [Hwf Hwfs].
    apply Forall_cons in Hne as [Hne Hnes].
    unfold stream in Hc. rewrite fmap_cons in Hc. cbn [concat] in Hc.
    rewrite <- app_assoc in Hc.
    destruct (run_from_chunk b sel i c _ Hok Hwf Hc)
      as (b1 & Hok1 & Hc1 & Hf1 & Hrun).
    { right. destruct Hend as [Hrest|?]; [left|by right].
      intros [_ ?]%app_eq_nil. done. }
    rewrite <- (Nat.add_0_r i) in Hrun at 2.
    rewrite (Hsel 0) in Hrun by (cbn [length]; lia).
    destruct (decide (payload c = [])); [done|].
    destruct (IH b1 sel (S i) rest Hok1 Hwfs Hnes Hc1)
      as (b' & Hok' & Hc' & Hf' & Hrun').
    { by rewrite Hf1. }
    { intros j Hj. replace (S i + j) with (i + S j) by lia.
      apply Hsel. cbn [length]. lia. }
    exists b'. split; [done|]. split; [done|]. split; [congruence|].
    rewrite Hrun, Hrun'. cbn [length].
    replace (i + S (length cs)) with (S i + length cs) by lia.
    generalize (run_from b' sel (S i + length cs)). intros r.
    unfold emit, frames. cbn [emitted ended]. by rewrite fmap_cons.
Qed.

End ChunkerFacts.

(** ** The chunk parser against its specification *)

Module ParserClaims.
Import Go Bufio Parser GoFacts AtoiFacts BufioFacts DataFacts HeaderFacts.
Import ChunkerFacts.

(** *** Sample inputs *)

(** The packets that deliver the given pieces (empty pieces deliver
    nothing). *)
Definition packets_of (pieces : list bytes) : list packet :=
  omap (fun bs => match bs with [] => None | c :: cs => Some (c, cs) end)
    pieces.

(** A body delivered in the given pieces, which reports its end by a read
    of its own that returns [0, io.EOF]. *)
Definition body_of (pieces : list bytes) : Body :=
  {| packets := packets_of pieces; eof_with_last := false |}.

(** The same, from a body that returns [io.EOF] together with its last
    piece. *)
Definition body_with_eof_of (pieces : list bytes) : Body :=
  {| packets := packets_of pieces; eof_with_last := true |}.

Definition always_send : nat -> selected := fun _ => SendFrame.

(** The chunk of the comment at the top of mjpeg-proxy.go, with a payload
    of five bytes. *)
Definition sample_chunk : chunk :=
  {| boundary := B "--myboundary";
     before := [B "Content-Type: image/jpeg"];
     key := B "Content-Length";
     after := [];
     payload := B "hello" |}.

(** The sample chunk arriving in three packets that cut through the head
    and through the payload. *)
Definition sample_body : Body :=
  body_of [take 20 (chunk_bytes sample_chunk);
              take 43 (drop 20 (chunk_bytes sample_chunk));
              drop 63 (chunk_bytes sample_chunk)].

(** A final chunk: Content-Length is zero. *)
Definition final_chunk : chunk :=
  {| boundary := B "--myboundary";
     before := [B "Content-Type: image/jpeg"];
     key := B "Content-Length";
     after := [];
     payload := [] |}.

Definition final_body : Body := body_of [chunk_bytes final_chunk].

(** The sample chunk and then the final chunk, from a body that returns
    [io.EOF] together with its last packet. *)
Definition sample_then_final_body : Body :=
  {| packets := packets sample_body ++ packets final_body;
     eof_with_last := true |}.

(** A head with no Content-Length, followed by five bytes. Its boundary
    line ends in a bare LF, its header lines in CR LF, in a bare LF and in
    CR CR LF, its blank line is a bare LF; the body returns [io.EOF]
    together with its last packet. *)
Definition headless_head : bytes :=
  head_with_endings (B "--myboundary")
    [(B "Content-Type: image/jpeg", 1); (B "X-Timestamp: 1", 0);
     (B "Content-Lengths: 5", 2)] 0.

Definition headless_body : Body :=
  body_with_eof_of [take 30 headless_head; drop 30 headless_head ++ B "hello"].

(** A head whose Content-Length is negative. *)
Definition negative_body : Body :=
  body_of [line (B "--myboundary") ++ line (B "Content-Length: -5") ++ CRLF].

(** A head with the bare key Content-Length for a header line. *)
Definition bare_key_body : Body :=
  body_of [line (B "--myboundary") ++ line (B "Content-Length") ++ CRLF].

(** *** Deciding the side conditions on sample inputs *)

Lemma not_elem_of_bytes (c : byte) (l : bytes) :
  forallb (fun d => negb (Ascii.eqb d c)) l = true -> c ∉ l.
Proof.
  induction l as [|d l IH]; cbn [forallb]; [intros _; apply not_elem_of_nil|].
  intros [Hd Hl]%andb_true_iff. apply not_elem_of_cons. split; [|by apply IH].
  intros ->. by rewrite Ascii.eqb_refl in Hd.
Qed.

Lemma boundary_text_check t :
  forallb (fun d => negb (Ascii.eqb d LF)) t = true ->
  length t + 2 <=? defaultBufSize = true ->
  boundary_text t.
Proof.
  intros Ht Hlen%Nat.leb_le. split; [by apply not_elem_of_bytes|done].
Qed.

Lemma other_header_check t :
  forallb (fun d => negb (Ascii.eqb d LF)) t = true ->
  match last t with Some c => negb (Ascii.eqb c CR) | None => false end = true ->
  length t + 2 <=? defaultBufSize = true ->
  content_length_fieldb t = false ->
  other_header t.
Proof.
  intros Ht Hlast Hlen%Nat.leb_le Hcl.
  split; [split; [|split; [|split]]|].
  - by destruct t.
  - by apply not_elem_of_bytes.
  - destruct (last t) as [c|]; [|done]. intros [= ->]. done.
  - done.
  - intros Hf%content_length_fieldb_spec. congruence.
Qed.

Lemma well_formed_check c :
  boundary_text (boundary c) ->
  Forall other_header (before c) ->
  EqualFold (key c) (B "Content-Length") = true ->
  length (length_field c) + 2 <=? defaultBufSize = true ->
  Forall other_header (after c) ->
  (Z.of_nat (length (payload c)) <=? maxAlloc)%Z = true ->
  well_formed c.
Proof.
  intros ? ? ?%EqualFold_spec ?%Nat.leb_le ? ?%Z.leb_le. done.
Qed.

Ltac check_text :=
  first [apply boundary_text_check | apply other_header_check];
  vm_compute; reflexivity.

Ltac check_texts :=
  lazymatch goal with
  | |- Forall _ [] => apply List.Forall_nil
  | |- Forall _ (_ :: _) => apply List.Forall_cons; [check_text | check_texts]
  end.

Lemma plain_header_check h :
  forallb (fun d => negb (Ascii.eqb d LF)) h.1 = true ->
  match last h.1 with Some c => negb (Ascii.eqb c CR) | None => false end
  = true ->
  length (ended_line h) <=? defaultBufSize = true ->
  content_length_fieldb h.1 = false ->
  plain_header h.
Proof.
  intros Ht Hlast Hlen%Nat.leb_le Hcl.
  split; [|split; [|split; [|split]]].
  - by destruct h.1.
  - by apply not_elem_of_bytes.
  - destruct (last h.1) as [c|]; [|done]. intros [= ->]. done.
  - done.
  - intros Hf%content_length_fieldb_spec. congruence.
Qed.

Ltac check_plain_headers :=
  lazymatch goal with
  | |- Forall _ [] => apply List.Forall_nil
  | |- Forall _ (_ :: _) =>
      apply List.Forall_cons;
      [apply plain_header_check; vm_compute; reflexivity
      |check_plain_headers]
  end.

Lemma sample_chunk_well_formed : well_formed sample_chunk.
Proof.
  apply well_formed_check.
  - check_text.
  - cbn [before sample_chunk final_chunk]. check_texts.
  - vm_compute. reflexivity.
  - vm_compute. reflexivity.
  - cbn [after sample_chunk final_chunk]. check_texts.
  - vm_compute. reflexivity.
Qed.

Lemma final_chunk_well_formed : well_formed final_chunk.
Proof.
  apply well_formed_check.
  - check_text.
  - cbn [before sample_chunk final_chunk]. check_texts.
  - vm_compute. reflexivity.
  - vm_compute. reflexivity.
  - cbn [after sample_chunk final_chunk]. check_texts.
  - vm_compute. reflexivity.
Qed.

(** *** C1 *)

(** C1, as the code has it: for a well-formed chunk whose head declares
    the length of its payload, a length that [make] accepts, the round of
    the run loop that reads it emits one frame, which is the bytes of the
    head (boundary line, header lines, blank line) followed by the payload,
    whatever packets the bytes arrive in; the run then goes on with the
    bytes after the payload, or ends if the payload is empty. This is for
    a payload that is shorter than the 4096 bytes of the reader's buffer,
    or is followed by more bytes of the body, or comes from a body that
    reports its end by a read of its own: what the code does with a
    payload of 4096 bytes or more that ends the body and whose last bytes
    arrive together with [io.EOF] is not part of the statement. *)
Theorem chunker_emits_head_and_payload b sel i c rest :
  Reader_ok b -> well_formed c -> content b = chunk_bytes c ++ rest ->
  length (payload c) < defaultBufSize \/ rest <> [] \/
  eof_with_last (rd b) = false ->
  sel i = SendFrame ->
  exists b',
    Reader_ok b' /\ content b' = rest /\
    run_from b sel i =
      emit (chunk_head c ++ payload c)
        (if decide (payload c = []) then halt (Failed ErrFinalChunk)
         else run_from b' sel (S i)).
Proof.
  intros Hok Hwf Hc Hend Hsel.
  destruct (run_from_chunk b sel i c rest Hok Hwf Hc Hend)
    as (b' & ? & ? & _ & Hrun).
  rewrite Hsel in Hrun. eauto.
Qed.

Lemma chunker_emits_head_and_payload_witness :
  exists b',
    Reader_ok b' /\ content b' = [] /\
    run_from (NewReader sample_body) always_send 0 =
      emit (chunk_head sample_chunk ++ payload sample_chunk)
        (if decide (payload sample_chunk = [])
         then halt (Failed ErrFinalChunk)
         else run_from b' always_send 1).
Proof.
  apply (chunker_emits_head_and_payload (NewReader sample_body) always_send 0
           sample_chunk []).
  - apply NewReader_ok.
  - apply sample_chunk_well_formed.
  - vm_compute. reflexivity.
  - right. right. reflexivity.
  - reflexivity.
Defined.

(** C1 as stated fails: the frame emitted for the sample chunk is not its
    five payload bytes alone, the bytes of the head come first. *)
Lemma frame_is_not_the_payload_alone :
  well_formed sample_chunk /\
  concat (pkt_bytes <$> packets sample_body) = chunk_bytes sample_chunk /\
  payload sample_chunk = B "hello" /\
  emitted (chunker sample_body always_send)
  = [chunk_head sample_chunk ++ B "hello"] /\
  emitted (chunker sample_body always_send) <> [B "hello"].
Proof.
  split; [apply sample_chunk_well_formed|].
  split; [vm_compute; reflexivity|]. split; [reflexivity|].
  split; [vm_compute; reflexivity|]. vm_compute. discriminate.
Qed.

(** *** C2 *)

(** C2, as the code has it: when a stream of well-formed chunks with
    payloads, each of them taken by the consumer, reaches a well-formed
    chunk whose Content-Length is zero, the run emits the head of that
    chunk as a last frame (with no payload bytes) and then ends, with
    [failure] set to "received final chunk"; nothing after that chunk is
    read. *)
Theorem zero_length_chunk_ends_run b sel i cs c rest :
  Reader_ok b -> Forall well_formed cs ->
  Forall (fun c => payload c <> []) cs ->
  well_formed c -> payload c = [] ->
  content b = stream cs ++ chunk_bytes c ++ rest ->
  (forall j, j <= length cs -> sel (i + j) = SendFrame) ->
  run_from b sel i =
    {| emitted := frames cs ++ [chunk_head c];
       ended := Failed ErrFinalChunk |}.
Proof.
  intros Hok Hwfs Hnes Hwf Hnil Hc Hsel.
  destruct (run_from_chunks cs b sel i _ Hok Hwfs Hnes Hc)
    as (b1 & Hok1 & Hc1 & _ & ->).
  { left. pose proof (chunk_head_not_nil c) as Hhead. unfold chunk_bytes.
    intros [[Hh _]%app_eq_nil _]%app_eq_nil. rewrite Hh in Hhead.
    cbn [length] in Hhead. lia. }
  { intros j Hj. apply Hsel. lia. }
  destruct (run_from_chunk b1 sel (i + length cs) c rest Hok1 Hwf Hc1)
    as (b' & _ & _ & _ & ->).
  { left. rewrite Hnil. unfold defaultBufSize. cbn [length]. lia. }
  rewrite Hsel by lia. rewrite Hnil.
  destruct (decide (@nil ascii = [])); [|done].
  cbn [emit halt emitted ended]. by rewrite app_nil_r.
Qed.

Lemma zero_length_chunk_ends_run_witness :
  run_from (NewReader sample_then_final_body) always_send 0 =
    {| emitted := frames [sample_chunk] ++ [chunk_head final_chunk];
       ended := Failed ErrFinalChunk |}.
Proof.
  apply (zero_length_chunk_ends_run _ always_send 0 [sample_chunk]
           final_chunk []).
  - apply NewReader_ok.
  - apply List.Forall_cons;
      [apply sample_chunk_well_formed|apply List.Forall_nil].
  - apply List.Forall_cons; [discriminate|apply List.Forall_nil].
  - apply final_chunk_well_formed.
  - reflexivity.
  - vm_compute. reflexivity.
  - reflexivity.
Defined.

(** C2 as stated fails: on a body that is one final chunk the run emits a
    frame for that chunk, and ends with a failure. *)
Lemma zero_length_chunk_is_emitted :
  well_formed final_chunk /\
  length_field final_chunk = B "Content-Length: 0" /\
  concat (pkt_bytes <$> packets final_body) = chunk_bytes final_chunk /\
  emitted (chunker final_body always_send) = [chunk_head final_chunk] /\
  emitted (chunker final_body always_send) <> [] /\
  ended (chunker final_body always_send) = Failed ErrFinalChunk /\
  ended (chunker final_body always_send) <> Stopped.
Proof.
  split; [apply final_chunk_well_formed|].
  split; [vm_compute; reflexivity|]. split; [vm_compute; reflexivity|].
  split; [vm_compute; reflexivity|]. split; [vm_compute; discriminate|].
  split; [vm_compute; reflexivity|]. vm_compute. discriminate.
Qed.

(** *** C3 *)

(** C3: when the head of the next chunk reaches its blank line with no
    header line whose key is Content-Length, the run ends there with the
    error "Content-Length chunk header not found" and emits no frame. The
    lines are taken as the code takes them: each ends at LF, with any
    number of CR before it, the boundary line is whatever comes before the
    first LF, and the blank line is an ending alone; the bytes may arrive
    in any packets, from either kind of body. *)
Theorem missing_content_length_fails b sel i bd hs blank rest :
  Reader_ok b -> (LF ∉ bd) -> length bd < defaultBufSize ->
  Forall plain_header hs -> blank < defaultBufSize ->
  content b = head_with_endings bd hs blank ++ rest ->
  run_from b sel i = {| emitted := []; ended := Failed ErrNoContentLength |}.
Proof.
  intros Hok HLF Hlen Hhs Hblank Hc.
  destruct (readChunkHeader_with_endings b bd hs blank rest
              Hok HLF Hlen Hhs Hblank Hc) as (b' & Hh & _).
  unfold run_from. cbn [chunker_loop]. by rewrite Hh.
Qed.

Lemma missing_content_length_fails_witness :
  run_from (NewReader headless_body) always_send 0 =
    {| emitted := []; ended := Failed ErrNoContentLength |}.
Proof.
  apply (missing_content_length_fails _ always_send 0 (B "--myboundary")
           [(B "Content-Type: image/jpeg", 1); (B "X-Timestamp: 1", 0);
            (B "Content-Lengths: 5", 2)] 0 (B "hello")).
  - apply NewReader_ok.
  - apply not_elem_of_bytes. vm_compute. reflexivity.
  - vm_compute. lia.
  - check_plain_headers.
  - vm_compute. lia.
  - vm_compute. reflexivity.
Defined.

(** *** C9 *)

(** C9: for the head with the header line "Content-Length: -5",
    [readChunkHeader] returns the size -5 without an error, and
    [readChunkData] then panics on [make([]byte, -5)], as it does for
    every negative size; the run of [chunker] ends in that panic. *)
Theorem negative_content_length_panics :
  (exists head b',
     readChunkHeader (NewReader negative_body)
     = Ret ((head, (-5)%Z, None), b') /\
     readChunkData b' (-5) = Panic MakeSliceLenOutOfRange) /\
  chunker negative_body always_send
  = {| emitted := []; ended := Crashed MakeSliceLenOutOfRange |} /\
  (forall b size, (size < 0)%Z ->
     readChunkData b size = Panic MakeSliceLenOutOfRange).
Proof.
  split; [|split].
  - eexists _, _. split; vm_compute; reflexivity.
  - vm_compute. reflexivity.
  - intros b size Hneg. unfold readChunkData, make_bytes.
    destruct (Z.ltb_spec size 0); [done|lia].
Qed.

(** *** C10 *)

(** C10: for the head with the header line "Content-Length" and nothing
    more, [readChunkHeader] panics on [parts[1]], the index 1 being out of
    range for the one part; and a header line makes the parsing of the
    line panic exactly when it holds no ": " and equals "Content-Length"
    up to case. *)
Theorem bare_content_length_panics :
  readChunkHeader (NewReader bare_key_body) = Panic (IndexOutOfRange 1 1) /\
  chunker bare_key_body always_send
  = {| emitted := []; ended := Crashed (IndexOutOfRange 1 1) |} /\
  (forall t size,
     (exists p, header_line t size = Panic p) <->
     eq_fold t (B "Content-Length") /\
     ~ (exists k v, t = k ++ B ": " ++ v)).
Proof.
  split; [vm_compute; reflexivity|].
  split; [vm_compute; reflexivity|].
  intros t size. apply header_line_panic.
Qed.

End ParserClaims.


(** ** The broker *)

Module BrokerFacts.
Import Go Broker.

Lemma size_zero (X : gset positive) : size X = 0 <-> X = ∅.
Proof. rewrite size_empty_iff. by unfold_leibniz. Qed.

(** *** doUnsubscribe *)

Lemma doUnsubscribe_absent p s :
  s ∉ subscribers p -> doUnsubscribe p s = p.
Proof. intros Hs. unfold doUnsubscribe. by destruct (decide _). Qed.

Lemma doUnsubscribe_fields p s :
  subscribers (doUnsubscribe p s) = subscribers p ∖ {[s]} /\
  pubChan (doUnsubscribe p s) = pubChan p /\
  closed (doUnsubscribe p s) = closed p /\
  inbox (doUnsubscribe p s) = inbox p /\
  started (doUnsubscribe p s) = started p /\
  stops (doUnsubscribe p s) = stops p /\
  stopTimer (doUnsubscribe p s) =
    (if decide (s ∈ subscribers p /\ subscribers p ∖ {[s]} = ∅)
     then true else stopTimer p).
Proof.
  unfold doUnsubscribe. destruct (decide (s ∈ subscribers p)) as [Hs|Hs];
    cbn [subscribers pubChan closed inbox started stops stopTimer].
  - repeat (split; [done|]).
    destruct (decide (size (subscribers p ∖ {[s]}) = 0)) as [H0|H0];
      rewrite size_zero in H0; destruct (decide _) as [[_ ?]|Hn]; try done.
    exfalso. apply Hn. done.
  - split; [set_solver|]. repeat (split; [done|]).
    destruct (decide _) as [[? _]|]; done.
Qed.

(** *** stopSubscribers *)

(** [stopSubscribers] closes the channel of every subscriber and empties
    the set; the timer is armed when this removes the last subscriber. *)
Lemma stopSubscribers_spec order : forall p,
  NoDup order ->
  (forall s, s ∈ order -> s ∈ subscribers p -> s ∉ closed p) ->
  exists p',
    stopSubscribers order p = Ret p' /\
    subscribers p' = subscribers p ∖ list_to_set order /\
    closed p' = closed p ∪ (subscribers p ∩ list_to_set order) /\
    pubChan p' = pubChan p /\ inbox p' = inbox p /\
    started p' = started p /\ stops p' = stops p /\
    stopTimer p' =
      (if decide (subscribers p' = ∅ /\ subscribers p <> ∅)
       then true else stopTimer p).
Proof.
  induction order as [|s order IH]; intros p Hnd Hopen.
  - exists p. split; [done|]. rewrite list_to_set_nil.
    split; [set_solver|]. split; [set_solver|]. repeat (split; [done|]).
    destruct (decide _) as [[? ?]|]; done.
  - apply NoDup_cons in Hnd as [Hs Hnd]. unfold stopSubscribers.
    cbn [range]. fold (stopSubscribers order).
    rewrite list_to_set_cons.
    destruct (decide (s ∈ subscribers p)) as [Hin|Hin].
    + unfold close_chan at 1.
      destruct (decide (s ∈ closed p)) as [Hc|Hc].
      { exfalso. eapply Hopen; [|done..]. set_solver. }
      cbn [mbind outcome_bind].
      set (p1 := {| subscribers := subscribers p; pubChan := pubChan p;
                    stopTimer := stopTimer p;
                    closed := {[s]} ∪ closed p; inbox := inbox p;
                    started := started p; stops := stops p |}).
      destruct (doUnsubscribe_fields p1 s)
        as (Hsub & Hpub & Hcl & Hin' & Hst & Hsp & Htm).
      cbn [p1 subscribers pubChan closed inbox started stops stopTimer]
        in Hsub, Hpub, Hcl, Hin', Hst, Hsp, Htm.
      destruct (IH (doUnsubscribe p1 s) Hnd)
        as (p' & Hrun & Hsub' & Hcl' & Hpub' & Hinb' & Hst' & Hsp' & Htm').
      { intros x Hx. rewrite Hsub, Hcl. intros Hxs Hxc.
        apply (Hopen x); set_solver. }
      exists p'. split; [done|].
      rewrite Hsub in Hsub'. rewrite Hsub, Hcl in Hcl'.
      split; [set_solver|]. split; [set_solver|].
      split; [congruence|]. split; [congruence|].
      split; [congruence|]. split; [congruence|].
      rewrite Htm', Htm, Hsub.
      repeat destruct (decide _); try done; exfalso; set_solver.
    + destruct (IH p Hnd)
        as (p' & Hrun & Hsub' & Hcl' & Hpub' & Hinb' & Hst' & Hsp' & Htm').
      { intros x Hx. apply Hopen. set_solver. }
      exists p'. split; [done|].
      split; [set_solver|]. split; [set_solver|]. done.
Qed.

(** *** doPublish *)

(** [doPublish] offers the frame once to every subscriber: it is added to
    the inbox of those that are ready and of no one else, and nothing else
    changes. *)
Lemma doPublish_spec ready data order : forall p,
  NoDup order ->
  (forall s, s ∈ order -> s ∈ subscribers p -> s ∉ closed p) ->
  exists p',
    doPublish order ready data p = Ret p' /\
    subscribers p' = subscribers p /\ pubChan p' = pubChan p /\
    stopTimer p' = stopTimer p /\ closed p' = closed p /\
    started p' = started p /\ stops p' = stops p /\
    forall s,
      frames_of p' s =
        if decide (s ∈ order /\ s ∈ subscribers p /\ ready s = true)
        then frames_of p s ++ [data] else frames_of p s.
Proof.
  induction order as [|s order IH]; intros p Hnd Hopen.
  - exists p. repeat (split; [done|]). intros s.
    destruct (decide _) as [[Hs _]|]; [|done]. by apply elem_of_nil in Hs.
  - apply NoDup_cons in Hnd as [Hs Hnd]. unfold doPublish. cbn [range].
    fold (doPublish order ready data).
    assert (forall x, x ∈ order -> x ∈ subscribers p -> x ∉ closed p)
      as Hopen'.
    { intros x Hx. apply Hopen. by apply list_elem_of_further. }
    destruct (decide (s ∈ subscribers p)) as [Hin|Hin].
    + unfold try_send at 1.
      destruct (decide (s ∈ closed p)) as [Hc|Hc].
      { exfalso. by apply (Hopen s); [apply list_elem_of_here|..]. }
      destruct (ready s) eqn:Hr; cbn [mbind outcome_bind].
      * set (p1 := {| subscribers := subscribers p; pubChan := pubChan p;
                      stopTimer := stopTimer p; closed := closed p;
                      inbox := <[s:=frames_of p s ++ [data]]> (inbox p);
                      started := started p; stops := stops p |}).
        destruct (IH p1 Hnd Hopen')
          as (p' & Hrun & ? & ? & ? & ? & ? & ? & Hfr).
        exists p'. split; [done|]. repeat (split; [done|]). intros x.
        rewrite Hfr. cbn [p1 subscribers].
        destruct (decide (x = s)) as [->|Hne].
        -- rewrite decide_False by (by intros [? _]).
           rewrite decide_True by (split; [apply list_elem_of_here|done]).
           unfold frames_of at 1. cbn [p1 inbox].
           by rewrite lookup_insert_eq.
        -- assert (frames_of p1 x = frames_of p x) as ->.
           { unfold frames_of. cbn [p1 inbox].
             by rewrite lookup_insert_ne. }
           apply decide_ext. rewrite elem_of_cons. split.
           ++ intros (? & ? & ?). split; [by right|done].
           ++ intros ([?|?] & ? & ?); done.
      * destruct (IH p Hnd Hopen')
          as (p' & Hrun & ? & ? & ? & ? & ? & ? & Hfr).
        exists p'. split; [done|]. repeat (split; [done|]). intros x.
        rewrite Hfr. apply decide_ext. rewrite elem_of_cons. split.
        -- intros (? & ? & ?). split; [by right|done].
        -- intros ([->|?] & ? & ?); [congruence|done].
    + destruct (IH p Hnd Hopen')
        as (p' & Hrun & ? & ? & ? & ? & ? & ? & Hfr).
      exists p'. split; [done|]. repeat (split; [done|]). intros x.
      rewrite Hfr. apply decide_ext. rewrite elem_of_cons. split.
      * intros (? & ? & ?). split; [by right|done].
      * intros ([->|?] & ? & ?); done.
Qed.

End BrokerFacts.

(** ** The broker against its specification *)

Module BrokerClaims.
Import Go Broker BrokerFacts.

(** *** What every reachable state satisfies *)

(** No current subscriber has a closed channel. *)
Definition subscribers_open (p : PubSub) : Prop :=
  forall s, s ∈ subscribers p -> s ∉ closed p.

Lemma visits_open order p :
  visits order (subscribers p) -> subscribers_open p ->
  NoDup order /\ forall s, s ∈ order -> s ∈ subscribers p -> s ∉ closed p.
Proof. intros [Hnd _] Hopen. split; [done|]. intros s _. apply Hopen. Qed.

Lemma handle_open p ev p' :
  subscribers_open p -> enabled p ev -> handle p ev = Ret p' ->
  subscribers_open p'.
Proof.
  intros Hopen Hen Hh. destruct ev as [data ready order|order|s st ce order|s|];
    cbn [handle enabled] in *.
  - destruct Hen as [_ Hv].
    destruct (visits_open order p Hv Hopen) as [Hnd Ho].
    destruct (doPublish_spec ready data order p Hnd Ho)
      as (p1 & Hrun & Hs & _ & _ & Hc & _).
    rewrite Hrun in Hh. injection Hh as <-. intros s. rewrite Hs, Hc.
    apply Hopen.
  - destruct Hen as [_ [Hnd Hv]].
    destruct (stopSubscribers_spec order (stopChunker p) Hnd)
      as (p1 & Hrun & Hs & Hc & _).
    { intros s _. apply Hopen. }
    rewrite Hrun in Hh. injection Hh as <-. intros s. rewrite Hs, Hc.
    cbn [stopChunker subscribers closed]. intros Hin.
    specialize (Hopen s). set_solver.
  - destruct Hen as (Hs & Hc & [Hnd Hv]). unfold doSubscribe in Hh.
    cbn [pubChan] in Hh.
    set (p1 := {| subscribers := {[s]} ∪ subscribers p;
                  pubChan := pubChan p; stopTimer := stopTimer p;
                  closed := closed p; inbox := inbox p;
                  started := started p; stops := stops p |}) in *.
    assert (subscribers_open p1) as Hopen1.
    { intros x. cbn [p1 subscribers closed]. specialize (Hopen x).
      set_solver. }
    destruct (pubChan p); [by injection Hh as <-|].
    unfold startChunker in Hh. destruct st; [by injection Hh as <-|].
    destruct ce; [|by injection Hh as <-].
    destruct (stopSubscribers_spec order p1 Hnd)
      as (p2 & Hrun & Hs2 & Hc2 & _).
    { intros x _. apply Hopen1. }
    rewrite Hrun in Hh. injection Hh as <-. intros x. rewrite Hs2, Hc2.
    intros Hin. specialize (Hopen1 x). set_solver.
  - injection Hh as <-. intros x.
    destruct (doUnsubscribe_fields p s) as (-> & _ & -> & _).
    specialize (Hopen x). set_solver.
  - destruct (decide _); injection Hh as <-; apply Hopen.
Qed.

Lemma reachable_open p : reachable p -> subscribers_open p.
Proof.
  induction 1 as [|p ev p' _ IH Hen Hh].
  - intros s Hs. by apply not_elem_of_empty in Hs.
  - by eapply handle_open.
Qed.

(** The broker's loop never panics: in a reachable state every event that
    can arrive is handled. *)
Lemma handle_returns p ev :
  reachable p -> enabled p ev -> exists p', handle p ev = Ret p'.
Proof.
  intros Hopen%reachable_open Hen.
  destruct ev as [data ready order|order|s st ce order|s|];
    cbn [handle enabled] in *.
  - destruct Hen as [_ Hv].
    destruct (visits_open order p Hv Hopen) as [Hnd Ho].
    destruct (doPublish_spec ready data order p Hnd Ho) as (p1 & Hrun & _).
    eauto.
  - destruct Hen as [_ [Hnd Hv]].
    destruct (stopSubscribers_spec order (stopChunker p) Hnd)
      as (p1 & Hrun & _); [|eauto].
    intros s _. apply Hopen.
  - destruct Hen as (Hs & Hc & [Hnd Hv]). unfold doSubscribe.
    cbn [pubChan]. destruct (pubChan p); [eauto|].
    unfold startChunker. destruct st; [eauto|]. destruct ce; [|eauto].
    match goal with
    | |- context [stopSubscribers order ?q] =>
        destruct (stopSubscribers_spec order q Hnd) as (p2 & Hrun & _)
    end; [|eauto].
    intros x _. cbn [subscribers closed]. specialize (Hopen x). set_solver.
  - eauto.
  - destruct (decide _); eauto.
Qed.

(** *** C4 *)

(** The state after a first subscription whose connection attempt failed. *)
Definition failed_start : PubSub :=
  {| subscribers := ∅; pubChan := None; stopTimer := true;
     closed := {[1%positive]}; inbox := ∅; started := 0; stops := 0 |}.

(** The state after a first subscription that started the parser. *)
Definition first_subscribed : PubSub :=
  {| subscribers := {[1%positive]}; pubChan := Some 0; stopTimer := false;
     closed := ∅; inbox := ∅; started := 1; stops := 0 |}.

Lemma visits_singleton (s : positive) : visits [s] ({[s]} ∪ ∅).
Proof.
  split; [apply NoDup_singleton|]. intros x.
  rewrite list_elem_of_singleton. set_solver.
Qed.

Lemma failed_start_reachable : reachable failed_start.
Proof.
  apply (reachable_round NewPubSub
           (Subscribe 1%positive false true [1%positive])).
  - apply reachable_new.
  - split; [apply not_elem_of_empty|].
    split; [apply not_elem_of_empty|apply visits_singleton].
  - vm_compute. reflexivity.
Qed.

Lemma first_subscribed_reachable : reachable first_subscribed.
Proof.
  apply (reachable_round NewPubSub
           (Subscribe 1%positive false false [1%positive])).
  - apply reachable_new.
  - split; [apply not_elem_of_empty|].
    split; [apply not_elem_of_empty|apply visits_singleton].
  - vm_compute. reflexivity.
Qed.

(** C4, as the code has it: in every state the broker's loop can reach, if
    the parser handle is live then the subscriber set is not empty or the
    idle timer is armed. (The converse is not kept: the handle is cleared
    as soon as a start fails or the producer ends, while the timer that
    the emptied set armed is still to fire.) *)
Theorem live_parser_has_demand_or_grace p :
  reachable p -> parser_live p -> has_subscribers p \/ in_grace_window p.
Proof.
  unfold parser_live, has_subscribers, in_grace_window.
  induction 1 as [|p ev p' Hreach IH Hen Hh]; [done|].
  pose proof (reachable_open p Hreach) as Hopen.
  destruct ev as [data ready order|order|s st ce order|s|];
    cbn [handle enabled] in *.
  - destruct Hen as [_ Hv].
    destruct (visits_open order p Hv Hopen) as [Hnd Ho].
    destruct (doPublish_spec ready data order p Hnd Ho)
      as (p1 & Hrun & Hs & Hp & Ht & _).
    rewrite Hrun in Hh. injection Hh as <-. rewrite Hs, Hp, Ht. done.
  - destruct Hen as [_ [Hnd Hv]].
    destruct (stopSubscribers_spec order (stopChunker p) Hnd)
      as (p1 & Hrun & _ & _ & Hp & _).
    { intros s _. apply Hopen. }
    rewrite Hrun in Hh. injection Hh as <-. rewrite Hp. done.
  - destruct Hen as (Hs & Hc & [Hnd Hv]). unfold doSubscribe in Hh.
    cbn [pubChan] in Hh. destruct (pubChan p) eqn:Hpub.
    { injection Hh as <-. cbn [subscribers]. intros _. left. set_solver. }
    unfold startChunker in Hh. destruct st.
    { injection Hh as <-. cbn [pubChan]. congruence. }
    destruct ce.
    + match type of Hh with
      | stopSubscribers order ?q = _ =>
          destruct (stopSubscribers_spec order q Hnd)
            as (p2 & Hrun & _ & _ & Hp & _)
      end.
      { intros x _. cbn [subscribers closed]. specialize (Hopen x).
        set_solver. }
      rewrite Hrun in Hh. injection Hh as <-. rewrite Hp. cbn [pubChan].
      congruence.
    + injection Hh as <-. cbn [subscribers]. intros _. left. set_solver.
  - injection Hh as <-.
    destruct (doUnsubscribe_fields p s) as (-> & -> & _ & _ & _ & _ & ->).
    intros Hlive. destruct (decide _) as [_|Hn]; [by right|].
    destruct (IH Hlive) as [Hne|Ht]; [|by right].
    left. intros Hempty. apply Hn.
    destruct (decide (s ∈ subscribers p)); [done|]. set_solver.
  - destruct (decide (size (subscribers _) = 0)) as [H0|H0];
      injection Hh as <-; cbn [stopChunker pubChan subscribers] in *;
      [done|].
    intros _. left. by rewrite size_zero in H0.
Qed.

Lemma live_parser_has_demand_or_grace_witness :
  has_subscribers first_subscribed \/ in_grace_window first_subscribed.
Proof.
  apply (live_parser_has_demand_or_grace first_subscribed).
  - apply first_subscribed_reachable.
  - discriminate.
Defined.

(** C4 as stated fails: after a first subscription whose start failed, the
    loop is in a state where the subscriber set has just become empty and
    the idle timer is armed, yet there is no parser handle. *)
Lemma grace_window_without_parser :
  reachable failed_start /\
  in_grace_window failed_start /\ ~ parser_live failed_start /\
  ~ (parser_live failed_start <->
     has_subscribers failed_start \/ in_grace_window failed_start).
Proof.
  split; [apply failed_start_reachable|]. split; [reflexivity|].
  split; [intros H; by apply H|].
  intros [_ H]. apply H; [by right|reflexivity].
Qed.

(** *** C5 *)

(** C5: in every state the loop can reach, [doPublish] returns (no panic,
    no error), whatever the order of the range loop; each subscriber that
    is ready when the frame is offered to it has the frame added to what
    it received, each other subscriber receives nothing and keeps what it
    had, and the subscriber set, the parser handle and the timer are left
    as they were. What a subscriber gets depends on its own readiness
    only. *)
Theorem publish_offers_frame_to_each_subscriber p order ready data :
  reachable p -> visits order (subscribers p) ->
  exists p',
    doPublish order ready data p = Ret p' /\
    (forall s, s ∈ subscribers p -> ready s = true ->
       frames_of p' s = frames_of p s ++ [data]) /\
    (forall s, s ∈ subscribers p -> ready s = false ->
       frames_of p' s = frames_of p s) /\
    (forall s, s ∉ subscribers p -> frames_of p' s = frames_of p s) /\
    subscribers p' = subscribers p /\ closed p' = closed p /\
    pubChan p' = pubChan p /\ stopTimer p' = stopTimer p.
Proof.
  intros Hopen%reachable_open Hv.
  destruct (visits_open order p Hv Hopen) as [Hnd Ho].
  destruct (doPublish_spec ready data order p Hnd Ho)
    as (p' & Hrun & Hs & Hp & Ht & Hc & _ & _ & Hfr).
  destruct Hv as [_ Hv].
  exists p'. split; [done|]. split; [|split; [|split]]; [| | |done].
  - intros s Hin Hr. rewrite Hfr. destruct (decide _) as [|Hn]; [done|].
    exfalso. apply Hn. by rewrite Hv.
  - intros s Hin Hr. rewrite Hfr. destruct (decide _) as [(_ & _ & ?)|];
      [congruence|done].
  - intros s Hin. rewrite Hfr. by destruct (decide _) as [(_ & ? & _)|].
Qed.

Definition only_first_ready (s : positive) : bool := bool_decide (s = 1%positive).

(** The state after a first subscription that started the parser and a
    second subscription. *)
Definition two_subscribed : PubSub :=
  {| subscribers := {[1%positive; 2%positive]}; pubChan := Some 0;
     stopTimer := false; closed := ∅; inbox := ∅; started := 1;
     stops := 0 |}.

Lemma visits_pair (s t : positive) (X : gset positive) :
  s <> t -> (forall x, x ∈ X <-> x = s \/ x = t) -> visits [s; t] X.
Proof.
  intros Hne HX. split.
  - apply NoDup_cons. split; [|apply NoDup_singleton].
    by intros ->%list_elem_of_singleton.
  - intros x. rewrite HX, elem_of_cons, list_elem_of_singleton. done.
Qed.

Lemma two_subscribed_members x :
  x ∈ subscribers two_subscribed <-> x = 2%positive \/ x = 1%positive.
Proof.
  cbn [two_subscribed subscribers].
  rewrite elem_of_union, !elem_of_singleton. tauto.
Qed.

Lemma two_subscribed_reachable : reachable two_subscribed.
Proof.
  apply (reachable_round first_subscribed
           (Subscribe 2%positive true false [2%positive; 1%positive])).
  - apply first_subscribed_reachable.
  - cbn [enabled first_subscribed subscribers closed].
    split; [by intros [=]%elem_of_singleton|].
    split; [apply not_elem_of_empty|].
    apply visits_pair; [done|]. intros x.
    rewrite elem_of_union, !elem_of_singleton. tauto.
  - vm_compute. reflexivity.
Qed.

(** Two subscribers, of which the one that the range loop visits first is
    not ready, and a third party that is not subscribed. *)
Lemma publish_offers_frame_to_each_subscriber_witness :
  exists p',
    doPublish [2%positive; 1%positive] only_first_ready (B "frame")
      two_subscribed
    = Ret p' /\
    only_first_ready 2%positive = false /\
    frames_of p' 2%positive = frames_of two_subscribed 2%positive /\
    only_first_ready 1%positive = true /\
    frames_of p' 1%positive
    = frames_of two_subscribed 1%positive ++ [B "frame"] /\
    frames_of p' 3%positive = frames_of two_subscribed 3%positive /\
    subscribers p' = subscribers two_subscribed /\
    closed p' = closed two_subscribed /\
    pubChan p' = pubChan two_subscribed /\
    stopTimer p' = stopTimer two_subscribed.
Proof.
  destruct (publish_offers_frame_to_each_subscriber two_subscribed
              [2%positive; 1%positive] only_first_ready (B "frame"))
    as (p' & Hrun & Hready & Hbusy & Hout & Hrest).
  - apply two_subscribed_reachable.
  - apply visits_pair; [done|]. apply two_subscribed_members.
  - exists p'. split; [exact Hrun|]. split; [reflexivity|].
    split; [apply Hbusy; [apply two_subscribed_members; by left
                         |reflexivity]|].
    split; [reflexivity|].
    split; [apply Hready; [apply two_subscribed_members; by right
                          |reflexivity]|].
    split; [|exact Hrest].
    apply Hout. intros [[=]|[=]]%two_subscribed_members.
Defined.

(** *** C6 *)

(** C6: in every state the loop can reach with no parser handle, when a
    new subscriber arrives, the parser is not started and the connection
    attempt fails, [doSubscribe] returns with the channel of every
    subscriber closed, the new one's included, with an empty subscriber
    set and still no parser handle (and with the idle timer armed). *)
Theorem failed_start_closes_every_subscriber p s order :
  reachable p -> pubChan p = None ->
  enabled p (Subscribe s false true order) ->
  exists p',
    doSubscribe false true order p s = Ret p' /\
    (forall x, x = s \/ x ∈ subscribers p -> x ∈ closed p') /\
    subscribers p' = ∅ /\ pubChan p' = None /\ stopTimer p' = true.
Proof.
  intros Hopen%reachable_open Hpub (Hs & Hc & [Hnd Hv]).
  unfold doSubscribe. cbn [pubChan]. rewrite Hpub.
  cbn [startChunker].
  match goal with
  | |- context [stopSubscribers order ?q] =>
      destruct (stopSubscribers_spec order q Hnd)
        as (p' & Hrun & Hs' & Hc' & Hp' & _ & _ & _ & Ht')
  end.
  { intros x _. cbn [subscribers closed]. specialize (Hopen x). set_solver. }
  cbn [subscribers closed pubChan stopTimer] in *.
  assert (subscribers p' = ∅) as Hempty.
  { rewrite Hs'. apply set_eq. intros x. rewrite elem_of_difference.
    rewrite elem_of_list_to_set, Hv. set_solver. }
  exists p'. split; [done|]. split; [|split; [done|split; [congruence|]]].
  - intros x Hx. rewrite Hc'. apply elem_of_union_r, elem_of_intersection.
    rewrite elem_of_list_to_set, Hv. set_solver.
  - rewrite Ht'. destruct (decide _) as [|Hn]; [done|].
    exfalso. apply Hn. split; [done|]. set_solver.
Qed.

Lemma failed_start_closes_every_subscriber_witness :
  exists p',
    doSubscribe false true [1%positive] NewPubSub 1%positive = Ret p' /\
    (forall x, x = 1%positive \/ x ∈ subscribers NewPubSub -> x ∈ closed p') /\
    subscribers p' = ∅ /\ pubChan p' = None /\ stopTimer p' = true.
Proof.
  apply (failed_start_closes_every_subscriber NewPubSub 1%positive
           [1%positive]).
  - apply reachable_new.
  - reflexivity.
  - split; [apply not_elem_of_empty|].
    split; [apply not_elem_of_empty|apply visits_singleton].
Defined.

End BrokerClaims.

(** ** The stream responder against its specification *)

Module ResponderClaims.
Import Go Responder.

(** *** The receive loop *)

(** The frame a round receives, if any. *)
Definition chunk_of (r : round) : option bytes :=
  match recv r with
  | Chunk d => Some d
  | _ => None
  end.

(** A round that receives a frame before the time limit and whose writes
    succeed. *)
Definition deliverable (endTime : Z) (r : round) : Prop :=
  is_Some (chunk_of r) /\ (now_limit r <= endTime)%Z /\
  create_err r = false /\ write_err r = false.

(** Once the headers are sent they stay sent. *)
Lemma loop_body_headersSent iv et l r c l' :
  loop_body iv et l r = (c, l') -> headersSent l = true ->
  headersSent l' = true.
Proof.
  unfold loop_body. intros Hb Hh.
  destruct (recv r); cbn [headersSent lastSendTime data chunkOk parts] in Hb;
    repeat match type of Hb with
      | context [if ?b then _ else _] => destruct b
      end;
    injection Hb as <- <-; done.
Qed.

Lemma serve_loop_headersSent iv et rounds : forall l f l',
  serve_loop iv et l rounds = (f, l') -> headersSent l = true ->
  f <> ServiceUnavailable.
Proof.
  induction rounds as [|r rounds IH]; intros l f l' Hs Hh; cbn in Hs.
  - by injection Hs as <- <-.
  - destruct (loop_body iv et l r) as [[] l1] eqn:Hb;
      pose proof (loop_body_headersSent _ _ _ _ _ _ Hb Hh) as Hh1.
    + injection Hs as <- <-. unfold after_loop. by rewrite Hh1.
    + by eapply IH.
    + by injection Hs as <- <-.
Qed.

(** With throttling off, a run of deliverable rounds writes every frame
    received, in order, and the loop goes on waiting. *)
Lemma unthrottled_rounds iv et rounds : forall l,
  (iv <= 0)%Z -> Forall (deliverable et) rounds ->
  exists l',
    serve_loop iv et l rounds = (Waiting, l') /\
    parts l' = parts l ++ omap chunk_of rounds.
Proof.
  induction rounds as [|r rounds IH]; intros l Hiv Hr.
  - exists l. cbn. by rewrite app_nil_r.
  - apply Forall_cons in Hr as [([d Hd] & Hlim & Hce & Hwe) Hr].
    unfold chunk_of in Hd. destruct (recv r) as [d'| |] eqn:Hrecv; [|done..].
    injection Hd as ->.
    cbn [serve_loop]. unfold loop_body. rewrite Hrecv, Hce, Hwe.
    cbn [headersSent lastSendTime data chunkOk parts].
    destruct (Z.ltb_spec et (now_limit r)); [lia|].
    destruct (Z.ltb_spec 0 iv); [lia|]. rewrite andb_false_r. cbn [andb].
    match goal with
    | |- context [serve_loop iv et ?l1 rounds] =>
        destruct (IH l1 Hiv Hr) as (l' & Hrun & Hparts)
    end.
    exists l'. split; [done|]. rewrite Hparts.
    cbn [parts omap list_omap]. unfold chunk_of at 2. rewrite Hrecv.
    by rewrite <- app_assoc.
Qed.

(** *** C7 *)

(** C7, on the failing input: when the client cancels before any frame
    was received, [chunkOk] still holds its zero value and the handler
    takes the branch that answers 503 "Stream failed", although the
    delivery channel was not closed. *)
Theorem cancel_before_first_frame_answers_503
    (sendInterval endTime t1 t2 t3 : Z) (ce we : bool) (rest : list round) :
  serve_loop sendInterval endTime locals0
    ({| recv := CtxDone; now_limit := t1; now_throttle := t2;
        now_send := t3; create_err := ce; write_err := we |} :: rest)
  = (ServiceUnavailable, locals0).
Proof. reflexivity. Qed.

(** *** C8 *)

Section Throttle.

Variable ParseFloat : string -> option float.
Variable unrepresentable : float -> Z.

(** C8, as the code has it. The interval is zero when [fps] is absent or
    does not parse. When it parses as [f] and the integer part [m] of
    1000/f is an [int64], the interval is [m] milliseconds as an [int64]
    count of nanoseconds: [m * 10^6] when that is in range, which is zero
    when [m] is zero, and that product wrapped around otherwise. When
    1000/f has no [int64] integer part (it is infinite, not a number, or
    too large) the conversion is the platform's, and the interval is what
    it gives, times [10^6], wrapped around. In the loop, a frame received
    before the time limit, the writes meeting no error, is skipped (nothing
    is written, nothing is kept for later) exactly when the headers are
    sent, the interval is positive and less than the interval has passed
    since the last frame sent; otherwise it is written, so the first frame
    always is. With an interval that is not positive every frame received
    before the time limit is written, as long as no write fails. *)
Theorem throttle_interval_in_whole_milliseconds
    (fps : string) (endTime : Z) (l : locals) (r : round) (d : bytes)
    (rounds : list round) :
  let iv := parseSendInterval ParseFloat unrepresentable fps in
  (ParseFloat fps = None -> iv = 0%Z) /\
  (forall f m,
     ParseFloat fps = Some f ->
     float_trunc (PrimFloat.div 1000%float f) = Some m ->
     (- 2 ^ 63 <= m < 2 ^ 63)%Z ->
     iv = wrap64 (m * Millisecond) /\
     ((- 2 ^ 63 <= m * Millisecond < 2 ^ 63)%Z ->
      iv = (m * Millisecond)%Z) /\
     (m = 0%Z -> iv = 0%Z)) /\
  (forall f,
     ParseFloat fps = Some f ->
     (forall m, float_trunc (PrimFloat.div 1000%float f) = Some m ->
                ~ (- 2 ^ 63 <= m < 2 ^ 63)%Z) ->
     iv = wrap64 (unrepresentable (PrimFloat.div 1000%float f)
                  * Millisecond)) /\
  (recv r = Chunk d -> (now_limit r <= endTime)%Z ->
   create_err r = false -> write_err r = false ->
   exists c l',
     loop_body iv endTime l r = (c, l') /\ c = Continue /\
     ((headersSent l = true /\ (0 < iv)%Z /\
       (now_throttle r - lastSendTime l < iv)%Z) ->
      parts l' = parts l /\ lastSendTime l' = lastSendTime l) /\
     (~ (headersSent l = true /\ (0 < iv)%Z /\
         (now_throttle r - lastSendTime l < iv)%Z) ->
      parts l' = parts l ++ [d] /\ lastSendTime l' = now_send r /\
      headersSent l' = true)) /\
  ((iv <= 0)%Z -> Forall (deliverable endTime) rounds ->
   exists l',
     serve_loop iv endTime l rounds = (Waiting, l') /\
     parts l' = parts l ++ omap chunk_of rounds).
Proof.
  intros iv. split; [|split; [|split; [|split]]].
  - intros Hp. unfold iv, parseSendInterval. by rewrite Hp.
  - intros f m Hp Ht Hr. unfold iv, parseSendInterval, int64_of_float.
    rewrite Hp, Ht.
    destruct (Z.leb_spec (- 2 ^ 63) m); [|lia].
    destruct (Z.ltb_spec m (2 ^ 63)); [|lia]. cbn [andb].
    split; [done|]. split.
    + intros Hm. unfold wrap64. rewrite Z.mod_small by lia. lia.
    + intros ->. reflexivity.
  - intros f Hp Hno. unfold iv, parseSendInterval, int64_of_float.
    rewrite Hp.
    destruct (float_trunc (PrimFloat.div 1000%float f)) as [m|]; [|done].
    specialize (Hno m eq_refl).
    destruct (Z.leb_spec (- 2 ^ 63) m); [|done].
    destruct (Z.ltb_spec m (2 ^ 63)); [|done]. exfalso. apply Hno. lia.
  - intros Hrecv Hlim Hce Hwe. unfold loop_body. rewrite Hrecv, Hce, Hwe.
    cbn [headersSent lastSendTime data chunkOk parts].
    destruct (Z.ltb_spec endTime (now_limit r)); [lia|].
    destruct (headersSent l); cbn [andb].
    + destruct (Z.ltb_spec 0 iv); cbn [andb].
      * destruct (Z.ltb_spec (now_throttle r - lastSendTime l) iv).
        -- eexists _, _. split; [done|]. split; [done|]. split; [done|].
           intros Hn. exfalso. by apply Hn.
        -- eexists _, _. split; [done|]. split; [done|].
           split; [intros (_ & _ & ?); lia|done].
      * eexists _, _. split; [done|]. split; [done|].
        split; [intros (_ & ? & _); lia|done].
    + eexists _, _. split; [done|]. split; [done|].
      split; [intros (? & _); done|done].
  - apply unthrottled_rounds.
Qed.

End Throttle.

(** [strconv.ParseFloat] on the strings used below: the empty string is an
    error; "2", "2000" and "0" are read exactly, "1e-13" as the nearest
    [float64]. *)
Definition ParseFloat_samples (s : string) : option float :=
  if String.eqb s "2" then Some 2%float
  else if String.eqb s "2000" then Some 2000%float
  else if String.eqb s "1e-13" then Some 0x1.c25c268497682p-44%float
  else if String.eqb s "0" then Some 0%float
  else None.

(** The conversion of amd64 for a float with no [int64] value. *)
Definition unrepresentable_amd64 (_ : float) : Z := (- 2 ^ 63)%Z.

(** A round that receives the frame [d], all three clock readings being
    [t] nanoseconds, with no write error. *)
Definition frame_at (t : Z) (d : bytes) : round :=
  {| recv := Chunk d; now_limit := t; now_throttle := t; now_send := t;
     create_err := false; write_err := false |}.

Definition year : Z := (365 * 24 * 3600 * 1000000000)%Z.

(** The state after a first frame sent at time 0. *)
Definition after_first_frame : locals :=
  {| data := B "one"; chunkOk := true; headersSent := true;
     lastSendTime := 0; parts := [B "one"] |}.

Lemma throttle_interval_in_whole_milliseconds_witness :
  parseSendInterval ParseFloat_samples unrepresentable_amd64 "" = 0%Z /\
  parseSendInterval ParseFloat_samples unrepresentable_amd64 "2"
  = (500 * Millisecond)%Z /\
  parseSendInterval ParseFloat_samples unrepresentable_amd64 "2000" = 0%Z /\
  parseSendInterval ParseFloat_samples unrepresentable_amd64 "1e-13"
  = 1864712049423024128%Z /\
  parseSendInterval ParseFloat_samples unrepresentable_amd64 "0"
  = wrap64 (unrepresentable_amd64 (PrimFloat.div 1000%float 0%float)
            * Millisecond) /\
  (exists c l',
     loop_body (500 * Millisecond) year after_first_frame
       (frame_at (100 * Millisecond) (B "two")) = (c, l') /\
     parts l' = parts after_first_frame) /\
  (exists c l',
     loop_body (500 * Millisecond) year after_first_frame
       (frame_at (500 * Millisecond) (B "two")) = (c, l') /\
     parts l' = parts after_first_frame ++ [B "two"]) /\
  (exists l',
     serve_loop 0 year locals0 [frame_at 0 (B "one"); frame_at 1 (B "two")]
     = (Waiting, l') /\
     parts l' = [B "one"; B "two"]).
Proof.
  pose proof (throttle_interval_in_whole_milliseconds ParseFloat_samples
                unrepresentable_amd64 "" year locals0
                (frame_at 0 (B "one")) (B "one") []) as (H0 & _).
  pose proof (throttle_interval_in_whole_milliseconds ParseFloat_samples
                unrepresentable_amd64 "2" year after_first_frame
                (frame_at (100 * Millisecond) (B "two")) (B "two") [])
    as (_ & H2 & _ & Hskip & _).
  pose proof (throttle_interval_in_whole_milliseconds ParseFloat_samples
                unrepresentable_amd64 "2" year after_first_frame
                (frame_at (500 * Millisecond) (B "two")) (B "two") [])
    as (_ & _ & _ & Hsend & _).
  pose proof (throttle_interval_in_whole_milliseconds ParseFloat_samples
                unrepresentable_amd64 "2000" year locals0
                (frame_at 0 (B "one")) (B "one") []) as (_ & H2000 & _).
  pose proof (throttle_interval_in_whole_milliseconds ParseFloat_samples
                unrepresentable_amd64 "1e-13" year locals0
                (frame_at 0 (B "one")) (B "one") []) as (_ & Hwrap & _).
  pose proof (throttle_interval_in_whole_milliseconds ParseFloat_samples
                unrepresentable_amd64 "0" year locals0
                (frame_at 0 (B "one")) (B "one") []) as (_ & _ & Hzero & _).
  pose proof (throttle_interval_in_whole_milliseconds ParseFloat_samples
                unrepresentable_amd64 "" year locals0
                (frame_at 0 (B "one")) (B "one")
                [frame_at 0 (B "one"); frame_at 1 (B "two")])
    as (_ & _ & _ & _ & Hall).
  cbv zeta in *.
  specialize (H0 eq_refl).
  destruct (H2 2%float 500%Z eq_refl eq_refl) as (_ & Hiv & _).
  { vm_compute. split; [discriminate|reflexivity]. }
  assert (parseSendInterval ParseFloat_samples unrepresentable_amd64 "2"
          = (500 * Millisecond)%Z) as Hiv2.
  { apply Hiv. vm_compute. split; [discriminate|reflexivity]. }
  destruct (H2000 2000%float 0%Z eq_refl eq_refl) as (_ & _ & Hiv2000).
  { vm_compute. split; [discriminate|reflexivity]. }
  destruct (Hwrap 0x1.c25c268497682p-44%float 10000000000000000%Z
              eq_refl eq_refl) as (Hivw & _).
  { vm_compute. split; [discriminate|reflexivity]. }
  rewrite Hiv2 in Hskip, Hsend. rewrite H0 in Hall.
  split; [exact H0|]. split; [exact Hiv2|].
  split; [exact (Hiv2000 eq_refl)|]. split; [exact Hivw|].
  split; [apply (Hzero 0%float eq_refl); intros m; discriminate|].
  split; [|split].
  - destruct Hskip as (c & l' & Hb & _ & Hs & _);
      [reflexivity|vm_compute; discriminate|reflexivity|reflexivity|].
    exists c, l'. split; [exact Hb|]. apply Hs.
    split; [reflexivity|]. split; vm_compute; reflexivity.
  - destruct Hsend as (c & l' & Hb & _ & _ & Hs);
      [reflexivity|vm_compute; discriminate|reflexivity|reflexivity|].
    exists c, l'. split; [exact Hb|]. apply Hs.
    intros (_ & _ & Hlt). vm_compute in Hlt. discriminate.
  - destruct Hall as (l' & Hrun & Hparts).
    + vm_compute. discriminate.
    + apply List.Forall_cons; [|apply List.Forall_cons; [|apply List.Forall_nil]];
        (split; [by eexists|]);
        (split; [vm_compute; discriminate|]); split; reflexivity.
    + exists l'. split; [exact Hrun|exact Hparts].
Defined.

(** C8 as stated fails: [fps=2000] parses as a positive number and the
    claim asks for frames at least 0.5 ms apart; the interval computed is
    zero, and a second frame that arrives 0.1 ms after the first frame
    was sent is written, too. *)
Lemma fps_above_1000_is_not_throttled :
  ParseFloat_samples "2000" = Some 2000%float /\
  parseSendInterval ParseFloat_samples unrepresentable_amd64 "2000" = 0%Z /\
  fst (serve_loop
         (parseSendInterval ParseFloat_samples unrepresentable_amd64 "2000")
         year locals0
         [frame_at 0 (B "one"); frame_at 100000 (B "two")]) = Waiting /\
  parts (snd (serve_loop
         (parseSendInterval ParseFloat_samples unrepresentable_amd64 "2000")
         year locals0
         [frame_at 0 (B "one"); frame_at 100000 (B "two")]))
  = [B "one"; B "two"].
Proof.
  split; [reflexivity|]. split; [reflexivity|].
  split; vm_compute; reflexivity.
Qed.

End ResponderClaims.

(** ** More on the chunk parser: what every run does *)

Module ParserMore.
Import Go Bufio Parser GoFacts AtoiFacts BufioFacts DataFacts HeaderFacts.
Import ChunkerFacts.

(** *** What the reads consume *)

(** At the end of the body [Read] returns [io.EOF]. *)
Lemma Read_eof b k :
  Reader_ok b -> content b = [] -> 0 < k ->
  exists b', Read b k = (([], Some EOF), b') /\ Reader_ok b' /\
             content b' = [].
Proof.
  intros [Hlen Herr] Hc Hk. unfold content in Hc.
  apply app_eq_nil in Hc as [Hbuf Hrd].
  assert (packets (rd b) = []) as Hrd'.
  { destruct (packets (rd b)) as [|p ?]; [done|]. rewrite fmap_cons in Hrd.
    cbn [concat] in Hrd. by destruct p. }
  unfold Read. destruct (decide (k = 0)); [lia|]. rewrite Hbuf.
  destruct Herr as [Herr|(Herr & _ & _)]; rewrite Herr.
  2:{ eexists. split; [reflexivity|]. split; [split; [cbn; lia|by left]|].
      unfold content. cbn [buf rd]. by rewrite Hrd'. }
  unfold body_Read. rewrite Hrd'.
  destruct (decide (defaultBufSize <= k));
    (eexists; split; [reflexivity|]; split; [split; [cbn; lia|by left]|];
     unfold content; cbn [buf rd]; by rewrite Hrd').
Qed.

(** The head that [readChunkHeader] returns without an error is what it
    has consumed. *)
Lemma readChunkHeader_loop_consumes fuel : forall b head size head' size' b',
  Reader_ok b ->
  readChunkHeader_loop fuel b head size = Ret ((head', size', None), b') ->
  exists more, head' = head ++ more /\ content b = more ++ content b'.
Proof.
  induction fuel as [|fuel IH]; intros b head size head' size' b' Hok;
    [done|]. cbn [readChunkHeader_loop].
  destruct (ReadSlice_spec LF b Hok)
    as (l & e & b1 & -> & Hc & Hok1 & _ & He).
  cbn [mbind outcome_bind]. destruct e as [e|]; [done|].
  destruct (decide (length (TrimRight l CRLF) = 0)).
  - destruct (size =? -1)%Z; [done|]. intros [= <- <- <-]. by exists l.
  - destruct (header_line (TrimRight l CRLF) size) as [[size1 [e|]]| |];
      cbn [mbind outcome_bind]; [done| |done..].
    intros Hrun. destruct (IH _ _ _ _ _ _ Hok1 Hrun) as (more & -> & Hc1).
    exists (l ++ more). rewrite <- !app_assoc. split; [done|].
    by rewrite Hc, Hc1.
Qed.

Lemma readChunkHeader_consumes b head size b' :
  Reader_ok b ->
  readChunkHeader b = Ret ((head, size, None), b') ->
  content b = head ++ content b'.
Proof.
  intros Hok. unfold readChunkHeader.
  destruct (ReadSlice_spec LF b Hok)
    as (l & e & b1 & -> & Hc & Hok1 & _ & He).
  cbn [mbind outcome_bind]. destruct e as [e|]; [done|].
  intros Hrun.
  destruct (readChunkHeader_loop_consumes _ _ _ _ _ _ _ Hok1 Hrun)
    as (more & -> & Hc1).
  cbn [app]. by rewrite Hc, Hc1, app_assoc.
Qed.

Lemma length_store buf pos bs :
  pos + length bs <= length buf -> length (store buf pos bs) = length buf.
Proof.
  intros H. unfold store. rewrite !length_app, length_take, length_drop. lia.
Qed.

Lemma take_store buf pos bs :
  pos + length bs <= length buf ->
  take (pos + length bs) (store buf pos bs) = take pos buf ++ bs.
Proof.
  intros H. unfold store. rewrite app_assoc.
  rewrite take_app_length'; [done|].
  rewrite length_app, length_take. lia.
Qed.

(** The bytes that [readChunkData] returns without an error are [size]
    bytes that it has consumed. *)
Lemma readChunkData_loop_consumes fuel : forall b size buf pos data b',
  Reader_ok b -> (0 <= pos <= size)%Z -> Z.of_nat (length buf) = size ->
  readChunkData_loop fuel b size buf pos = Ret ((data, None), b') ->
  exists more,
    data = take (Z.to_nat pos) buf ++ more /\
    content b = more ++ content b' /\ Z.of_nat (length data) = size.
Proof.
  induction fuel as [|fuel IH]; intros b size buf pos data b' Hok Hpos Hlen;
    cbn [readChunkData_loop];
    destruct (Z.ltb_spec pos size) as [Hlt|Hge]; try done;
    try (intros [= <- <-]; exists []; rewrite app_nil_r;
         split; [rewrite firstn_all2; [done|lia]|done]).
  destruct (Read b (Z.to_nat (size - pos))) as [[bs e] b1] eqn:Hr.
  apply Read_spec in Hr as (Hc1 & Hok1 & Hbs & He); [|done|lia].
  destruct e as [e|]; [done|]. intros Hrun.
  assert (Z.to_nat pos + length bs <= length buf) as Hfit by lia.
  destruct (IH b1 size (store buf (Z.to_nat pos) bs)
              (pos + Z.of_nat (length bs))%Z data b' Hok1)
    as (more & Hdata & Hc & Hsize); [lia|by rewrite length_store|done|].
  exists (bs ++ more). split; [|split; [|done]].
  - rewrite Hdata.
    replace (Z.to_nat (pos + Z.of_nat (length bs)))
      with (Z.to_nat pos + length bs) by lia.
    by rewrite take_store, <- app_assoc.
  - by rewrite Hc1, Hc, app_assoc.
Qed.

Lemma readChunkData_consumes b size data b' :
  Reader_ok b ->
  readChunkData b size = Ret ((data, None), b') ->
  content b = data ++ content b' /\ Z.of_nat (length data) = size.
Proof.
  intros Hok. unfold readChunkData, make_bytes.
  destruct (Z.ltb_spec size 0); cbn [orb mbind outcome_bind]; [done|].
  destruct (Z.ltb_spec maxAlloc size); cbn [mbind outcome_bind]; [done|].
  intros Hrun.
  destruct (readChunkData_loop_consumes (Z.to_nat size) b size
              (replicate (Z.to_nat size) Ascii.zero) 0%Z data b' Hok)
    as (more & -> & Hc & Hsize);
    [lia|rewrite length_replicate; lia|done|].
  cbn [take Z.to_nat app] in *. done.
Qed.

(** When the body ends before [size] bytes have come, [readChunkData]
    returns [io.EOF]. *)
Lemma readChunkData_loop_short fuel : forall b size buf pos,
  Reader_ok b -> (Z.of_nat (length (content b)) < size - pos)%Z ->
  Z.to_nat (size - pos) <= fuel ->
  exists data b',
    readChunkData_loop fuel b size buf pos = Ret ((data, Some EOF), b').
Proof.
  induction fuel as [|fuel IH]; intros b size buf pos Hok Hshort Hfuel;
    [lia|]. cbn [readChunkData_loop].
  destruct (Z.ltb_spec pos size) as [Hlt|Hge]; [|lia].
  destruct (decide (content b = [])) as [Hnil|Hne].
  - destruct (Read_eof b (Z.to_nat (size - pos)) Hok Hnil) as (b' & -> & _);
      [lia|]. eauto.
  - destruct (Read b (Z.to_nat (size - pos))) as [[bs e] b1] eqn:Hr.
    apply Read_spec in Hr as (Hc1 & Hok1 & Hbs & He); [|done|lia].
    destruct e as [e|]; [destruct He as (-> & _); eauto|].
    apply (IH b1); [done| |].
    + rewrite Hc1, length_app in Hshort. lia.
    + destruct bs; [done|]. cbn [length]. lia.
Qed.

Lemma readChunkData_short b size :
  Reader_ok b -> (Z.of_nat (length (content b)) < size)%Z ->
  (size <= maxAlloc)%Z ->
  exists data b', readChunkData b size = Ret ((data, Some EOF), b').
Proof.
  intros Hok Hshort Hmax. unfold readChunkData, make_bytes.
  destruct (Z.ltb_spec size 0); [lia|].
  destruct (Z.ltb_spec maxAlloc size); [lia|]. cbn [orb mbind outcome_bind].
  apply readChunkData_loop_short; [done|lia..].
Qed.

(** *** The frames are the bytes of the body, in order *)

Lemma chunker_loop_relays sel fuel : forall i b,
  Reader_ok b ->
  exists rest,
    content b = concat (emitted (chunker_loop fuel sel i b)) ++ rest.
Proof.
  induction fuel as [|fuel IH]; intros i b Hok; [by exists (content b)|].
  cbn [chunker_loop].
  pose proof (readChunkHeader_total b Hok) as Hh.
  destruct (readChunkHeader b) as [[[[head size] e] b1]| |] eqn:Hhead;
    [|by exists (content b)..].
  destruct e as [e|]; [by exists (content b)|].
  destruct Hh as (Hok1 & _).
  apply readChunkHeader_consumes in Hhead; [|done].
  pose proof (readChunkData_total b1 size Hok1) as Hd.
  destruct (readChunkData b1 size) as [[[data e] b2]| |] eqn:Hdata;
    [|by exists (content b)..].
  destruct e as [e|]; [by exists (content b)|].
  destruct Hd as (_ & Hok2 & _).
  apply readChunkData_consumes in Hdata as [Hdata _]; [|done].
  destruct (sel i); [by exists (content b)|].
  destruct (size =? 0)%Z.
  - exists (content b2). cbn [emit halt emitted concat].
    rewrite app_nil_r, Hhead, Hdata. by rewrite <- app_assoc.
  - destruct (IH (S i) b2 Hok2) as (rest & Hrest). exists rest.
    cbn [emit emitted concat]. rewrite Hhead, Hdata, Hrest.
    by rewrite <- !app_assoc.
Qed.

(** *** Heads with any number of Content-Length lines *)

(** A header line: one that is not about Content-Length, or a
    Content-Length line with its key and its value. *)
Inductive field : Type :=
| Other (t : bytes)
| Length (k v : bytes).

Definition field_text (f : field) : bytes :=
  match f with
  | Other t => t
  | Length k v => k ++ B ": " ++ v
  end.

(** The value of a Content-Length line is one that [Atoi] accepts. *)
Definition field_ok (f : field) : Prop :=
  match f with
  | Other t => other_header t
  | Length k v =>
      is_content_length k /\ header_text (k ++ B ": " ++ v) /\
      snd (Atoi v) = None
  end.

(** The size that the header lines declare: that of the last
    Content-Length line, or the [size] before them. *)
Definition declared (size : Z) (fs : list field) : Z :=
  fold_left (fun sz f => match f with
                         | Other _ => sz
                         | Length _ v => fst (Atoi v)
                         end) fs size.

Definition head_of (bd : bytes) (fs : list field) : bytes :=
  line bd ++ lines (field_text <$> fs) ++ CRLF.

Lemma lines_cons t ts : lines (t :: ts) = line t ++ lines ts.
Proof. reflexivity. Qed.

Lemma header_line_value k v size :
  is_content_length k ->
  header_line (k ++ B ": " ++ v) size
  = Ret (match snd (Atoi v) with
         | Some e => (size, Some e)
         | None => (fst (Atoi v), None)
         end).
Proof.
  intros Hk. unfold header_line.
  change (B ": ") with (":"%char :: [" "%char]).
  change ((":"%char :: [" "%char]) ++ v) with (":"%char :: [" "%char] ++ v).
  rewrite SplitN2_after by by apply content_length_no_colon.
  cbn [index lookup list_lookup mbind outcome_bind].
  apply EqualFold_spec in Hk as ->. by destruct (Atoi v) as [n [e|]].
Qed.

Lemma header_line_field f size :
  field_ok f ->
  header_line (field_text f) size = Ret (declared size [f], None).
Proof.
  destruct f as [t|k v]; cbn [field_ok field_text declared fold_left].
  - intros [_ Hn]. by apply header_line_other.
  - intros (Hk & _ & Hv). rewrite header_line_value by done. by rewrite Hv.
Qed.

Lemma field_ok_text f : field_ok f -> header_text (field_text f).
Proof. destruct f; cbn [field_ok field_text]; [by intros [? _]|by intros (_ & ? & _)]. Qed.

Lemma header_loop_fields fs : forall fuel b rest head size,
  Forall field_ok fs ->
  Reader_ok b -> content b = lines (field_text <$> fs) ++ rest ->
  length (content b) < fuel ->
  exists b' fuel',
    readChunkHeader_loop fuel b head size
    = readChunkHeader_loop fuel' b' (head ++ lines (field_text <$> fs))
        (declared size fs) /\
    content b' = rest /\ Reader_ok b' /\ length (content b') < fuel'.
Proof.
  induction fs as [|f fs IH]; intros fuel b rest head size Hfs Hok Hc Hfuel.
  - exists b, fuel. unfold lines. cbn. by rewrite app_nil_r.
  - apply Forall_cons in Hfs as [Hf Hfs].
    destruct fuel as [|fuel]; [lia|].
    rewrite fmap_cons, lines_cons, <- app_assoc in Hc.
    destruct (header_loop_step fuel b (field_text f)
                (lines (field_text <$> fs) ++ rest) head size
                (declared size [f]))
      as (b1 & Hrun & Hc1 & Hok1 & Hfuel1);
      [done|done|by apply field_ok_text|by apply header_line_field|done|].
    destruct (IH fuel b1 rest (head ++ line (field_text f))
                (declared size [f]))
      as (b' & fuel' & Hrun' & Hc' & Hok' & Hfuel'); [done..|].
    exists b', fuel'. rewrite Hrun, Hrun'.
    by rewrite fmap_cons, lines_cons, <- !app_assoc.
Qed.

(** [readChunkHeader] on a head of valid header lines: the size is the one
    declared last, and -1 stands for none. *)
Lemma readChunkHeader_fields b bd fs rest :
  Reader_ok b -> boundary_text bd -> Forall field_ok fs ->
  content b = head_of bd fs ++ rest ->
  exists b',
    readChunkHeader b
    = Ret ((head_of bd fs, declared (-1) fs,
            if (declared (-1) fs =? -1)%Z
            then Some ErrNoContentLength else None), b') /\
    content b' = rest /\ Reader_ok b'.
Proof.
  intros Hok [HLF Hlen] Hfs Hc. unfold head_of in *.
  rewrite <- !app_assoc in Hc.
  destruct (ReadSlice_text b bd _ Hok Hc) as (b1 & Hr & Hc1 & Hok1);
    [done..|].
  unfold readChunkHeader. rewrite Hr. cbn [mbind outcome_bind app].
  destruct (header_loop_fields fs (S (length (content b1))) b1 _
              (line bd) (-1)%Z Hfs Hok1 Hc1)
    as (b2 & fuel2 & -> & Hc2 & Hok2 & Hfuel2); [lia|].
  destruct fuel2 as [|fuel2]; [lia|].
  destruct (header_loop_blank fuel2 b2 rest
              (line bd ++ lines (field_text <$> fs))
              (declared (-1) fs) Hok2 Hc2) as (b' & -> & Hc' & Hok').
  exists b'. by rewrite <- !app_assoc.
Qed.

Lemma declared_app size fs1 fs2 :
  declared size (fs1 ++ fs2) = declared (declared size fs1) fs2.
Proof. unfold declared. by rewrite fold_left_app. Qed.

Lemma declared_others size (ts : list bytes) :
  declared size (Other <$> ts) = size.
Proof.
  revert size. induction ts as [|t ts IH]; intros size; [done|].
  rewrite fmap_cons. cbn [declared fold_left]. apply IH.
Qed.

Lemma Forall_others (ts : list bytes) :
  Forall other_header ts -> Forall field_ok (Other <$> ts).
Proof. intros H. by apply Forall_fmap. Qed.

Lemma texts_others (ts : list bytes) :
  field_text <$> (Other <$> ts) = ts.
Proof. induction ts as [|t ts IH]; [done|]. rewrite !fmap_cons. by f_equal. Qed.

(** *** A value that Atoi rejects *)

Lemma parse_digits_nondigit s : forall n c,
  c ∈ s -> is_digit c = false ->
  snd (parse_digits s n) = Some ErrSyntax \/
  snd (parse_digits s n) = Some ErrRange.
Proof.
  induction s as [|d s IH]; intros n c Hc Hd.
  - by apply elem_of_nil in Hc.
  - cbn [parse_digits]. destruct (is_digit d) eqn:Hdd; [|by left].
    destruct (2 ^ 64 <=? n * 10 + digit_val d)%Z; [by right|].
    apply (IH _ c); [|done].
    apply elem_of_cons in Hc as [->|Hc]; [congruence|done].
Qed.

(** A value with a byte that is neither a digit nor a sign is rejected. *)
Lemma Atoi_nondigit v c :
  c ∈ v -> is_digit c = false -> c <> "-"%char -> c <> "+"%char ->
  snd (Atoi v) = Some ErrSyntax \/ snd (Atoi v) = Some ErrRange.
Proof.
  intros Hc Hd Hm Hp. unfold Atoi. destruct v as [|c0 v]; [by left|].
  set (digits := if Ascii.eqb c0 "-" || Ascii.eqb c0 "+" then v else c0 :: v).
  assert (c ∈ digits) as Hin.
  { unfold digits. destruct (Ascii.eqb_spec c0 "-") as [->|];
      [|destruct (Ascii.eqb_spec c0 "+") as [->|]]; cbn [orb]; [| |done];
      apply elem_of_cons in Hc as [->|Hc]; done. }
  unfold ParseUint. destruct digits as [|d ds] eqn:Hds;
    [by apply elem_of_nil in Hin|].
  destruct (parse_digits_nondigit (d :: ds) 0 c Hin Hd) as [He|He];
    destruct (parse_digits (d :: ds) 0) as [un [e|]]; cbn [snd] in He;
    simplify_eq; [by left|by right].
Qed.

(** *** A line that does not fit the buffer *)

(** [ReadSlice] on a line of [defaultBufSize] bytes or more: the buffer
    fills up and the error is [ErrBufferFull]; or the body ends with
    exactly the bytes that fill the buffer and hands them over together
    with [io.EOF], which is then the error. *)
Lemma ReadSlice_long b long tail :
  Reader_ok b -> content b = long ++ tail -> (LF ∉ long) ->
  defaultBufSize <= length long ->
  exists l e b',
    ReadSlice b LF = Ret ((l, Some e), b') /\
    (e = ErrBufferFull \/
     (e = EOF /\ length (long ++ tail) = defaultBufSize /\
      eof_with_last (rd b) = true)).
Proof.
  intros Hok Hc Hl Hlong.
  destruct (ReadSlice_spec LF b Hok)
    as (l & e & b' & Hr & Hc' & _ & Hlen & He).
  rewrite Hc in Hc'. destruct e as [e|].
  - exists l, e, b'. split; [done|].
    destruct He as [_ [[-> _]|(-> & Hnil & Hor)]]; [by left|right].
    rewrite Hnil, app_nil_r in Hc'. rewrite Hc'. split; [done|].
    assert (defaultBufSize <= length l) as Hge.
    { rewrite <- Hc', length_app. lia. }
    split; [lia|]. destruct Hor; [lia|done].
  - exfalso. destruct He as (l' & -> & _). rewrite <- app_assoc in Hc'.
    cbn [app] in Hc'. rewrite length_app in Hlen. cbn [length] in Hlen.
    apply Hl. eapply elem_of_long_prefix; [exact Hc'|lia].
Qed.

End ParserMore.

(** ** More properties of the chunk parser *)

Module ParserExtras.
Import Go Bufio Parser GoFacts AtoiFacts BufioFacts DataFacts HeaderFacts.
Import ChunkerFacts ParserClaims ParserMore.

Lemma header_text_check t :
  forallb (fun d => negb (Ascii.eqb d LF)) t = true ->
  match last t with Some c => negb (Ascii.eqb c CR) | None => false end = true ->
  length t + 2 <=? defaultBufSize = true ->
  header_text t.
Proof.
  intros Ht Hlast Hlen%Nat.leb_le. split; [|split; [|split]]; [| | |done].
  - by destruct t.
  - by apply not_elem_of_bytes.
  - destruct (last t) as [c|]; [|done]. intros [= ->]. done.
Qed.


(** X1. Whatever the body and whatever the consumer does, the frames that
    a run of [chunker] emits are consecutive pieces of the body: put end
    to end they are a prefix of the bytes of the body. *)
Theorem frames_are_the_body_in_order body sel :
  exists rest,
    concat (pkt_bytes <$> packets body)
    = concat (emitted (chunker body sel)) ++ rest.
Proof.
  destruct (chunker_loop_relays sel
              (S (length (content (NewReader body)))) 0 (NewReader body)
              (NewReader_ok body)) as [rest Hrest].
  exists rest. exact Hrest.
Qed.

(** X2. When the body ends before the payload that a well-formed head
    declares is complete, the run ends with [io.EOF] and emits nothing for
    that chunk: no partial frame is sent. *)
Theorem truncated_payload_is_not_emitted b sel i c partial :
  Reader_ok b -> well_formed c ->
  length partial < length (payload c) ->
  content b = chunk_head c ++ partial ->
  run_from b sel i = {| emitted := []; ended := Failed EOF |}.
Proof.
  intros Hok Hwf Hshort Hc.
  destruct (readChunkHeader_chunk b c partial Hok Hwf Hc)
    as (b1 & Hh & Hc1 & Hok1).
  destruct (readChunkData_short b1 (Z.of_nat (length (payload c))) Hok1)
    as (data & b2 & Hd); [rewrite Hc1; lia|apply Hwf|].
  unfold run_from. cbn [chunker_loop]. by rewrite Hh, Hd.
Qed.

Lemma truncated_payload_is_not_emitted_witness :
  run_from
    (NewReader (body_of [chunk_head sample_chunk; B "hel"]))
    always_send 0
  = {| emitted := []; ended := Failed EOF |}.
Proof.
  apply (truncated_payload_is_not_emitted _ always_send 0 sample_chunk
           (B "hel")).
  - apply NewReader_ok.
  - apply sample_chunk_well_formed.
  - vm_compute. lia.
  - vm_compute. reflexivity.
Defined.

(** X3. When the stop signal is what the [select] receives, the chunk
    that was just read is dropped and the run ends with no failure. The
    chunk is one that the reads return whole: its payload is shorter than
    the 4096 bytes of the reader's buffer, or is followed by more bytes of
    the body, or comes from a body that reports its end by a read of its
    own. *)
Theorem stop_signal_discards_chunk b sel i c rest :
  Reader_ok b -> well_formed c -> content b = chunk_bytes c ++ rest ->
  length (payload c) < defaultBufSize \/ rest <> [] \/
  eof_with_last (rd b) = false ->
  sel i = RecvStop ->
  run_from b sel i = {| emitted := []; ended := Stopped |}.
Proof.
  intros Hok Hwf Hc Hend Hsel.
  destruct (run_from_chunk b sel i c rest Hok Hwf Hc Hend)
    as (b' & _ & _ & _ & ->).
  by rewrite Hsel.
Qed.

Lemma stop_signal_discards_chunk_witness :
  run_from (NewReader sample_body) (fun _ => RecvStop) 0
  = {| emitted := []; ended := Stopped |}.
Proof.
  apply (stop_signal_discards_chunk _ (fun _ => RecvStop) 0 sample_chunk []).
  - apply NewReader_ok.
  - apply sample_chunk_well_formed.
  - vm_compute. reflexivity.
  - right. right. reflexivity.
  - reflexivity.
Defined.




(** X5. The size -1 is what [readChunkHeader] starts with to mean that no
    Content-Length was seen: a head whose last Content-Length line says -1
    is taken as one with no Content-Length, and the run ends with
    "Content-Length chunk header not found" without a frame. *)
Theorem minus_one_counts_as_missing b sel i bd fs k ts rest :
  Reader_ok b -> boundary_text bd -> Forall field_ok fs ->
  is_content_length k -> header_text (k ++ B ": " ++ B "-1") ->
  Forall other_header ts ->
  content b
  = head_of bd (fs ++ [Length k (B "-1")] ++ (Other <$> ts)) ++ rest ->
  run_from b sel i
  = {| emitted := []; ended := Failed ErrNoContentLength |}.
Proof.
  intros Hok Hbd Hfs Hk Ht Hts Hc.
  assert (Forall field_ok
            (fs ++ [Length k (B "-1")] ++ (Other <$> ts))) as Hall.
  { apply Forall_app. split; [done|]. apply Forall_app. split.
    - apply Forall_singleton. done.
    - by apply Forall_others. }
  destruct (readChunkHeader_fields b bd _ rest Hok Hbd Hall Hc)
    as (b' & Hh & _).
  rewrite !declared_app, declared_others in Hh.
  cbn [declared fold_left] in Hh.
  change (fst (Atoi (B "-1"))) with (-1)%Z in Hh.
  change (-1 =? -1)%Z with true in Hh.
  unfold run_from. cbn [chunker_loop]. by rewrite Hh.
Qed.

Definition minus_one_head : bytes :=
  head_of (B "--myboundary")
    ([] ++ [Length (B "Content-Length") (B "-1")] ++ (Other <$> [])).

Lemma minus_one_counts_as_missing_witness :
  run_from (NewReader (body_of [minus_one_head; B "hello"])) always_send 0
  = {| emitted := []; ended := Failed ErrNoContentLength |}.
Proof.
  apply (minus_one_counts_as_missing _ always_send 0 (B "--myboundary")
           [] (B "Content-Length") [] (B "hello")).
  - apply NewReader_ok.
  - check_text.
  - apply List.Forall_nil.
  - apply EqualFold_spec. reflexivity.
  - apply header_text_check; vm_compute; reflexivity.
  - apply List.Forall_nil.
  - vm_compute. reflexivity.
Defined.

(** X6. A Content-Length value with a byte that is neither a digit nor a
    sign (a trailing space, a unit, a hexadecimal prefix) ends the run
    with the error of [strconv.Atoi], at that header line and without a
    frame, whatever follows. *)
Theorem rejected_length_value_fails b sel i bd fs k v c tail :
  Reader_ok b -> boundary_text bd -> Forall field_ok fs ->
  is_content_length k -> header_text (k ++ B ": " ++ v) ->
  c ∈ v -> is_digit c = false -> c <> "-"%char -> c <> "+"%char ->
  content b
  = line bd ++ lines (field_text <$> fs) ++ line (k ++ B ": " ++ v) ++ tail ->
  exists e,
    (e = ErrSyntax \/ e = ErrRange) /\
    run_from b sel i = {| emitted := []; ended := Failed e |}.
Proof.
  intros Hok [HLF Hlen] Hfs Hk (Hne & HtLF & HtCR & Htlen) Hc Hd Hm Hp Hcont.
  destruct (ReadSlice_text b bd _ Hok Hcont) as (b1 & Hr & Hc1 & Hok1);
    [done..|].
  destruct (header_loop_fields fs (S (length (content b1))) b1 _
              (line bd) (-1)%Z Hfs Hok1 Hc1)
    as (b2 & fuel2 & Hrun & Hc2 & Hok2 & Hfuel2); [lia|].
  destruct fuel2 as [|fuel2]; [lia|].
  destruct (ReadSlice_text b2 (k ++ B ": " ++ v) tail Hok2 Hc2)
    as (b3 & Hr3 & _); [done..|].
  assert (exists e, (e = ErrSyntax \/ e = ErrRange) /\
                    snd (Atoi v) = Some e) as (e & He & Hv).
  { destruct (Atoi_nondigit v c Hc Hd Hm Hp) as [H|H]; eauto. }
  exists e. split; [done|].
  unfold run_from. cbn [chunker_loop]. unfold readChunkHeader.
  rewrite Hr. cbn [mbind outcome_bind app]. rewrite Hrun.
  cbn [readChunkHeader_loop]. rewrite Hr3. cbn [mbind outcome_bind].
  pose proof (TrimRight_line _ HtLF HtCR) as Htrim.
  change ((k ++ B ": " ++ v) ++ CRLF) with (line (k ++ B ": " ++ v)) in Htrim.
  rewrite Htrim.
  destruct (decide (length (k ++ B ": " ++ v) = 0)) as [H0|_].
  { destruct (k ++ B ": " ++ v); [done|discriminate]. }
  rewrite header_line_value by done. rewrite Hv. cbn [mbind outcome_bind].
  done.
Qed.

Lemma rejected_length_value_fails_witness :
  exists e,
    (e = ErrSyntax \/ e = ErrRange) /\
    run_from
      (NewReader (body_of [line (B "--myboundary")
                              ++ lines (field_text <$> [])
                              ++ line (B "Content-Length: 5 bytes")
                              ++ CRLF ++ B "hello"]))
      always_send 0
    = {| emitted := []; ended := Failed e |}.
Proof.
  apply (rejected_length_value_fails _ always_send 0 (B "--myboundary") []
           (B "Content-Length") (B "5 bytes") " "%char (CRLF ++ B "hello")).
  - apply NewReader_ok.
  - check_text.
  - apply List.Forall_nil.
  - apply EqualFold_spec. reflexivity.
  - apply header_text_check; vm_compute; reflexivity.
  - apply list_elem_of_further, list_elem_of_here.
  - reflexivity.
  - discriminate.
  - discriminate.
  - vm_compute. reflexivity.
Defined.

(** X7. A line of the head that does not fit the 4096 bytes of the
    reader's buffer (no line feed among the next 4096 bytes), be it the
    boundary line or a header line after valid ones, ends the run without
    a frame: the head is read with [ReadSlice], which does not grow its
    buffer. The error is [bufio.ErrBufferFull]; it is [io.EOF] instead
    only when the body ends with exactly those 4096 bytes and hands them
    over together with [io.EOF]. *)
Theorem long_line_fails b sel i before long tail :
  Reader_ok b ->
  before = [] \/
  (exists bd fs, boundary_text bd /\ Forall field_ok fs /\
                 before = line bd ++ lines (field_text <$> fs)) ->
  (LF ∉ long) -> defaultBufSize <= length long ->
  content b = before ++ long ++ tail ->
  exists e,
    run_from b sel i = {| emitted := []; ended := Failed e |} /\
    (e = ErrBufferFull \/
     (e = EOF /\ length (long ++ tail) = defaultBufSize /\
      eof_with_last (rd b) = true)).
Proof.
  intros Hok Hbefore Hl Hlong Hcont.
  destruct Hbefore as [->|(bd & fs & [HLF Hlen] & Hfs & ->)].
  - cbn [app] in Hcont.
    destruct (ReadSlice_long b long tail Hok Hcont Hl Hlong)
      as (l & e & b1 & Hr & He).
    exists e. split; [|done].
    unfold run_from. cbn [chunker_loop]. unfold readChunkHeader.
    rewrite Hr. done.
  - rewrite <- !app_assoc in Hcont.
    destruct (ReadSlice_text b bd _ Hok Hcont) as (b1 & Hr & Hc1 & Hok1);
      [done..|].
    destruct (header_loop_fields fs (S (length (content b1))) b1 _
                (line bd) (-1)%Z Hfs Hok1 Hc1)
      as (b2 & fuel2 & Hrun & Hc2 & Hok2 & Hfuel2); [lia|].
    destruct fuel2 as [|fuel2]; [lia|].
    destruct (ReadSlice_long b2 long tail Hok2 Hc2 Hl Hlong)
      as (l & e & b3 & Hr3 & He).
    assert (readChunkHeader b
            = Ret ((line bd ++ lines (field_text <$> fs),
                    declared (-1) fs, Some e), b3)) as Hh.
    { unfold readChunkHeader. rewrite Hr. cbn [mbind outcome_bind app].
      rewrite Hrun. cbn [readChunkHeader_loop]. rewrite Hr3. done. }
    exists e. split.
    + unfold run_from. cbn [chunker_loop]. by rewrite Hh.
    + destruct He as [?|(? & ? & Hf)]; [by left|right].
      split; [done|]. split; [done|].
      apply readChunkHeader_eof_with_last in Hh.
      apply ReadSlice_eof_with_last in Hr3. congruence.
Qed.

(** A header line of 4096 bytes and more after the boundary line. *)
Definition long_header_body : Body :=
  body_of [line (B "--myboundary") ++ lines (field_text <$> [])
           ++ replicate 4096 "a"%char ++ CRLF].

(** A body of exactly 4096 bytes with no line feed, handed over together
    with [io.EOF]. *)
Definition long_boundary_body : Body :=
  body_with_eof_of [replicate 4096 "-"%char].

Lemma long_line_fails_witness :
  run_from (NewReader long_header_body) always_send 0
  = {| emitted := []; ended := Failed ErrBufferFull |} /\
  run_from (NewReader long_boundary_body) always_send 0
  = {| emitted := []; ended := Failed EOF |}.
Proof.
  split.
  - destruct (long_line_fails (NewReader long_header_body) always_send 0
                (line (B "--myboundary") ++ lines (field_text <$> []))
                (replicate 4096 "a"%char) CRLF)
      as (e & Hrun & [->|(_ & Hlen & _)]).
    + apply NewReader_ok.
    + right. exists (B "--myboundary"), [].
      split; [check_text|]. split; [apply List.Forall_nil|reflexivity].
    + apply not_elem_of_bytes. vm_compute. reflexivity.
    + rewrite length_replicate. unfold defaultBufSize. lia.
    + vm_compute. reflexivity.
    + exact Hrun.
    + exfalso. rewrite length_app, length_replicate in Hlen.
      unfold defaultBufSize, CRLF in Hlen. cbn [length] in Hlen. lia.
  - destruct (long_line_fails (NewReader long_boundary_body) always_send 0
                [] (replicate 4096 "-"%char) [])
      as (e & Hrun & [->|(-> & _)]).
    + apply NewReader_ok.
    + by left.
    + apply not_elem_of_bytes. vm_compute. reflexivity.
    + rewrite length_replicate. unfold defaultBufSize. lia.
    + vm_compute. reflexivity.
    + exfalso. vm_compute in Hrun. discriminate.
    + exact Hrun.
Defined.

(** X23. When the head has been read, the reader's buffer is empty, and
    the body hands over the whole payload that the head declares, of 4096
    bytes or more, in its last read and together with [io.EOF],
    [readChunkData] has the complete payload in hand but returns it with
    the error [io.EOF]: the run ends with [io.EOF] and the complete chunk
    is not emitted. *)
Theorem payload_with_eof_is_discarded b0 sel i head b p :
  readChunkHeader b0
  = Ret ((head, Z.of_nat (length (pkt_bytes p)), None), b) ->
  buf b = [] -> err b = None ->
  packets (rd b) = [p] -> eof_with_last (rd b) = true ->
  defaultBufSize <= length (pkt_bytes p) ->
  (Z.of_nat (length (pkt_bytes p)) <= maxAlloc)%Z ->
  (exists b',
     readChunkData b (Z.of_nat (length (pkt_bytes p)))
     = Ret ((pkt_bytes p, Some EOF), b')) /\
  run_from b0 sel i = {| emitted := []; ended := Failed EOF |}.
Proof.
  intros Hh Hbuf Herr Hp Hflag Hbig Hmax.
  assert (exists b',
            readChunkData b (Z.of_nat (length (pkt_bytes p)))
            = Ret ((pkt_bytes p, Some EOF), b')) as [b' Hd].
  { unfold readChunkData, make_bytes.
    destruct (Z.ltb_spec (Z.of_nat (length (pkt_bytes p))) 0); [lia|].
    destruct (Z.ltb_spec maxAlloc (Z.of_nat (length (pkt_bytes p))));
      [lia|].
    cbn [orb mbind outcome_bind]. rewrite Nat2Z.id.
    remember (length (pkt_bytes p)) as n eqn:Hn.
    destruct n as [|m]; [unfold defaultBufSize in Hbig; lia|].
    cbn [readChunkData_loop].
    destruct (Z.ltb_spec 0 (Z.of_nat (S m))); [|lia].
    replace (Z.to_nat (Z.of_nat (S m) - 0)) with (S m) by lia.
    unfold Read. destruct (decide (S m = 0)); [lia|].
    rewrite Hbuf, Herr. destruct (decide (defaultBufSize <= S m)); [|lia].
    unfold body_Read. rewrite Hp, Hflag.
    rewrite drop_ge, take_ge by lia.
    eexists. unfold store. change (Z.to_nat 0) with 0.
    rewrite drop_ge by (rewrite length_replicate; lia).
    cbn [take app]. by rewrite app_nil_r. }
  split; [by exists b'|].
  unfold run_from. cbn [chunker_loop]. by rewrite Hh, Hd.
Qed.

(** A chunk with a payload of 4096 bytes, its head in one packet and its
    payload in the next and last one, which comes together with
    [io.EOF]. *)
Definition big_payload : packet := ("x"%char, replicate 4095 "x"%char).

Definition big_chunk : chunk :=
  {| boundary := B "--myboundary";
     before := [B "Content-Type: image/jpeg"];
     key := B "Content-Length";
     after := [];
     payload := pkt_bytes big_payload |}.

Definition big_body : Body :=
  body_with_eof_of [chunk_head big_chunk; pkt_bytes big_payload].

Lemma payload_with_eof_is_discarded_witness :
  (exists b',
     readChunkData
       {| buf := [];
          rd := {| packets := [big_payload]; eof_with_last := true |};
          err := None |}
       (Z.of_nat (length (pkt_bytes big_payload)))
     = Ret ((pkt_bytes big_payload, Some EOF), b')) /\
  run_from (NewReader big_body) always_send 0
  = {| emitted := []; ended := Failed EOF |}.
Proof.
  apply (payload_with_eof_is_discarded (NewReader big_body) always_send 0
           (chunk_head big_chunk)
           {| buf := [];
              rd := {| packets := [big_payload]; eof_with_last := true |};
              err := None |}
           big_payload).
  - vm_compute. reflexivity.
  - reflexivity.
  - reflexivity.
  - reflexivity.
  - reflexivity.
  - apply Nat.leb_le. vm_compute. reflexivity.
  - apply Z.leb_le. vm_compute. reflexivity.
Defined.

End ParserExtras.

(** ** The boundary of the upstream response, and the client address *)

Module UpstreamFacts.
Import Go Upstream GoFacts.

Lemma Split_not_nil s c : Split s c <> [].
Proof.
  destruct s as [|d s]; cbn [Split]; [done|].
  destruct (Ascii.eqb d c); [done|]. by destruct (Split s c).
Qed.

Lemma Split_no_sep s c : c ∉ s -> Split s c = [s].
Proof.
  induction s as [|d s IH]; intros Hs; [done|]. cbn [Split].
  destruct (Ascii.eqb_spec d c) as [->|_].
  - exfalso. apply Hs. apply list_elem_of_here.
  - rewrite IH; [done|]. intros Hin. apply Hs. by apply list_elem_of_further.
Qed.

Lemma Split_app s c rest :
  c ∉ s -> Split (s ++ c :: rest) c = s :: Split rest c.
Proof.
  induction s as [|d s IH]; intros Hs; cbn [app Split].
  - by rewrite Ascii.eqb_refl.
  - destruct (Ascii.eqb_spec d c) as [->|_].
    + exfalso. apply Hs. apply list_elem_of_here.
    + rewrite IH; [done|]. intros Hin. apply Hs.
      by apply list_elem_of_further.
Qed.

(** Joining the pieces with the separator gives the string back. *)
Lemma Join_Split s c : Join (Split s c) [c] = s.
Proof.
  induction s as [|d s IH]; [done|]. cbn [Split].
  destruct (Ascii.eqb_spec d c) as [->|_].
  - pose proof (Split_not_nil s c).
    destruct (Split s c) as [|p ps] eqn:Hs; [done|].
    cbn [Join app] in *. by rewrite IH.
  - destruct (Split s c) as [|p ps] eqn:Hs; [by destruct (Split_not_nil s c)|].
    destruct ps as [|q ps]; cbn [Join app] in *; by rewrite IH.
Qed.

Lemma HasPrefix_app s r : HasPrefix (s ++ r) s = true.
Proof. apply HasPrefix_spec. eauto. Qed.

Lemma HasPrefix_same p s q : HasPrefix (p ++ s) (p ++ q) = HasPrefix s q.
Proof.
  induction p as [|c p IH]; [done|]. cbn [app HasPrefix].
  by rewrite Ascii.eqb_refl, IH.
Qed.

Lemma TrimPrefix_app s r : TrimPrefix (s ++ r) s = r.
Proof.
  unfold TrimPrefix. by rewrite HasPrefix_app, drop_app_length.
Qed.

Definition media_type : bytes := B "multipart/x-mixed-replace".

Lemma no_semicolon_check (c : byte) (l : bytes) :
  forallb (fun d => negb (Ascii.eqb d c)) l = true -> c ∉ l.
Proof.
  induction l as [|d l IH]; cbn [forallb]; [intros _; apply not_elem_of_nil|].
  intros [Hd Hl]%andb_true_iff. apply not_elem_of_cons. split; [|by apply IH].
  intros ->. by rewrite Ascii.eqb_refl in Hd.
Qed.

(** The pieces of a Content-Type with the parameter [boundary=X] right
    after the media type. *)
Lemma Split_content_type mt sp X params :
  (";"%char ∉ mt) -> (sp = [] \/ sp = B " ") -> (";"%char ∉ X) ->
  (params = [] \/ exists more, params = ";"%char :: more) ->
  exists others,
    Split (mt ++ B ";" ++ sp ++ B "boundary=" ++ X ++ params) ";"
    = mt :: (sp ++ B "boundary=" ++ X) :: others.
Proof.
  intros Hmt Hsp HX Hparams.
  change (B ";") with [";"%char]. cbn [app].
  rewrite Split_app by done.
  assert (";"%char ∉ sp ++ B "boundary=" ++ X) as Hp1.
  { intros [Hin|[Hin|Hin]%elem_of_app]%elem_of_app; [|
      revert Hin; by apply no_semicolon_check|done].
    destruct Hsp as [->| ->]; revert Hin; by apply no_semicolon_check. }
  destruct Hparams as [->|[more ->]].
  - exists []. rewrite app_nil_r. by rewrite Split_no_sep.
  - exists (Split more ";").
    replace (sp ++ B "boundary=" ++ X ++ ";"%char :: more)
      with ((sp ++ B "boundary=" ++ X) ++ ";"%char :: more)
      by (by rewrite <- !app_assoc).
    by rewrite Split_app.
Qed.

Lemma TrimPrefix_space sp X :
  sp = [] \/ sp = B " " ->
  TrimPrefix (sp ++ B "boundary=" ++ X) (B " ") = B "boundary=" ++ X.
Proof. intros [->| ->]; reflexivity. Qed.

(** X8. For a Content-Type of the media type multipart/x-mixed-replace
    whose first parameter is [boundary=X], with or without one space
    before it and with or without further parameters after it,
    [getBoundary] returns "--" followed by [X]. *)
Theorem getBoundary_returns_the_boundary sp X params :
  sp = [] \/ sp = B " " -> (";"%char ∉ X) ->
  params = [] \/ (exists more, params = ";"%char :: more) ->
  getBoundary (media_type ++ B ";" ++ sp ++ B "boundary=" ++ X ++ params)
  = inl (B "--" ++ X).
Proof.
  intros Hsp HX Hparams.
  destruct (Split_content_type media_type sp X params) as [others Hs];
    [by apply no_semicolon_check|done..|].
  unfold getBoundary. rewrite Hs. rewrite TrimPrefix_space by done.
  change (HasPrefix media_type (B "multipart/x-mixed-replace")) with true.
  rewrite HasPrefix_app. cbn [negb orb].
  change (media_type ++ B ";" ++ B "boundary=" ++ X)
    with (B "multipart/x-mixed-replace;boundary=" ++ X).
  by rewrite TrimPrefix_app.
Qed.

Lemma getBoundary_returns_the_boundary_witness :
  getBoundary (media_type ++ B ";" ++ B " " ++ B "boundary=" ++ B "myboundary"
               ++ B ";charset=x")
  = inl (B "--" ++ B "myboundary").
Proof.
  apply (getBoundary_returns_the_boundary (B " ") (B "myboundary")
           (B ";charset=x")).
  - by right.
  - apply no_semicolon_check. vm_compute. reflexivity.
  - right. by eexists.
Defined.

(** X9. When [getBoundary] fails, the text of its error quotes the
    Content-Type exactly as it was received. *)
Theorem getBoundary_error_quotes_content_type contentType shown :
  getBoundary contentType = inr (InvalidContentType shown) ->
  shown = contentType.
Proof.
  unfold getBoundary. change (B ";") with [";"%char].
  pose proof (Join_Split contentType ";") as HJ.
  destruct (Split contentType ";") as [|ct0 [|ct1 cts]];
    [by intros [= <-]..|].
  destruct (_ || _); [by intros [= <-]|done].
Qed.

Lemma getBoundary_error_quotes_content_type_witness :
  B "text/html; charset=utf-8" = B "text/html; charset=utf-8".
Proof.
  apply (getBoundary_error_quotes_content_type
           (B "text/html; charset=utf-8") (B "text/html; charset=utf-8")).
  vm_compute. reflexivity.
Defined.

(** X10. The media type is only tested as a prefix. For a Content-Type
    whose first piece is multipart/x-mixed-replace followed by more bytes
    (as in multipart/x-mixed-replacement), [getBoundary] does not fail: it
    returns "--" followed by the whole normalized Content-Type, not by the
    boundary parameter. *)
Theorem getBoundary_longer_media_type extra sp X params :
  extra <> [] -> (";"%char ∉ extra) ->
  sp = [] \/ sp = B " " -> (";"%char ∉ X) ->
  params = [] \/ (exists more, params = ";"%char :: more) ->
  getBoundary ((media_type ++ extra) ++ B ";" ++ sp ++ B "boundary=" ++ X
               ++ params)
  = inl (B "--" ++ (media_type ++ extra) ++ B ";" ++ B "boundary=" ++ X).
Proof.
  intros Hne Hextra Hsp HX Hparams.
  destruct (Split_content_type (media_type ++ extra) sp X params)
    as [others Hs]; [|done..|].
  { intros [Hin|Hin]%elem_of_app; [|done].
    revert Hin. by apply no_semicolon_check. }
  unfold getBoundary. rewrite Hs. rewrite TrimPrefix_space by done.
  change (B "multipart/x-mixed-replace") with media_type.
  rewrite !HasPrefix_app. cbn [negb orb]. do 2 f_equal.
  unfold TrimPrefix.
  change (B "multipart/x-mixed-replace;boundary=")
    with (media_type ++ B ";boundary=").
  rewrite <- (app_assoc media_type), HasPrefix_same.
  destruct extra as [|e extra]; [done|].
  change (B ";boundary=") with (";"%char :: B "boundary=").
  cbn [app HasPrefix].
  destruct (Ascii.eqb_spec e ";") as [->|_]; [|reflexivity].
  exfalso. apply Hextra. apply list_elem_of_here.
Qed.

Lemma getBoundary_longer_media_type_witness :
  getBoundary ((media_type ++ B "ment") ++ B ";" ++ [] ++ B "boundary="
               ++ B "myboundary" ++ [])
  = inl (B "--" ++ (media_type ++ B "ment") ++ B ";" ++ B "boundary="
         ++ B "myboundary").
Proof.
  apply (getBoundary_longer_media_type (B "ment") [] (B "myboundary") []).
  - discriminate.
  - apply no_semicolon_check. vm_compute. reflexivity.
  - by left.
  - apply no_semicolon_check. vm_compute. reflexivity.
  - by left.
Defined.

(** X11. With a client header configured, [clientAddress] is the header's
    value up to its first comma, taken as it is, and the connection's
    remote address when that piece is empty (header absent, empty, or
    starting with a comma); it never panics. With no client header
    configured it is the remote address. *)
Theorem clientAddress_is_first_forwarded_host
    clientHeader RemoteAddr header first :
  (","%char ∉ first) ->
  header clientHeader = first \/
  (exists more, header clientHeader = first ++ ","%char :: more) ->
  clientAddress clientHeader RemoteAddr header
  = Ret (if decide (clientHeader = [] \/ first = [])
         then RemoteAddr else first).
Proof.
  intros Hfirst Hv. unfold clientAddress.
  destruct clientHeader as [|c0 ch] eqn:Hch.
  { destruct (decide _) as [|Hn]; [done|]. exfalso. apply Hn. by left. }
  rewrite <- Hch in *.
  assert (exists others, Split (header clientHeader) "," = first :: others)
    as [others ->].
  { destruct Hv as [->|[more ->]].
    - exists []. by apply Split_no_sep.
    - eexists. by apply Split_app. }
  cbn [index lookup list_lookup mbind outcome_bind].
  destruct first as [|f0 first'].
  - destruct (decide _) as [|Hn]; [done|]. exfalso. apply Hn. by right.
  - destruct (decide _) as [[?|?]|]; [congruence|done|done].
Qed.

Lemma clientAddress_is_first_forwarded_host_witness :
  clientAddress (B "X-Forwarded-For") (B "10.0.0.1:4711")
    (fun _ => B "203.0.113.7, 10.0.0.2")
  = Ret (if decide (B "X-Forwarded-For" = [] \/ B "203.0.113.7" = [])
         then B "10.0.0.1:4711" else B "203.0.113.7").
Proof.
  apply (clientAddress_is_first_forwarded_host (B "X-Forwarded-For")
           (B "10.0.0.1:4711") (fun _ => B "203.0.113.7, 10.0.0.2")
           (B "203.0.113.7")).
  - apply no_semicolon_check. vm_compute. reflexivity.
  - right. by eexists.
Defined.

End UpstreamFacts.

(** ** More properties of the broker *)

Module BrokerExtras.
Import Go Broker BrokerFacts BrokerClaims.

(** *** What one round does to the channels and to the counters *)

(** The frame that a round hands to the subscriber [s], if any. *)
Definition handed (p : PubSub) (ev : event) (s : positive) : list bytes :=
  match ev with
  | Publish d ready _ =>
      if decide (s ∈ subscribers p /\ ready s = true) then [d] else []
  | _ => []
  end.

Lemma frames_of_inbox p p' s :
  inbox p' = inbox p -> frames_of p' s = frames_of p s.
Proof. unfold frames_of. by intros ->. Qed.

Lemma doSubscribe_fields st ce order p s p' :
  subscribers_open p -> (s ∉ subscribers p) -> (s ∉ closed p) ->
  NoDup order ->
  doSubscribe st ce order p s = Ret p' ->
  inbox p' = inbox p /\ closed p ⊆ closed p' /\ stops p' = stops p /\
  (pubChan p' = pubChan p /\ started p' = started p \/
   pubChan p = None /\ pubChan p' = Some (started p) /\
   started p' = S (started p)).
Proof.
  intros Hopen Hs Hc Hnd. unfold doSubscribe. cbn [pubChan].
  destruct (pubChan p) eqn:Hpub.
  { intros [= <-]. cbn. rewrite ?Hpub. split; [done|]. split; [done|].
    split; [done|]. by left. }
  unfold startChunker. destruct st.
  { intros [= <-]. cbn. rewrite ?Hpub. split; [done|]. split; [done|].
    split; [done|]. by left. }
  destruct ce.
  - intros Hrun.
    match type of Hrun with
    | stopSubscribers order ?q = _ =>
        destruct (stopSubscribers_spec order q Hnd)
          as (p2 & Hrun2 & _ & Hc2 & Hp2 & Hi2 & Hst2 & Hsp2 & _)
    end.
    { intros x _. cbn [subscribers closed]. specialize (Hopen x).
      set_solver. }
    rewrite Hrun2 in Hrun. injection Hrun as <-.
    cbn [subscribers closed pubChan inbox started stops] in *.
    split; [done|]. split; [set_solver|]. split; [done|]. left.
    by rewrite Hp2, ?Hpub.
  - intros [= <-]. cbn. split; [done|]. split; [done|]. split; [done|].
    by right.
Qed.

(** What a round hands over, it appends to the inbox of a current
    subscriber that is ready; no other inbox changes. *)
Lemma handle_frames p ev p' s :
  subscribers_open p -> enabled p ev -> handle p ev = Ret p' ->
  frames_of p' s = frames_of p s ++ handed p ev s.
Proof.
  intros Hopen Hen Hh.
  destruct ev as [data ready order|order|s0 st ce order|s0|];
    cbn [handle enabled handed] in *.
  - destruct Hen as [_ Hv].
    destruct (visits_open order p Hv Hopen) as [Hnd Ho].
    destruct (doPublish_spec ready data order p Hnd Ho)
      as (p1 & Hrun & _ & _ & _ & _ & _ & _ & Hfr).
    rewrite Hrun in Hh. injection Hh as <-. rewrite Hfr.
    destruct Hv as [_ Hv].
    destruct (decide (s ∈ order /\ _)) as [(_ & ? & ?)|Hn].
    + by rewrite decide_True.
    + rewrite decide_False; [by rewrite app_nil_r|].
      intros [? ?]. apply Hn. by rewrite Hv.
  - destruct Hen as [_ [Hnd Hv]].
    destruct (stopSubscribers_spec order (stopChunker p) Hnd)
      as (p1 & Hrun & _ & _ & _ & Hi & _).
    { intros x _. apply Hopen. }
    rewrite Hrun in Hh. injection Hh as <-. rewrite app_nil_r.
    by apply frames_of_inbox.
  - destruct Hen as (Hs & Hc & [Hnd Hv]).
    destruct (doSubscribe_fields st ce order p s0 p' Hopen Hs Hc Hnd Hh)
      as (Hi & _).
    rewrite app_nil_r. by apply frames_of_inbox.
  - injection Hh as <-. rewrite app_nil_r. apply frames_of_inbox.
    by destruct (doUnsubscribe_fields p s0) as (_ & _ & _ & -> & _).
  - rewrite app_nil_r. destruct (decide _); injection Hh as <-; done.
Qed.

Lemma handle_closed p ev p' :
  subscribers_open p -> enabled p ev -> handle p ev = Ret p' ->
  closed p ⊆ closed p'.
Proof.
  intros Hopen Hen Hh.
  destruct ev as [data ready order|order|s0 st ce order|s0|];
    cbn [handle enabled] in *.
  - destruct Hen as [_ Hv].
    destruct (visits_open order p Hv Hopen) as [Hnd Ho].
    destruct (doPublish_spec ready data order p Hnd Ho)
      as (p1 & Hrun & _ & _ & _ & Hc & _).
    rewrite Hrun in Hh. injection Hh as <-. by rewrite Hc.
  - destruct Hen as [_ [Hnd Hv]].
    destruct (stopSubscribers_spec order (stopChunker p) Hnd)
      as (p1 & Hrun & _ & Hc & _).
    { intros x _. apply Hopen. }
    rewrite Hrun in Hh. injection Hh as <-. rewrite Hc.
    cbn [stopChunker closed]. set_solver.
  - destruct Hen as (Hs & Hc & [Hnd Hv]).
    by destruct (doSubscribe_fields st ce order p s0 p' Hopen Hs Hc Hnd Hh)
      as (_ & ? & _).
  - injection Hh as <-.
    by destruct (doUnsubscribe_fields p s0) as (_ & _ & -> & _).
  - destruct (decide _); injection Hh as <-; done.
Qed.

(** How many parsers are live: one when there is a handle. *)
Definition live (p : PubSub) : nat :=
  match pubChan p with
  | Some _ => 1
  | None => 0
  end.

Lemma handle_counters p ev p' :
  subscribers_open p -> enabled p ev -> handle p ev = Ret p' ->
  started p = stops p + live p -> started p' = stops p' + live p'.
Proof.
  intros Hopen Hen Hh Hinv. unfold live in *.
  destruct ev as [data ready order|order|s0 st ce order|s0|];
    cbn [handle enabled] in *.
  - destruct Hen as [_ Hv].
    destruct (visits_open order p Hv Hopen) as [Hnd Ho].
    destruct (doPublish_spec ready data order p Hnd Ho)
      as (p1 & Hrun & _ & Hp & _ & _ & Hst & Hsp & _).
    rewrite Hrun in Hh. injection Hh as <-. by rewrite Hp, Hst, Hsp.
  - destruct Hen as [Hlive [Hnd Hv]].
    destruct (stopSubscribers_spec order (stopChunker p) Hnd)
      as (p1 & Hrun & _ & _ & Hp & _ & Hst & Hsp & _).
    { intros x _. apply Hopen. }
    rewrite Hrun in Hh. injection Hh as <-. rewrite Hp, Hst, Hsp.
    cbn [stopChunker pubChan started stops].
    destruct (pubChan p); [lia|done].
  - destruct Hen as (Hs & Hc & [Hnd Hv]).
    destruct (doSubscribe_fields st ce order p s0 p' Hopen Hs Hc Hnd Hh)
      as (_ & _ & Hsp & [[Hp Hst]|(Hp0 & Hp & Hst)]).
    + by rewrite Hp, Hst, Hsp.
    + rewrite Hp, Hst, Hsp. rewrite Hp0 in Hinv. lia.
  - injection Hh as <-.
    destruct (doUnsubscribe_fields p s0) as (_ & -> & _ & _ & -> & -> & _).
    done.
  - destruct (decide _); injection Hh as <-;
      cbn [stopChunker pubChan started stops]; [|done].
    destruct (pubChan p); lia.
Qed.

(** *** Runs of several rounds *)

(** The loop goes from [p] to [p'] by receiving the events [evs]. *)
Inductive rounds : PubSub -> list event -> PubSub -> Prop :=
| rounds_nil p : rounds p [] p
| rounds_cons p ev p1 evs p' :
    enabled p ev -> handle p ev = Ret p1 -> rounds p1 evs p' ->
    rounds p (ev :: evs) p'.

(** The frames that the events publish, in order. *)
Definition published (evs : list event) : list bytes :=
  omap (fun ev => match ev with
                  | Publish d _ _ => Some d
                  | _ => None
                  end) evs.

Lemma rounds_reachable p evs p' :
  reachable p -> rounds p evs p' -> reachable p'.
Proof.
  intros Hr Hrounds. induction Hrounds as [|p ev p1 evs p' Hen Hh _ IH];
    [done|]. apply IH. by eapply reachable_round.
Qed.

(** *** The extra properties *)

(** X12. The broker's loop never panics: in every state it can reach,
    every event it can receive is handled to the end. In particular it
    never closes a channel twice and never sends on a closed channel. *)
Theorem broker_round_never_panics p ev :
  reachable p -> enabled p ev -> exists p', handle p ev = Ret p'.
Proof. apply handle_returns. Qed.

Lemma broker_round_never_panics_witness :
  exists p', handle first_subscribed (ProducerEnded [1%positive]) = Ret p'.
Proof.
  apply (broker_round_never_panics first_subscribed
           (ProducerEnded [1%positive])).
  - apply first_subscribed_reachable.
  - split; [discriminate|]. split; [apply NoDup_singleton|]. intros x.
    rewrite list_elem_of_singleton. cbn [first_subscribed subscribers].
    set_solver.
Defined.

(** X13. When the producer ends (its channel is closed), the loop calls
    [chunker.Stop()], clears the parser handle, closes the channel of
    every subscriber and empties the subscriber set; if there were
    subscribers the idle timer is armed. *)
Theorem producer_end_closes_every_subscriber p order :
  reachable p -> enabled p (ProducerEnded order) ->
  exists p',
    handle p (ProducerEnded order) = Ret p' /\
    subscribers p' = ∅ /\ pubChan p' = None /\
    (forall s, s ∈ subscribers p -> s ∈ closed p') /\
    stops p' = S (stops p) /\
    (subscribers p <> ∅ -> stopTimer p' = true).
Proof.
  intros Hopen%reachable_open [Hlive [Hnd Hv]]. cbn [handle].
  destruct (stopSubscribers_spec order (stopChunker p) Hnd)
    as (p' & Hrun & Hs & Hc & Hp & _ & _ & Hsp & Ht).
  { intros s _. apply Hopen. }
  cbn [stopChunker subscribers closed pubChan stops stopTimer] in *.
  assert (subscribers p' = ∅) as Hempty.
  { rewrite Hs. apply set_eq. intros x. rewrite elem_of_difference.
    rewrite elem_of_list_to_set, Hv. set_solver. }
  exists p'. split; [done|]. split; [done|]. split; [done|].
  split; [|split].
  - intros s Hin. rewrite Hc. apply elem_of_union_r, elem_of_intersection.
    by rewrite elem_of_list_to_set, Hv.
  - rewrite Hsp. by destruct (pubChan p).
  - intros Hne. rewrite Ht. by rewrite decide_True.
Qed.

Lemma producer_end_closes_every_subscriber_witness :
  exists p',
    handle first_subscribed (ProducerEnded [1%positive]) = Ret p' /\
    subscribers p' = ∅ /\ pubChan p' = None /\
    (forall s, s ∈ subscribers first_subscribed -> s ∈ closed p') /\
    stops p' = S (stops first_subscribed) /\
    (subscribers first_subscribed <> ∅ -> stopTimer p' = true).
Proof.
  apply (producer_end_closes_every_subscriber first_subscribed
           [1%positive]).
  - apply first_subscribed_reachable.
  - split; [discriminate|]. split; [apply NoDup_singleton|]. intros x.
    rewrite list_elem_of_singleton. cbn [first_subscribed subscribers].
    set_solver.
Defined.

(** X14. Idle shutdown: when the only subscriber unsubscribes while a
    parser is live, the idle timer is armed and the parser is left
    running; when the timer then fires, [chunker.Stop()] is called once
    and the parser handle is cleared. *)
Theorem idle_timeout_stops_parser p s n :
  subscribers p = {[s]} -> pubChan p = Some n ->
  let p1 := doUnsubscribe p s in
  handle p (Unsubscribe s) = Ret p1 /\
  pubChan p1 = Some n /\ stopTimer p1 = true /\ stops p1 = stops p /\
  enabled p1 TimerFired /\
  exists p2,
    handle p1 TimerFired = Ret p2 /\
    subscribers p2 = ∅ /\ pubChan p2 = None /\
    stops p2 = S (stops p) /\ stopTimer p2 = false.
Proof.
  intros Hs Hp p1.
  destruct (doUnsubscribe_fields p s) as (Hs1 & Hp1 & _ & _ & _ & Hsp1 & Ht1).
  fold p1 in Hs1, Hp1, Hsp1, Ht1.
  assert (subscribers p1 = ∅) as Hempty by (rewrite Hs1, Hs; set_solver).
  assert (stopTimer p1 = true) as Htimer.
  { rewrite Ht1. rewrite decide_True; [done|]. rewrite Hs. set_solver. }
  split; [done|]. split; [congruence|]. split; [done|]. split; [done|].
  split; [done|]. cbn [handle subscribers]. rewrite Hempty.
  destruct (decide (size (∅ : gset positive) = 0)) as [_|Hn];
    [|by rewrite size_empty in Hn].
  eexists. split; [done|]. cbn [stopChunker subscribers pubChan stops stopTimer].
  rewrite Hp1, Hp, Hsp1. done.
Qed.

Lemma idle_timeout_stops_parser_witness :
  let p1 := doUnsubscribe first_subscribed 1%positive in
  handle first_subscribed (Unsubscribe 1%positive) = Ret p1 /\
  pubChan p1 = Some 0 /\ stopTimer p1 = true /\
  stops p1 = stops first_subscribed /\
  enabled p1 TimerFired /\
  exists p2,
    handle p1 TimerFired = Ret p2 /\
    subscribers p2 = ∅ /\ pubChan p2 = None /\
    stops p2 = S (stops first_subscribed) /\ stopTimer p2 = false.
Proof.
  apply (idle_timeout_stops_parser first_subscribed 1%positive 0);
    reflexivity.
Defined.

(** X15. A subscriber that arrives within the grace window keeps the
    parser: after the only subscriber has left and a new one has
    subscribed, the firing of the idle timer changes nothing but the
    timer; there was no new start and no stop, and the parser handle is
    the one from before. *)
Theorem late_subscriber_keeps_parser p s s' st ce order n :
  subscribers p = {[s]} -> pubChan p = Some n ->
  exists p2 p3,
    handle (doUnsubscribe p s) (Subscribe s' st ce order) = Ret p2 /\
    handle p2 TimerFired = Ret p3 /\
    subscribers p3 = {[s']} /\ pubChan p3 = Some n /\
    started p3 = started p /\ stops p3 = stops p /\
    closed p3 = closed p /\ stopTimer p3 = false.
Proof.
  intros Hs Hp.
  destruct (doUnsubscribe_fields p s) as (Hs1 & Hp1 & Hc1 & _ & Hst1 & Hsp1 & _).
  cbn [handle]. unfold doSubscribe. cbn [pubChan]. rewrite Hp1, Hp.
  eexists _, _. split; [done|]. cbn [subscribers].
  assert ({[s']} ∪ subscribers (doUnsubscribe p s) = ({[s']} : gset positive))
    as Hone by (rewrite Hs1, Hs; set_solver).
  rewrite Hone.
  destruct (decide (size ({[s']} : gset positive) = 0)) as [H0|_].
  { by rewrite size_singleton in H0. }
  split; [done|]. cbn. by rewrite Hst1, Hsp1, Hc1.
Qed.

Lemma late_subscriber_keeps_parser_witness :
  exists p2 p3,
    handle (doUnsubscribe first_subscribed 1%positive)
      (Subscribe 2%positive false true [2%positive]) = Ret p2 /\
    handle p2 TimerFired = Ret p3 /\
    subscribers p3 = {[2%positive]} /\ pubChan p3 = Some 0 /\
    started p3 = started first_subscribed /\
    stops p3 = stops first_subscribed /\
    closed p3 = closed first_subscribed /\ stopTimer p3 = false.
Proof.
  apply (late_subscriber_keeps_parser first_subscribed 1%positive 2%positive
           false true [2%positive] 0); reflexivity.
Defined.

(** X16. Every parser that was started is stopped exactly once: in every
    reachable state the number of starts is the number of calls of
    [chunker.Stop()] plus one if a parser is live, and a live handle is
    the channel of the latest start. *)
Theorem every_started_parser_is_stopped_once p :
  reachable p ->
  started p = stops p + live p /\
  (forall n, pubChan p = Some n -> started p = S n).
Proof.
  induction 1 as [|p ev p' Hreach [IH1 IH2] Hen Hh]; [done|].
  pose proof (reachable_open p Hreach) as Hopen.
  split; [by eapply handle_counters|].
  destruct ev as [data ready order|order|s0 st ce order|s0|];
    cbn [handle enabled] in *.
  - destruct Hen as [_ Hv].
    destruct (visits_open order p Hv Hopen) as [Hnd Ho].
    destruct (doPublish_spec ready data order p Hnd Ho)
      as (p1 & Hrun & _ & Hp & _ & _ & Hst & _).
    rewrite Hrun in Hh. injection Hh as <-. by rewrite Hp, Hst.
  - destruct Hen as [_ [Hnd Hv]].
    destruct (stopSubscribers_spec order (stopChunker p) Hnd)
      as (p1 & Hrun & _ & _ & Hp & _).
    { intros x _. apply Hopen. }
    rewrite Hrun in Hh. injection Hh as <-. by rewrite Hp.
  - destruct Hen as (Hs & Hc & [Hnd Hv]).
    destruct (doSubscribe_fields st ce order p s0 p' Hopen Hs Hc Hnd Hh)
      as (_ & _ & _ & [[Hp Hst]|(_ & Hp & Hst)]).
    + by rewrite Hp, Hst.
    + rewrite Hp, Hst. by intros n [= <-].
  - injection Hh as <-.
    by destruct (doUnsubscribe_fields p s0) as (_ & -> & _ & _ & -> & _).
  - destruct (decide _); injection Hh as <-; [done|]. apply IH2.
Qed.

Lemma every_started_parser_is_stopped_once_witness :
  started first_subscribed = stops first_subscribed + live first_subscribed /\
  (forall n, pubChan first_subscribed = Some n ->
     started first_subscribed = S n).
Proof.
  apply (every_started_parser_is_stopped_once first_subscribed).
  apply first_subscribed_reachable.
Defined.

(** X17. A subscriber whose channel was closed has reached the end of its
    stream: in every later round its channel stays closed, it is not a
    member of the subscriber set, and it receives no further frame. *)
Theorem closed_subscriber_receives_nothing p ev p' s :
  reachable p -> s ∈ closed p -> enabled p ev -> handle p ev = Ret p' ->
  s ∈ closed p' /\ (s ∉ subscribers p') /\ frames_of p' s = frames_of p s.
Proof.
  intros Hreach Hs Hen Hh.
  pose proof (reachable_open p Hreach) as Hopen.
  assert (reachable p') as Hreach' by by eapply reachable_round.
  pose proof (handle_closed p ev p' Hopen Hen Hh) as Hsub.
  assert (s ∈ closed p') as Hs' by by apply Hsub.
  split; [done|]. split.
  - intros Hin. by apply (reachable_open p' Hreach' s).
  - rewrite (handle_frames p ev p' s Hopen Hen Hh).
    assert (handed p ev s = []) as ->; [|by rewrite app_nil_r].
    unfold handed. destruct ev; try done.
    rewrite decide_False; [done|]. intros [Hin _]. by apply (Hopen s).
Qed.

(** The state after a failed first start, once the idle timer has fired. *)
Definition failed_start_idle : PubSub :=
  {| subscribers := ∅; pubChan := None; stopTimer := false;
     closed := {[1%positive]}; inbox := ∅; started := 0; stops := 0 |}.

Lemma closed_subscriber_receives_nothing_witness :
  1%positive ∈ closed failed_start_idle /\
  (1%positive ∉ subscribers failed_start_idle) /\
  frames_of failed_start_idle 1%positive = frames_of failed_start 1%positive.
Proof.
  apply (closed_subscriber_receives_nothing failed_start TimerFired
           failed_start_idle 1%positive).
  - apply failed_start_reachable.
  - cbn [failed_start closed]. set_solver.
  - reflexivity.
  - vm_compute. reflexivity.
Defined.

(** X18. Frames reach a subscriber in the order of publication, each at
    most once and with nothing else in between: over any run of the loop,
    what a subscriber has received at the end is what it had received
    before, followed by a subsequence of the frames published during the
    run. *)
Theorem frames_arrive_in_published_order p evs p' s :
  reachable p -> rounds p evs p' ->
  exists l,
    frames_of p' s = frames_of p s ++ l /\ sublist l (published evs).
Proof.
  intros Hreach Hrounds. revert Hreach.
  induction Hrounds as [p|p ev p1 evs p' Hen Hh _ IH]; intros Hreach.
  - exists []. rewrite app_nil_r. split; [done|]. apply sublist_nil_l.
  - pose proof (reachable_open p Hreach) as Hopen.
    destruct IH as (l & Hl & Hsub); [by eapply reachable_round|].
    rewrite (handle_frames p ev p1 s Hopen Hen Hh) in Hl.
    exists (handed p ev s ++ l). rewrite app_assoc. split; [done|].
    unfold handed, published. cbn [omap list_omap].
    destruct ev as [d ready order| | | |]; cbn [app]; try done.
    destruct (decide _); cbn [app]; [by apply sublist_skip|].
    by apply sublist_cons.
Qed.

Definition ready_all : positive -> bool := fun _ => true.
Definition ready_none : positive -> bool := fun _ => false.

Lemma frames_arrive_in_published_order_witness :
  exists l,
    frames_of
      (mkPubSub {[1%positive]} (Some 0) false ∅
         {[1%positive := [B "two"]]} 1 0) 1%positive
    = frames_of first_subscribed 1%positive ++ l /\
    sublist l
      (published [Publish (B "one") ready_none [1%positive];
                  Publish (B "two") ready_all [1%positive]]).
Proof.
  apply (frames_arrive_in_published_order first_subscribed).
  - apply first_subscribed_reachable.
  - assert (visits [1%positive] (subscribers first_subscribed)) as Hv.
    { split; [apply NoDup_singleton|]. intros x.
      rewrite list_elem_of_singleton. cbn [first_subscribed subscribers].
      set_solver. }
    eapply rounds_cons; [split; [discriminate|exact Hv]| |].
    { vm_compute. reflexivity. }
    eapply rounds_cons; [split; [discriminate|exact Hv]| |].
    { vm_compute. reflexivity. }
    apply rounds_nil.
Defined.

End BrokerExtras.

(** ** More properties of the stream responder *)

Module ResponderExtras.
Import Go Responder ResponderClaims.

(** The frame of a round that arrives before the time limit. *)
Definition chunk_in_time (endTime : Z) (r : round) : option bytes :=
  if (endTime <? now_limit r)%Z then None else chunk_of r.

(** What one round writes: nothing, or the frame it received in time. *)
Lemma loop_body_parts iv et l r c l' :
  loop_body iv et l r = (c, l') ->
  parts l' = parts l \/
  exists d, chunk_in_time et r = Some d /\ parts l' = parts l ++ [d].
Proof.
  unfold loop_body, chunk_in_time, chunk_of.
  destruct (recv r) as [d| |]; [|by intros [= <- <-]; left..].
  cbn [headersSent lastSendTime data chunkOk parts].
  destruct (et <? now_limit r)%Z; [by intros [= <- <-]; left|].
  destruct (_ && _); [by intros [= <- <-]; left|].
  destruct (create_err r); [by intros [= <- <-]; left|].
  destruct (write_err r); [by intros [= <- <-]; left|].
  intros [= <- <-]. right. by exists d.
Qed.

(** X19. The receive loop ends in the answer 503 exactly when its first
    round receives the closing of the delivery channel or the client's
    cancellation: once a frame was received the answer is never 503. *)
Theorem service_unavailable_iff_first_round_ends iv et rounds :
  fst (serve_loop iv et locals0 rounds) = ServiceUnavailable <->
  exists r rest,
    rounds = r :: rest /\ (recv r = ChanClosed \/ recv r = CtxDone).
Proof.
  split.
  - destruct rounds as [|r rest]; [done|]. intros Hs.
    exists r, rest. split; [done|]. cbn [serve_loop] in Hs.
    unfold loop_body in Hs. destruct (recv r) as [d| |]; [|by left|by right].
    exfalso. cbn [headersSent lastSendTime data chunkOk parts locals0] in Hs.
    destruct (et <? now_limit r)%Z; [done|]. cbn [andb] in Hs.
    destruct (create_err r); [done|]. destruct (write_err r); [done|].
    match type of Hs with
    | fst (serve_loop iv et ?l1 rest) = _ =>
        destruct (serve_loop iv et l1 rest) as [f l'] eqn:Hrun
    end.
    by apply serve_loop_headersSent in Hrun.
  - intros (r & rest & -> & Hr). cbn [serve_loop]. unfold loop_body.
    by destruct Hr as [-> | ->].
Qed.

(** X20. A client to which a frame was sent never gets the answer 503,
    whatever happens in the rounds that follow. *)
Theorem no_service_unavailable_after_first_frame iv et l rounds :
  headersSent l = true ->
  fst (serve_loop iv et l rounds) <> ServiceUnavailable.
Proof.
  intros Hh. destruct (serve_loop iv et l rounds) as [f l'] eqn:Hrun.
  by apply serve_loop_headersSent in Hrun.
Qed.

Definition closed_round : round :=
  {| recv := ChanClosed; now_limit := 0; now_throttle := 0; now_send := 0;
     create_err := false; write_err := false |}.

Lemma no_service_unavailable_after_first_frame_witness :
  fst (serve_loop 0 year after_first_frame [closed_round])
  <> ServiceUnavailable.
Proof.
  apply (no_service_unavailable_after_first_frame 0 year after_first_frame
           [closed_round]).
  reflexivity.
Defined.

(** X21. The parts written to the client are frames that were received
    before the time limit, in the order of their arrival and each at most
    once: over any rounds, the parts at the end are the parts from before
    followed by a subsequence of the frames that arrived in time. *)
Theorem parts_are_received_frames_in_order iv et rounds : forall l,
  exists sent,
    parts (snd (serve_loop iv et l rounds)) = parts l ++ sent /\
    sublist sent (omap (chunk_in_time et) rounds).
Proof.
  induction rounds as [|r rounds IH]; intros l.
  - exists []. cbn. rewrite app_nil_r. split; [done|]. apply sublist_nil_l.
  - cbn [serve_loop omap list_omap].
    destruct (loop_body iv et l r) as [c l1] eqn:Hb.
    pose proof (loop_body_parts _ _ _ _ _ _ Hb) as Hparts.
    assert (exists now, parts l1 = parts l ++ now /\
              sublist now (match chunk_in_time et r with
                           | Some d => [d]
                           | None => []
                           end)) as (now & Hnow & Hsub).
    { destruct Hparts as [->|(d & -> & ->)].
      - exists []. rewrite app_nil_r. split; [done|]. apply sublist_nil_l.
      - exists [d]. done. }
    destruct c.
    + exists now. cbn [snd]. split; [done|].
      destruct (chunk_in_time et r) as [d0|];
        [|apply sublist_nil_r in Hsub as ->; apply sublist_nil_l].
      change (d0 :: omap (chunk_in_time et) rounds)
        with ([d0] ++ omap (chunk_in_time et) rounds).
      by apply sublist_inserts_r.
    + destruct (IH l1) as (sent & Hsent & Hsub').
      exists (now ++ sent). rewrite Hsent, Hnow, app_assoc.
      split; [done|].
      destruct (chunk_in_time et r) as [d0|].
      * change (d0 :: omap (chunk_in_time et) rounds)
          with ([d0] ++ omap (chunk_in_time et) rounds).
        by apply sublist_app.
      * apply sublist_nil_r in Hsub as ->. done.
    + exists now. cbn [snd]. split; [done|].
      destruct (chunk_in_time et r) as [d0|];
        [|apply sublist_nil_r in Hsub as ->; apply sublist_nil_l].
      change (d0 :: omap (chunk_in_time et) rounds)
        with ([d0] ++ omap (chunk_in_time et) rounds).
      by apply sublist_inserts_r.
Qed.

(** X22. A frame that arrives after the time limit ends the loop without
    being written, and the response is closed as after a clean end: the
    answer is not 503, even if no frame was ever sent. *)
Theorem frame_after_time_limit_ends_stream iv et l r d rest :
  recv r = Chunk d -> (et < now_limit r)%Z ->
  exists l',
    serve_loop iv et l (r :: rest) = (WriterClosed, l') /\
    parts l' = parts l /\ headersSent l' = headersSent l.
Proof.
  intros Hr Hlate. cbn [serve_loop]. unfold loop_body. rewrite Hr.
  cbn [headersSent lastSendTime data chunkOk parts].
  destruct (Z.ltb_spec et (now_limit r)); [|lia].
  exists {| data := d; chunkOk := true; headersSent := headersSent l;
            lastSendTime := lastSendTime l; parts := parts l |}.
  split; [|done]. unfold after_loop.
  cbn [chunkOk headersSent negb]. by rewrite andb_false_r.
Qed.

Lemma frame_after_time_limit_ends_stream_witness :
  exists l',
    serve_loop 0 5 locals0 (frame_at 6 (B "late") :: [closed_round])
    = (WriterClosed, l') /\
    parts l' = parts locals0 /\ headersSent l' = headersSent locals0.
Proof.
  apply (frame_after_time_limit_ends_stream 0 5 locals0
           (frame_at 6 (B "late")) (B "late") [closed_round]).
  - reflexivity.
  - reflexivity.
Defined.

End ResponderExtras.
